(** * okwolo (goo): the keyed reorder heuristic, the shallow attribute diff,
    the vdom builder and updater, and the state module.

    The definitions below are a shallow embedding of [src/src/utils.js] and
    of the bundle [src/dist/lite.js]; the properties proved about them come
    after all definitions. *)

From Stdlib Require Import ZArith Lia.
From stdpp Require Import base decidable option list sets strings pretty.

Local Open Scope Z_scope.

(** ** JavaScript arrays of keys

    Child keys are strings ([key = String(key)] in [build]).  An array is a
    list; indices are JavaScript numbers holding integers, kept in [Z]
    because the code produces [-1] ([indexOf] on a miss, [end] of an empty
    chain). *)

Module JsArray.

Definition key := string.

(** [arr[i]]: [None] stands for [undefined], the value of a read outside
    [0 .. length-1]. *)
Definition at_index {A : Type} (arr : list A) (i : Z) : option A :=
  if decide (0 ≤ i) then arr !! Z.to_nat i else None.

(** [Array.prototype.indexOf], strict equality, first match or [-1]. *)
Fixpoint indexOf_from (arr : list key) (x : key) (i : Z) : Z :=
  match arr with
  | [] => -1
  | y :: rest => if decide (y = x) then i else indexOf_from rest x (i + 1)
  end.

Definition indexOf (arr : list key) (x : key) : Z := indexOf_from arr x 0.

(** The relative index of [Array.prototype.slice]: negative counts from the
    end, everything is clamped to [0 .. len]. *)
Definition relative_index (len i : Z) : Z :=
  if decide (i < 0) then Z.max (len + i) 0 else Z.min i len.

(** [arr.slice(b, e)]; [e = None] is the call [arr.slice(b, Infinity)]. *)
Definition slice {A : Type} (arr : list A) (b : Z) (e : option Z) : list A :=
  let len := Z.of_nat (length arr) in
  let k := relative_index len b in
  let final := match e with Some e' => relative_index len e' | None => len end in
  take (Z.to_nat (final - k)) (drop (Z.to_nat k) arr).

End JsArray.

(** ** [longestChain] (src/src/utils.js 240-281, src/dist/lite.js 727-763) *)

Module LongestChain.
Import JsArray.

Record range := { start : Z; end_ : Z }.

(** [longest >= half] with [half = count / 2]: both sides are small integers
    or half-integers, so the comparison is [count <= 2 * longest]. *)
Definition reaches_half (longest count : Z) : bool :=
  bool_decide (count ≤ 2 * longest).

(** The inner loop [for (inc = 1; inc < maxInc; ++inc)], entered with
    [steps] iterations left. *)
Fixpoint extend_chain (original successor : list key) (i startInc : Z)
    (steps : nat) (inc currentLength : Z) : Z :=
  match steps with
  | O => currentLength
  | S steps' =>
      if decide (at_index successor (i + inc) = at_index original (startInc + inc))
      then extend_chain original successor i startInc steps' (inc + 1) (currentLength + 1)
      else currentLength
  end.

(** One pass of the outer loop body up to the update of [longest]. *)
Definition chain_at (original successor : list key) (count i : Z) : Z :=
  let startInc :=
    match at_index successor i with
    | Some k => indexOf original k
    | None => -1
    end in
  let maxInc := Z.min (count - startInc) (count - i) in
  extend_chain original successor i startInc (Z.to_nat (maxInc - 1)) 1 1.

(** The outer loop [for (i = 0; i < count; ++i)] with its early [break],
    entered with [steps] iterations left. *)
Fixpoint scan (original successor : list key) (count : Z)
    (steps : nat) (i longest chainStart : Z) : Z * Z :=
  match steps with
  | O => (longest, chainStart)
  | S steps' =>
      let currentLength := chain_at original successor count i in
      let '(longest', chainStart') :=
        if decide (currentLength > longest) then (currentLength, i)
        else (longest, chainStart) in
      if reaches_half longest' count then (longest', chainStart')
      else scan original successor count steps' (i + 1) longest' chainStart'
  end.

Definition longestChain (original successor : list key) : range :=
  let count := Z.of_nat (length successor) in
  let '(longest, chainStart) :=
    scan original successor count (length successor) 0 0 0 in
  {| start := chainStart; end_ := chainStart + longest - 1 |}.

End LongestChain.

(** ** The two boundary move phases of [update] (src/dist/lite.js 926-947)

    The live children of a DOM element are a sequence of nodes; the node of
    a child is [original.children[key].DOM], so a node is named by its key.
    A node sits at one position only: moving it takes it out of its old
    place. *)

Module Reorder.
Import JsArray LongestChain.

(** [parent.insertBefore(node, parent.firstChild)] *)
Definition insertBefore_first (k : key) (live : list key) : list key :=
  k :: filter (λ x, x ≠ k) live.

(** [parent.appendChild(node)] *)
Definition appendChild (k : key) (live : list key) : list key :=
  filter (λ x, x ≠ k) live ++ [k].

(** [for (i = startKeys.length - 1; i >= 0; --i)] *)
Definition prepend_phase (startKeys live : list key) : list key :=
  fold_left (λ dom k, insertBefore_first k dom) (rev startKeys) live.

(** [for (i = 0; i < endKeys.length; ++i)] *)
Definition append_phase (endKeys live : list key) : list key :=
  fold_left (λ dom k, appendChild k dom) endKeys live.

(** The tail of [_update]: [childOrder] is the live order, [target] is
    [successor.childOrder]. *)
Definition reorder (childOrder target : list key) : list key :=
  let r := longestChain childOrder target in
  let startKeys := slice target 0 (Some (start r)) in
  let endKeys := slice target (end_ r + 1) None in
  append_phase endKeys (prepend_phase startKeys childOrder).

End Reorder.

(** ** Vocabulary of the chain properties *)

Module ChainSpec.
Import JsArray LongestChain.

(** A common contiguous run of length [m]: the keys of [successor] at
    [i .. i+m-1] are, in the same order, the keys of [original] at
    [s .. s+m-1]. *)
Definition common_run (original successor : list key) (i s m : nat) : Prop :=
  ∀ k, (k < m)%nat →
    ∃ x, successor !! (i + k)%nat = Some x ∧ original !! (s + k)%nat = Some x.

(** Two keys that are neighbours, in this order, in both sequences. *)
Definition adjacent_pair (original successor : list key) : Prop :=
  ∃ i s, common_run original successor i s 2.

(** No common contiguous run is longer than [m]. *)
Definition longest_run (original successor : list key) (m : nat) : Prop :=
  ∀ i s n, common_run original successor i s n → (n ≤ m)%nat.

(** Number of keys in the inclusive range [start .. end]. *)
Definition range_length (r : range) : nat := Z.to_nat (end_ r - start r + 1).

(** The returned range read as indices into [original], the first argument
    of [longestChain]: its keys are somewhere a contiguous run of
    [successor]. *)
Definition range_in_original (original successor : list key) : Prop :=
  let r := longestChain original successor in
  ∃ i, common_run original successor i (Z.to_nat (start r)) (range_length r).

(** The returned range read as indices into [successor], the second
    argument: its keys are somewhere a contiguous run of [original]. *)
Definition range_in_successor (original successor : list key) : Prop :=
  let r := longestChain original successor in
  ∃ s, common_run original successor (Z.to_nat (start r)) s (range_length r).

(** Length of the longest common prefix of two arrays. *)
Fixpoint common_prefix (a b : list key) : nat :=
  match a, b with
  | x :: a', y :: b' => if decide (x = y) then S (common_prefix a' b') else O
  | _, _ => O
  end.

(** The chain length the code computes at successor index [j], as a [nat]. *)
Definition chainN (cur tgt : list key) (j : nat) : nat :=
  Z.to_nat (chain_at cur tgt (Z.of_nat (length tgt)) (Z.of_nat j)).

(** What the scan leaves behind: the chain starting at [c] has length [L],
    no index starts a longer chain, and no earlier index starts one as long. *)
Definition scan_final (cur tgt : list key) (L c : nat) : Prop :=
  (c < length tgt)%nat ∧ chainN cur tgt c = L ∧
  (∀ j, (j < length tgt)%nat → (chainN cur tgt j ≤ L)%nat) ∧
  (∀ j, (j < c)%nat → (chainN cur tgt j < L)%nat).

End ChainSpec.

(** ** Calls that return or throw *)

Module JsResult.

Inductive result (E A : Type) :=
| Ok (a : A)
| Throw (e : E).
Arguments Ok {E A} a.
Arguments Throw {E A} e.

End JsResult.

(** ** JavaScript values

    Numbers are [NaN], the two infinities and the integers; the code below
    never computes a fraction.  A function is a value with an identity; an
    object or an array is a reference.  [VObjectPrototype] is the object
    every plain object inherits from. *)

Module JsValue.

Inductive number :=
| NaN
| Infinity (negative : bool)
| Int (z : Z).

Inductive func :=
| Closure (id : nat)
| Builtin (name : string).

Abbreviation loc := nat.

Inductive value :=
| VUndefined
| VNull
| VBool (b : bool)
| VNum (n : number)
| VStr (s : string)
| VFun (f : func)
| VRef (l : loc)
| VObjectPrototype.

#[global] Instance number_eq_dec : EqDecision number.
Proof. solve_decision. Defined.
#[global] Instance func_eq_dec : EqDecision func.
Proof. solve_decision. Defined.
#[global] Instance value_eq_dec : EqDecision value.
Proof. solve_decision. Defined.

(** [typeof value === 'function'] *)
Definition isFunction (v : value) : bool :=
  match v with VFun _ => true | _ => false end.

(** [value !== undefined] *)
Definition isDefined (v : value) : bool :=
  match v with VUndefined => false | _ => true end.

(** [a === b] on numbers: [NaN] equals nothing, itself included. *)
Definition number_strict_eq (a b : number) : bool :=
  match a, b with
  | NaN, _ | _, NaN => false
  | _, _ => bool_decide (a = b)
  end.

(** [a === b]: primitives by value, functions and objects by identity. *)
Definition strict_eq (a b : value) : bool :=
  match a, b with
  | VNum x, VNum y => number_strict_eq x y
  | _, _ => bool_decide (a = b)
  end.

(** The integers a double holds exactly and prints digit by digit: up to
    [Number.MAX_SAFE_INTEGER] either way. *)
Definition safe_integer (z : Z) : Prop :=
  - (2 ^ 53 - 1) ≤ z ≤ 2 ^ 53 - 1.

#[global] Instance safe_integer_dec (z : Z) : Decision (safe_integer z).
Proof. unfold safe_integer. apply _. Defined.

(** [String(n)].  A safe integer prints as its decimal digits.  Beyond, the
    engine prints the shortest digits that read back as the same double,
    and the exponent form from [1e21] on: [big] is what it prints there. *)
Definition number_to_string (big : Z → string) (n : number) : string :=
  match n with
  | NaN => "NaN"
  | Infinity false => "Infinity"
  | Infinity true => "-Infinity"
  | Int z => if decide (safe_integer z) then pretty z else big z
  end.

End JsValue.

(** ** Plain JavaScript objects

    An object is the list of its own enumerable properties in the order
    [Object.keys] gives them: array indices first, ascending, then the
    other keys in the order they were created.  No object here owns a
    property called [__proto__]. *)

Module JsObject.
Import JsValue.

Definition object (V : Type) := list (string * V).

Definition digit_of (c : Ascii.ascii) : option N :=
  let n := Ascii.N_of_ascii c in
  if decide (48 ≤ n ∧ n ≤ 57)%N then Some (n - 48)%N else None.

Fixpoint parse_decimal (s : string) (acc : N) : option N :=
  match s with
  | EmptyString => Some acc
  | String c rest =>
      match digit_of c with
      | Some d => parse_decimal rest (10 * acc + d)%N
      | None => None
      end
  end.

(** An array index: the canonical decimal form of an integer below
    [2^32 - 1]. *)
Definition array_index (s : string) : option N :=
  match s with
  | EmptyString => None
  | _ =>
      match parse_decimal s 0%N with
      | Some n => if decide (pretty n = s ∧ (n < 4294967295)%N) then Some n else None
      | None => None
      end
  end.

(** The own property [k], if there is one. *)
Fixpoint own {V : Type} (o : object V) (k : string) : option V :=
  match o with
  | [] => None
  | (k', v) :: rest => if decide (k' = k) then Some v else own rest k
  end.

(** [Object.keys(o)] *)
Definition keys {V : Type} (o : object V) : list string := o.*1.

Fixpoint replace_own {V : Type} (o : object V) (k : string) (v : V) : object V :=
  match o with
  | [] => []
  | (k', v') :: rest =>
      if decide (k' = k) then (k, v) :: rest else (k', v') :: replace_own rest k v
  end.

(** Where a new array index goes: before the first larger index or the
    first other key. *)
Fixpoint insert_index {V : Type} (n : N) (k : string) (v : V) (o : object V) : object V :=
  match o with
  | [] => [(k, v)]
  | (k', v') :: rest =>
      match array_index k' with
      | Some n' =>
          if decide (n < n')%N then (k, v) :: (k', v') :: rest
          else (k', v') :: insert_index n k v rest
      | None => (k, v) :: (k', v') :: rest
      end
  end.

(** [o[k] = v] *)
Definition set {V : Type} (o : object V) (k : string) (v : V) : object V :=
  match own o k with
  | Some _ => replace_own o k v
  | None =>
      match array_index k with
      | Some n => insert_index n k v o
      | None => o ++ [(k, v)]
      end
  end.

(** [delete o[k]] *)
Definition delete {V : Type} (o : object V) (k : string) : object V :=
  filter (λ kv, kv.1 ≠ k) o.

(** [Object.assign(target, source)] *)
Definition assign {V : Type} (target source : object V) : object V :=
  fold_left (λ t kv, set t kv.1 kv.2) source target.

(** The names every plain object inherits from [Object.prototype]. *)
Definition object_prototype_methods : list string :=
  [ "constructor"; "hasOwnProperty"; "isPrototypeOf"; "propertyIsEnumerable";
    "toLocaleString"; "toString"; "valueOf";
    "__defineGetter__"; "__defineSetter__"; "__lookupGetter__"; "__lookupSetter__" ].

(** [Object.prototype[k]] *)
Definition object_prototype_get (k : string) : value :=
  if decide (k ∈ object_prototype_methods) then VFun (Builtin k)
  else if decide (k = "__proto__") then VObjectPrototype
  else VUndefined.

(** [o[k]] on a plain object of values: the own property, else the
    inherited one, else [undefined]. *)
Definition get (o : object value) (k : string) : value :=
  match own o k with
  | Some v => v
  | None => object_prototype_get k
  end.

(** [k] names something [o[k]] finds up the prototype chain, whatever [o]
    owns. *)
Definition inherited (k : string) : Prop :=
  k ∈ object_prototype_methods ∨ k = "__proto__".

#[global] Instance inherited_dec (k : string) : Decision (inherited k).
Proof. unfold inherited. apply _. Defined.

End JsObject.

(** ** The shallow attribute diff

    [Utils.diff] is src/src/utils.js 287-307, [Lite.diff] is the copy
    bundled in src/dist/lite.js 769-784. *)

Module Utils.
Import JsValue JsObject.

Definition diff (original successor : object value) : list string :=
  let keys := keys (assign (assign [] original) successor) in
  fold_left (λ modifiedKeys key,
    let valueOriginal := get original key in
    let valueSuccessor := get successor key in
    if isFunction valueOriginal || isFunction valueSuccessor
    then modifiedKeys ++ [key]
    else if negb (strict_eq valueOriginal valueSuccessor)
    then modifiedKeys ++ [key]
    else modifiedKeys) keys [].

End Utils.

Module Lite.
Import JsValue JsObject.

Definition diff (original successor : object value) : list string :=
  let keys := keys (assign (assign [] original) successor) in
  fold_left (λ modifiedKeys key,
    let valueOriginal := get original key in
    let valueSuccessor := get successor key in
    let modifiedKeys :=
      if isFunction valueOriginal || isFunction valueSuccessor
      then modifiedKeys ++ [key] else modifiedKeys in
    if negb (strict_eq valueOriginal valueSuccessor)
    then modifiedKeys ++ [key]
    else modifiedKeys) keys [].

End Lite.

(** ** The vdom and its update (src/dist/lite.js 786-966)

    A vdom object is a text node [{text}] or an element
    [{tagName, attributes, children, childOrder}].  Its [DOM] slot, the
    rendered node, is not part of the tree here: a rendered node is named
    by the path of child keys that leads to it, and every call the code
    makes on a DOM node is recorded as a [host_op]: [_update] returns
    [Ok (v, ops)] when the code, on a DOM that performs each operation of
    [ops], returns and leaves [v]; a DOM that refuses an operation (a tag
    name [createElement] rejects, a property that cannot be written) throws
    at that call.  The child keys of a tree are never names inherited from
    [Object.prototype] ([build] refuses them), so [children[key]] is the
    own property; on other trees the code reads the inherited member where
    [_update] finds no child. *)

Module Vdom.
Import JsArray JsValue JsObject JsResult LongestChain.

#[local] Set Warnings "-register-all".

Inductive vnode :=
| Text (text : string)
| Element (tagName : string) (attributes : object value)
    (children : list (string * vnode)) (childOrder : list key).

(** [velem.tagName]: [undefined] on a text node. *)
Definition tagName_of (v : vnode) : option string :=
  match v with
  | Text _ => None
  | Element tagName _ _ _ => Some tagName
  end.

Definition path := list key.

Inductive host_op :=
| AppendRendered (parent : path) (k : key) (node : vnode)
| RemoveChild (parent : path) (k : key)
| ReplaceChild (parent : path) (k : key) (node : vnode)
| SetNodeValue (node : path) (text : string)
| SetProperty (node : path) (name : string) (v : value)
| InsertBeforeFirst (parent : path) (k : key)
| AppendChild (parent : path) (k : key).

Inductive exn :=
| TypeError (message : string).

Definition result (A : Type) : Type := JsResult.result exn A.

(** [arr.splice(i, 1)] *)
Definition splice_one {A : Type} (arr : list A) (i : Z) : list A :=
  let k := Z.to_nat (relative_index (Z.of_nat (length arr)) i) in
  take k arr ++ drop (S k) arr.

(** The loop over [attributesDiff]: each modified key is written to the vdom
    and to the DOM node. *)
Definition apply_attributes (node : path) (attributesDiff : list string)
    (original successor : object value) : object value * list host_op :=
  fold_left (λ '(attributes, ops) key,
    let v := get successor key in
    (set attributes key v, ops ++ [SetProperty node key v]))
    attributesDiff (original, []).

(** One boundary move: [original.children[key].DOM] is read first. *)
Definition move_child (op : path → key → host_op) (node : path)
    (children : object vnode) (acc : result (list host_op)) (k : key)
    : result (list host_op) :=
  match acc with
  | Throw e => Throw e
  | Ok ops =>
      match own children k with
      | Some _ => Ok (ops ++ [op node k])
      | None => Throw (TypeError "Cannot read property DOM of undefined")
      end
  end.

(** The two move loops after the children loop. *)
Definition move_children (node : path) (children : object vnode)
    (childOrder target : list key) : result (list host_op) :=
  let r := longestChain childOrder target in
  let startKeys := slice target 0 (Some (start r)) in
  let endKeys := slice target (end_ r + 1) None in
  let front := fold_left (move_child InsertBeforeFirst node children)
                 (rev startKeys) (Ok []) in
  fold_left (move_child AppendChild node children) endKeys front.

(** The state of the children loop: [original.children], the local
    [childOrder] and the operations so far. *)
Definition loop_state : Type := object vnode * list key * list host_op.

(** [_update(original, successor, parent, parentKey)].  The result is the
    new value of [parent.children[parentKey]] ([None] once deleted) and
    the operations done on the DOM, in order.  [fuel] bounds the depth of
    the recursion; [None] means it ran out. *)
Fixpoint _update (fuel : nat) (original successor : option vnode)
    (parent : path) (parentKey : key)
    : option (result (option vnode * list host_op)) :=
  match fuel with
  | O => None
  | S fuel' =>
    match original, successor with
    | None, None =>
        Some (Throw (TypeError "Cannot read property text of undefined"))
    | None, Some s =>
        Some (Ok (Some s, [AppendRendered parent parentKey s]))
    | Some _, None =>
        Some (Ok (None, [RemoveChild parent parentKey]))
    | Some o, Some s =>
      if decide (tagName_of o ≠ tagName_of s)
      then Some (Ok (Some s, [ReplaceChild parent parentKey s]))
      else
        let node := parent ++ [parentKey] in
        match o, s with
        | Text text, Text text' =>
            if decide (text ≠ text')
            then Some (Ok (Some (Text text'), [SetNodeValue node text']))
            else Some (Ok (Some o, []))
        | Element tagName attributes children childOrder,
          Element _ attributes' children' childOrder' =>
            let attributesDiff := Lite.diff attributes attributes' in
            let '(attributes1, ops1) :=
              apply_attributes node attributesDiff attributes attributes' in
            let childKeys := keys (assign (assign [] children) children') in
            let looped :=
              fold_left (λ (acc : option (result loop_state)) k,
                match acc with
                | Some (Ok (children1, childOrder1, ops)) =>
                    let oc := own children1 k in
                    let sc := own children' k in
                    let childOrder2 :=
                      match oc, sc with
                      | None, _ => childOrder1 ++ [k]
                      | Some _, None => splice_one childOrder1 (indexOf childOrder1 k)
                      | Some _, Some _ => childOrder1
                      end in
                    match _update fuel' oc sc node k with
                    | None => None
                    | Some (Throw e) => Some (Throw e)
                    | Some (Ok (Some child, ops')) =>
                        Some (Ok (set children1 k child, childOrder2, ops ++ ops'))
                    | Some (Ok (None, ops')) =>
                        Some (Ok (delete children1 k, childOrder2, ops ++ ops'))
                    end
                | other => other
                end) childKeys (Some (Ok (children, childOrder, ops1))) in
            match looped with
            | None => None
            | Some (Throw e) => Some (Throw e)
            | Some (Ok (children1, childOrder1, ops)) =>
                let updated := Element tagName attributes1 children1 childOrder' in
                match childOrder1 with
                | [] => Some (Ok (Some updated, ops))
                | _ =>
                    match move_children node children1 childOrder1 childOrder' with
                    | Ok moves => Some (Ok (Some updated, ops ++ moves))
                    | Throw e => Some (Throw e)
                    end
                end
            end
        | _, _ => Some (Throw (TypeError "Cannot read property of undefined"))
        end
    end
  end.

(** The body of the animation frame callback of [update(target, newVDOM,
    VDOM)]: the root sits under the key [root] of a parent that wraps
    [target]. *)
Definition update (fuel : nat) (newVDOM VDOM : vnode)
    : option (result (option vnode * list host_op)) :=
  _update fuel (Some VDOM) (Some newVDOM) [] "root".

(** Nesting depth of a tree. *)
Fixpoint depth (v : vnode) : nat :=
  match v with
  | Text _ => O
  | Element _ _ children _ =>
      S (foldr (λ kv d, Nat.max (depth kv.2) d) O children)
  end.

(** An attribute value that [===] finds equal to itself and that is not a
    function: everything but functions and [NaN]. *)
Definition stable_value (v : value) : bool :=
  negb (isFunction v) && strict_eq v v.

(** No attribute anywhere in the tree holds a function or [NaN]. *)
Fixpoint stable_attributes (v : vnode) : bool :=
  match v with
  | Text _ => true
  | Element _ attributes children _ =>
      forallb (λ kv, stable_value kv.2) attributes
      && forallb (λ kv, stable_attributes kv.2) children
  end.

End Vdom.

(** ** The moves as the parent node sees them

    Of the operations [_update] records, two change the order of the
    children a node already has: [insertBefore(node, firstChild)] and
    [appendChild(node)] on one of its own children. *)

Module HostOrder.
Import JsArray Vdom Reorder.

Definition apply_move (live : list key) (op : host_op) : list key :=
  match op with
  | InsertBeforeFirst _ k => insertBefore_first k live
  | AppendChild _ k => appendChild k live
  | _ => live
  end.

Definition run_moves (ops : list host_op) (live : list key) : list key :=
  fold_left apply_move ops live.

End HostOrder.

(** ** Vocabulary of the update properties *)

Module VdomSpec.
Import JsArray JsValue JsObject Vdom.

#[local] Set Warnings "-register-all".

(** Every key of a [childOrder] names a child, all the way down. *)
Fixpoint well_keyed (v : vnode) : bool :=
  match v with
  | Text _ => true
  | Element _ _ children childOrder =>
      forallb (λ k, bool_decide (is_Some (own children k))) childOrder
      && forallb (λ kv, well_keyed kv.2) children
  end.

(** No child key, at any depth, is a name inherited from
    [Object.prototype], which [children[key]] would find in an object that
    does not own it. *)
Fixpoint plain_keys (v : vnode) : bool :=
  match v with
  | Text _ => true
  | Element _ _ children childOrder =>
      forallb (λ k, bool_decide (¬ inherited k)) childOrder
      && forallb (λ kv, bool_decide (¬ inherited kv.1) && plain_keys kv.2) children
  end.

(** Two trees that read the same: the same text or tag, the same value under
    every attribute name, the same child order and, under every key, children
    that read the same. *)
Inductive similar : vnode → vnode → Prop :=
| similar_text text : similar (Text text) (Text text)
| similar_element tagName attributes attributes' children children' childOrder :
    (∀ k, get attributes k = get attributes' k) →
    (∀ k, option_Forall2 similar (own children k) (own children' k)) →
    similar (Element tagName attributes children childOrder)
            (Element tagName attributes' children' childOrder).

End VdomSpec.

(** ** The children of a DOM node under the recorded operations *)

Module HostChildren.
Import JsArray Vdom Reorder JsObject.

(** What one recorded operation does to the order of the children of the
    DOM node at [node]: a rendered node appended to it comes last, a removed
    child leaves, a moved child takes its new place; a replaced child keeps
    the place of the old one, and operations on other nodes change nothing
    here. *)
Definition apply_op (node : path) (live : list key) (op : host_op) : list key :=
  match op with
  | AppendRendered parent k _ =>
      if decide (parent = node) then live ++ [k] else live
  | RemoveChild parent k =>
      if decide (parent = node) then filter (λ x, x ≠ k) live else live
  | InsertBeforeFirst parent k =>
      if decide (parent = node) then insertBefore_first k live else live
  | AppendChild parent k =>
      if decide (parent = node) then appendChild k live else live
  | ReplaceChild _ _ _ | SetNodeValue _ _ | SetProperty _ _ _ => live
  end.

Definition run_ops (node : path) (ops : list host_op) (live : list key) : list key :=
  fold_left (apply_op node) ops live.

(** The operation touches the child [parentKey] of [parent] in place, or a
    node at or below it. *)
Definition inside (parent : path) (parentKey : key) (op : host_op) : Prop :=
  match op with
  | ReplaceChild p k _ =>
      (p = parent ∧ k = parentKey) ∨ (parent ++ [parentKey]) `prefix_of` p
  | AppendRendered p _ _ | RemoveChild p _ | SetNodeValue p _
  | SetProperty p _ _ | InsertBeforeFirst p _ | AppendChild p _ =>
      (parent ++ [parentKey]) `prefix_of` p
  end.

(** The keys of an element are in order: [childOrder] lists every own key
    of [children] once. *)
Definition top_keyed (v : vnode) : Prop :=
  match v with
  | Text _ => True
  | Element _ _ children childOrder =>
      NoDup childOrder ∧ ∀ k, k ∈ childOrder ↔ is_Some (own children k)
  end.

End HostChildren.

(** ** [build] (src/dist/lite.js 573-697)

    The input of [build] is whatever a builder function returned.  An array
    is read through its first three items; an item is [Absent] when it is
    [undefined], [Invalid] when it is of the wrong type.  A component is a
    function supplied by the application: [returned] is what it returns
    when [build] calls it on its props and children.

    Five things are done by the JavaScript engine and not by code of the
    repository; [build] takes them as parameters: the match of the tag
    regular expression, [String.prototype.trim], the class name string
    ([classnames] followed by its three string rewrites), the conversion
    of a value to a string in a concatenation and what [String] prints for
    an integer beyond the safe range. *)

Module Build.
Import JsArray JsValue JsObject JsResult Vdom.

Inductive slot (A : Type) :=
| Absent
| Present (a : A)
| Invalid (v : value).
Arguments Absent {A}.
Arguments Present {A} a.
Arguments Invalid {A} v.

#[local] Set Warnings "-register-all".

Inductive element :=
| EBool (b : bool)
| ENull
| ENum (n : number)
| EStr (s : string)
| ENotVdom (v : value)
| EComponent (component : func) (props : slot (object value))
    (children : slot (list element)) (returned : element)
| ETag (tagType : slot string) (attributes : slot (object value))
    (childList : slot (list element)).

Inductive culprit :=
| CString (s : string)
| CValue (v : value)
| CElement (e : element).

(** [assert] throws [Error('@okwolo.' + message + culprits)]; the message
    and the culprits are kept apart. *)
Inductive exn :=
| AssertionError (message : string) (culprits : list culprit).

Definition result (A : Type) : Type := JsResult.result exn A.

(** What the capture groups of the tag expression hold after a match. *)
Record tag_match := {
  m_tagName : string;
  m_id : option string;
  m_className : option string;
  m_style : option string
}.

(** [slot] as a culprit: the value that was found in it. *)
Definition slot_culprit (s : slot string) : culprit :=
  match s with
  | Absent => CValue VUndefined
  | Present a => CString a
  | Invalid v => CValue v
  end.

(** [\w] *)
Definition word_char (c : Ascii.ascii) : bool :=
  let n := Ascii.N_of_ascii c in
  bool_decide (48 ≤ n ∧ n ≤ 57)%N || bool_decide (65 ≤ n ∧ n ≤ 90)%N
  || bool_decide (97 ≤ n ∧ n ≤ 122)%N || bool_decide (n = 95)%N.

Fixpoint all_key_chars (s : string) : bool :=
  match s with
  | EmptyString => true
  | String c rest =>
      (word_char c || bool_decide (Ascii.N_of_ascii c = 45)%N) && all_key_chars rest
  end.

(** [s.match(/^[\w\d-_]+$/g)] is not [null]. *)
Definition key_pattern (s : string) : bool :=
  match s with
  | EmptyString => false
  | _ => all_key_chars s
  end.

Fixpoint ends_with_semicolon (s : string) : bool :=
  match s with
  | EmptyString => false
  | String c EmptyString => bool_decide (Ascii.N_of_ascii c = 59)%N
  | String _ rest => ends_with_semicolon rest
  end.

(** [(style + ';').replace(/;;$/g, ';')] *)
Definition with_semicolon (style : string) : string :=
  if ends_with_semicolon style then style else style +:+ ";".

(** [children[key]] is truthy: [key] is an own property, whose value is a
    vdom object, or a name inherited from [Object.prototype]. *)
Definition taken (children : object vnode) (k : key) : Prop :=
  is_Some (own children k) ∨ inherited k.

#[global] Instance taken_dec (children : object vnode) (k : key) :
  Decision (taken children k).
Proof. unfold taken. apply _. Defined.

(** The key of the child at index [i]: its [key] attribute if it has one,
    else [i], as a string. *)
Definition child_key (big : Z → string) (ancestry : string) (i : nat)
    (child : vnode) : result key :=
  match child with
  | Element _ attributes _ _ =>
      if decide (is_Some (own attributes "key") ∨ inherited "key")
      then
        let k := get attributes "key" in
        match k with
        | VNum n =>
            if key_pattern (number_to_string big n)
            then Ok (number_to_string big n)
            else Throw (AssertionError
                   "view.build : invalid character in element key"
                   [CString ancestry; CValue k])
        | VStr s =>
            if key_pattern s then Ok s
            else Throw (AssertionError
                   "view.build : invalid character in element key"
                   [CString ancestry; CValue k])
        | _ => Throw (AssertionError "view.build : invalid element key type"
                        [CString ancestry; CValue k])
        end
      else Ok (pretty i)
  | Text _ => Ok (pretty i)
  end.

(** The end of the loop body: the uniqueness assertion and the two stores. *)
Definition add_child (ancestry : string) (children : object vnode)
    (childOrder : list key) (k : key) (child : vnode)
    : result (object vnode * list key) :=
  if decide (taken children k)
  then Throw (AssertionError "view.build : duplicate child key"
                [CString ancestry; CString k])
  else Ok (set children k child, childOrder ++ [k]).

(** The loop [for (i = 0; i < childList.length; ++i)], from index [i] on. *)
Fixpoint build_children (big : Z → string)
    (build_child : element → result vnode)
    (ancestry : string) (childList : list element) (i : nat)
    (children : object vnode) (childOrder : list key)
    : result (object vnode * list key) :=
  match childList with
  | [] => Ok (children, childOrder)
  | childElement :: rest =>
      match build_child childElement with
      | Throw e => Throw e
      | Ok child =>
          match child_key big ancestry i child with
          | Throw e => Throw e
          | Ok k =>
              match add_child ancestry children childOrder k child with
              | Throw e => Throw e
              | Ok (children', childOrder') =>
                  build_children big build_child ancestry rest (S i)
                    children' childOrder'
              end
          end
      end
  end.

(** The children from index [i] on resolve to the keys [ks]. *)
Definition resolves_from (big : Z → string)
    (build_child : element → result vnode)
    (ancestry : string) (i : nat) (l : list element) (ks : list key) : Prop :=
  length ks = length l ∧
  ∀ n e, l !! n = Some e →
    ∃ c k, build_child e = Ok c ∧ child_key big ancestry (i + n) c = Ok k ∧
           ks !! n = Some k.

(** The key at index [n] collides: it is taken in [children] or it is the
    key of an earlier child. *)
Definition collides (children : object vnode) (ks : list key) (n : nat) (k : key)
    : Prop :=
  ks !! n = Some k ∧ (taken children k ∨ k ∈ take n ks).

Section WithEngine.
Variable exec_tag : string → option tag_match.
Variable trim : string → string.
Variable class_list : value → option string → string.
Variable to_string : value → string.
Variable big : Z → string.

(** [style + attributes.style] *)
Definition concat_value (s : string) (v : value) : string :=
  match v with
  | VStr s' => s +:+ s'
  | _ => s +:+ to_string v
  end.

(** The id, class names and style of the tag are added to the attributes. *)
Definition shorthand_attributes (m : tag_match) (attributes : object value)
    : object value :=
  let attributes :=
    match m_id m with
    | Some id =>
        if negb (isDefined (get attributes "id"))
        then set attributes "id" (VStr (trim id)) else attributes
    | None => attributes
    end in
  let attributes :=
    if isDefined (get attributes "className") || bool_decide (is_Some (m_className m))
    then set attributes "className"
           (VStr (class_list (get attributes "className") (m_className m)))
    else attributes in
  match m_style m with
  | Some style =>
      if negb (isDefined (get attributes "style"))
      then set attributes "style" (VStr style)
      else set attributes "style"
             (VStr (concat_value (with_semicolon style) (get attributes "style")))
  | None => attributes
  end.

Fixpoint build (element : element) (ancestry : string) : result vnode :=
  match element with
  | EBool _ | ENull => Ok (Text "")
  | ENum n => Ok (Text (number_to_string big n))
  | EStr s => Ok (Text s)
  | ENotVdom _ =>
      Throw (AssertionError "view.build : vdom object is not a recognized type"
               [CString ancestry; CElement element])
  | EComponent _ props children returned =>
      match props, children with
      | Invalid v, _ =>
          Throw (AssertionError "view.build : component's props is not an object"
                   [CString ancestry; CElement element; CValue v])
      | _, Invalid v =>
          Throw (AssertionError "view.build : component's children is not an array"
                   [CString ancestry; CElement element; CValue v])
      | _, _ => build returned "root"
      end
  | ETag tagType attributes childList =>
      match tagType, attributes, childList with
      | Present tag, (Absent | Present _), (Absent | Present _) =>
          let attributes :=
            match attributes with Present a => a | _ => [] end in
          match exec_tag tag with
          | None =>
              Throw (AssertionError "view.build : tag property cannot be parsed"
                       [CString ancestry; CString tag])
          | Some m =>
              let attributes := shorthand_attributes m attributes in
              let ancestry := ancestry +:+ " -> " +:+ tag in
              let looped :=
                match childList with
                | Present l =>
                    build_children big (λ e, build e ancestry) ancestry l 0 [] []
                | _ => build_children big (λ e, build e ancestry) ancestry [] 0 [] []
                end in
              match looped with
              | Throw e => Throw e
              | Ok (children, childOrder) =>
                  Ok (Element (m_tagName m) attributes children childOrder)
              end
          end
      | (Absent | Invalid _), _, _ =>
          Throw (AssertionError "view.build : tag property is not a string"
                   [CString ancestry; CElement element; slot_culprit tagType])
      | _, Invalid v, _ =>
          Throw (AssertionError "view.build : attributes is not an object"
                   [CString ancestry; CElement element; CValue v])
      | _, _, Invalid v =>
          Throw (AssertionError "view.build : children of vdom object is not an array"
                   [CString ancestry; CElement element; CValue v])
      end
  end.

(** Every child of [childList] builds under [ancestry], and the key of the
    child at index [n], explicit or the index, comes out as [ks !! n]. *)
Definition resolves (ancestry : string) (childList : list element)
    (ks : list key) : Prop :=
  length ks = length childList ∧
  ∀ n e, childList !! n = Some e →
    ∃ c k, build e ancestry = Ok c ∧ child_key big ancestry n c = Ok k ∧
           ks !! n = Some k.


End WithEngine.

End Build.

(** ** Objects in memory

    The state of an application may be an object or an array, which the
    application can reach and change after it has handed it over.  Objects
    and arrays live in a heap, a list of cells; a reference is an index
    into it and a new cell goes at the end. *)

Module JsHeap.
Import JsValue JsObject.

Inductive cell :=
| Obj (props : object value)
| Arr (items : list value).

Abbreviation heap := (list cell).

#[local] Set Warnings "-register-all".

(** What a JSON text can say. *)
Inductive json :=
| JNull
| JBool (b : bool)
| JNum (z : Z)
| JStr (s : string)
| JArr (items : list json)
| JObj (props : list (string * json)).

Fixpoint json_depth (j : json) : nat :=
  match j with
  | JArr items => S (foldr (λ i d, Nat.max (json_depth i) d) O items)
  | JObj props => S (foldr (λ kj d, Nat.max (json_depth kj.2) d) O props)
  | _ => O
  end.

(** [denotes R h v j]: in the heap [h] the value [v] is the JSON-shaped
    value [j]: it holds no function and no [undefined], its numbers are
    finite, and unfolding its references gives the finite tree [j].  All its
    cells are at references that satisfy [R]. *)
Inductive denotes (R : loc → Prop) (h : heap) : value → json → Prop :=
| denotes_null : denotes R h VNull JNull
| denotes_bool b : denotes R h (VBool b) (JBool b)
| denotes_num z : denotes R h (VNum (Int z)) (JNum z)
| denotes_str s : denotes R h (VStr s) (JStr s)
| denotes_arr l items js :
    R l → h !! l = Some (Arr items) →
    Forall2 (denotes R h) items js →
    denotes R h (VRef l) (JArr js)
| denotes_obj l props ps :
    R l → h !! l = Some (Obj props) →
    Forall2 (λ kv kj, kv.1 = kj.1 ∧ denotes R h kv.2 kj.2) props ps →
    denotes R h (VRef l) (JObj ps).

(** The cells of the heap [h]. *)
Definition old (h : heap) : loc → Prop := λ l, (l < length h)%nat.

(** The cells [h'] has and its prefix [h] has not. *)
Definition fresh (h h' : heap) : loc → Prop :=
  λ l, (length h ≤ l < length h')%nat.

End JsHeap.

(** ** The state module (src/dist/lite.js 1249-1307) and [deepCopy]
    (src/dist/lite.js 121-127, src/src/utils.js 65-71)

    [JSON.stringify] and [JSON.parse] belong to the engine.  Their
    composition is modelled as one copy, [json_copy]: a value with no JSON
    text ([undefined], a function) gives [None]; inside an array it is
    written [null], inside an object its property is left out; [NaN] and
    the infinities are written [null]; an object that is being serialised
    already is a circular structure and throws.  The copy has its
    properties in the order of the text, the order of [Object.keys].  A
    [toJSON] method would be called by [JSON.stringify]: that is code of
    the application, and the model stops there ([None], as when the fuel
    runs out or a reference points nowhere). *)

Module State.
Import JsValue JsObject JsResult JsHeap.

Inductive exn :=
| AssertionError (message : string) (culprits : list value)
| SyntaxError (message : string)
| TypeError (message : string)
| Raised (v : value).

Definition result (A : Type) : Type := JsResult.result exn A.

Definition copier : Type :=
  heap → value → option (result (option value * heap)).

Fixpoint copy_items (copy : copier) (h : heap) (items : list value)
    : option (result (list value * heap)) :=
  match items with
  | [] => Some (Ok ([], h))
  | v :: rest =>
      match copy h v with
      | None => None
      | Some (Throw e) => Some (Throw e)
      | Some (Ok (v', h1)) =>
          match copy_items copy h1 rest with
          | None => None
          | Some (Throw e) => Some (Throw e)
          | Some (Ok (rest', h2)) => Some (Ok (default VNull v' :: rest', h2))
          end
      end
  end.

Fixpoint copy_props (copy : copier) (h : heap) (props : object value)
    : option (result (object value * heap)) :=
  match props with
  | [] => Some (Ok ([], h))
  | (k, v) :: rest =>
      match copy h v with
      | None => None
      | Some (Throw e) => Some (Throw e)
      | Some (Ok (v', h1)) =>
          match copy_props copy h1 rest with
          | None => None
          | Some (Throw e) => Some (Throw e)
          | Some (Ok (rest', h2)) =>
              Some (Ok (match v' with Some c => (k, c) :: rest' | None => rest' end, h2))
          end
      end
  end.

(** [JSON.parse(JSON.stringify(v))] for a value met while [stack] is being
    serialised. *)
Fixpoint json_copy (fuel : nat) (stack : list loc) (h : heap) (v : value)
    : option (result (option value * heap)) :=
  match fuel with
  | O => None
  | S fuel' =>
      match v with
      | VUndefined | VFun _ => Some (Ok (None, h))
      | VNull | VBool _ | VStr _ | VNum (Int _) => Some (Ok (Some v, h))
      | VNum _ => Some (Ok (Some VNull, h))
      | VObjectPrototype => Some (Ok (Some (VRef (length h)), h ++ [Obj []]))
      | VRef l =>
          match h !! l with
          | None => None
          | Some (Arr items) =>
              if decide (l ∈ stack)
              then Some (Throw (TypeError "Converting circular structure to JSON"))
              else
                match copy_items (json_copy fuel' (l :: stack)) h items with
                | None => None
                | Some (Throw e) => Some (Throw e)
                | Some (Ok (items', h')) =>
                    Some (Ok (Some (VRef (length h')), h' ++ [Arr items']))
                end
          | Some (Obj props) =>
              match own props "toJSON" with
              | Some (VFun _) => None
              | _ =>
                  if decide (l ∈ stack)
                  then Some (Throw (TypeError "Converting circular structure to JSON"))
                  else
                    match copy_props (json_copy fuel' (l :: stack)) h props with
                    | None => None
                    | Some (Throw e) => Some (Throw e)
                    | Some (Ok (props', h')) =>
                        Some (Ok (Some (VRef (length h')), h' ++ [Obj props']))
                    end
              end
          end
      end
  end.

(** What one copy step owes: from any heap that extends [h0] it returns a
    value that denotes [j] in cells of its own. *)
Definition copies (copy : copier) (h0 : heap) (v : value) (j : json) : Prop :=
  ∀ h, h0 `prefix_of` h →
    ∃ r h', copy h v = Some (Ok (Some r, h')) ∧ h `prefix_of` h' ∧
            denotes (fresh h h') h' r j.

(** [deepCopy(obj)].  [JSON.parse(undefined)] is a syntax error; the guard
    on [undefined] is there for that. *)
Definition deepCopy (fuel : nat) (h : heap) (obj : value)
    : option (result (value * heap)) :=
  if negb (isDefined obj) then Some (Ok (VUndefined, h))
  else
    match json_copy fuel [] h obj with
    | None => None
    | Some (Throw e) => Some (Throw e)
    | Some (Ok (None, _)) => Some (Throw (SyntaxError "undefined is not valid JSON"))
    | Some (Ok (Some copy, h')) => Some (Ok (copy, h'))
    end.

(** The variables of the module: [initial], the object made when the module
    is set up, and [state]. *)
Record store := {
  initial : loc;
  state : value
}.

(** [var initial = {}; var state = initial;] *)
Definition create (h : heap) : store * heap :=
  ({| initial := length h; state := VRef (length h) |}, h ++ [Obj []]).

(** [emit({state: newState})] in the bundle.  The view module listens
    first and asserts that the state is defined (lite.js 474-478); with no
    target and no builder set its update does nothing more.  The state
    module listens next and stores the state (lite.js 1272-1274). *)
Definition emit_state (st : store) (newState : value) : result store :=
  if isDefined newState
  then Ok {| initial := initial st; state := newState |}
  else Throw (AssertionError "view.emit.state : new state is not defined" [newState]).

Section WithApplication.
(** A call of a function of the application on one argument: it returns or
    throws, and may leave the heap changed. *)
Variable call : func → value → heap → option (result (value * heap)).

(** [setState(replacement)] with the handler the module installs itself
    (lite.js 1286-1290), which emits the new state.  A function is called
    on a copy of the current state and its result is the new state. *)
Definition setState (fuel : nat) (h : heap) (st : store) (replacement : value)
    : option (result (store * heap)) :=
  match replacement with
  | VFun f =>
      match deepCopy fuel h (state st) with
      | None => None
      | Some (Throw e) => Some (Throw e)
      | Some (Ok (copy, h1)) =>
          match call f copy h1 with
          | None => None
          | Some (Throw e) => Some (Throw e)
          | Some (Ok (newState, h2)) =>
              match emit_state st newState with
              | Throw e => Some (Throw e)
              | Ok st' => Some (Ok (st', h2))
              end
          end
      end
  | _ =>
      match emit_state st replacement with
      | Throw e => Some (Throw e)
      | Ok st' => Some (Ok (st', h))
      end
  end.

End WithApplication.

(** [getState()]: the assertion [state !== initial], then the copy. *)
Definition getState (fuel : nat) (h : heap) (st : store)
    : option (result (value * heap)) :=
  if strict_eq (state st) (VRef (initial st))
  then Some (Throw (AssertionError
         "state.getState : cannot get state before it has been set" []))
  else deepCopy fuel h (state st).

End State.

(** ** The history layer

    The module under test in src/test/modules/state.handler.history.js
    ([src/modules/state.handler.history], with [state] and [state.handler])
    is not among the sources.  Its behaviour is taken from the words of the
    specification (sections 3, 4.3 and 4.4). *)

Module History.

Section WithState.
Variable State : Type.

(** Modelled from the spec: the dispatch core with the history layer, whose
    code is missing.  [current] is [None] while the state is the unset
    marker; [past] holds the most recent entry first. *)
Record app := {
  current : option State;
  past : list State;
  future : list State
}.

(** Modelled from the spec: a new application, uninitialized, with empty
    stacks. *)
Definition create : app :=
  {| current := None; past := []; future := [] |}.

(** Modelled from the spec: "push the pre-transition state onto past
    (evicting oldest if over capacity)"; "past capacity is fixed (default
    20); exceeding it evicts the oldest entry (FIFO)".  Where the boundary
    lies is fixed by the example of the specification, "capacity 20;
    dispatch 21 state changes from an initial state null; issuing 21 undo()
    calls reaches state null", and by the test "should store at least 20
    past states" (src/test/modules/state.handler.history.js 177-194): the
    past holds the entry just pushed and [capacity] entries before it, and
    the oldest goes when there are more. *)
Definition push_past (capacity : nat) (s : State) (past : list State)
    : list State :=
  take (S capacity) (s :: past).

(** Modelled from the spec: a dispatch that is not [UNDO], [REDO] or the
    reset type and whose chain resolves to [next].  Rejected while
    uninitialized; a silent type leaves the stacks alone; any other type
    pushes the pre-transition state and clears [future]. *)
Definition commit (capacity : nat) (silent : bool) (next : State) (a : app)
    : option app :=
  match current a with
  | None => None
  | Some previous =>
      Some (if silent
            then {| current := Some next; past := past a; future := future a |}
            else {| current := Some next;
                    past := push_past capacity previous (past a);
                    future := [] |})
  end.

(** Modelled from the spec: [setState] of a literal value.  The first call
    takes the core from uninitialized to ready, and the unset marker is no
    state to remember; while ready the call is the dispatch of the override
    type, which replaces the entire state. *)
Definition setState (capacity : nat) (v : State) (a : app) : app :=
  match commit capacity false v a with
  | Some a' => a'
  | None => {| current := Some v; past := past a; future := future a |}
  end.

(** Modelled from the spec: "UNDO: if past is empty, no-op.  Otherwise: pop
    the most recent entry from past, push the current state onto future,
    set current state to the popped entry." *)
Definition undo (a : app) : app :=
  match current a, past a with
  | Some now, previous :: older =>
      {| current := Some previous; past := older; future := now :: future a |}
  | _, _ => a
  end.

(** Modelled from the spec: "REDO: symmetric, using future/past." *)
Definition redo (a : app) : app :=
  match current a, future a with
  | Some now, next :: later =>
      {| current := Some next; past := now :: past a; future := later |}
  | _, _ => a
  end.

(** Modelled from the spec: the reset type "empties past and future without
    altering current state". *)
Definition reset (a : app) : app :=
  {| current := current a; past := []; future := [] |}.

End WithState.

Arguments current {State} a.
Arguments past {State} a.
Arguments future {State} a.
Arguments create {State}.
Arguments setState {State} capacity v a.
Arguments undo {State} a.
Arguments redo {State} a.
Arguments reset {State} a.

(** Modelled from the spec: "one numeric option (past capacity, default
    20)". *)
Definition default_capacity : nat := 20.

(** Modelled from the spec: the state changes [states] dispatched one after
    the other, each by [setState]. *)
Definition dispatch {State : Type} (capacity : nat) (states : list State)
    (a : app State) : app State :=
  fold_left (λ a s, setState capacity s a) states a.

(** The scenario of the test "should store at least 20 past states":
    [setState(null)], then [setState(i)] for [i = 0 .. n]. *)
Definition counted (capacity n : nat) : app JsValue.value :=
  dispatch capacity ((λ i, JsValue.VNum (JsValue.Int (Z.of_nat i))) <$> seq 0 (S n))
    (setState capacity JsValue.VNull create).

End History.

(** ** [makeQueue] (src/src/utils.js 85-118, src/dist/lite.js 159-193)

    The items of the queue are functions of the application.  A function
    is named by a number; what it does to the queue while it runs is a
    sequence of calls of [add] and [done], given by [body]; whatever it does
    later, from a callback, is a call from outside like any other.  A
    function may add any function, itself included, so the calls need not
    come to an end.  Next to the array [queue] the state keeps a record of
    the calls made: [added] has the argument of every call of [add],
    [started] every function [run] has called, [finished] every function
    [done] has shifted out, each in order. *)

Module Queue.

Inductive call :=
| Add (f : nat)
| Done.

Record state := {
  queue : list nat;
  added : list nat;
  started : list nat;
  finished : list nat
}.

(** [makeQueue()] *)
Definition create : state :=
  {| queue := []; added := []; started := []; finished := [] |}.

(** [queue.push(func)] *)
Definition push (f : nat) (st : state) : state :=
  {| queue := queue st ++ [f]; added := added st ++ [f];
     started := started st; finished := finished st |}.

(** [queue.shift()]: on an empty array it does nothing. *)
Definition shift (st : state) : state :=
  {| queue := tail (queue st); added := added st; started := started st;
     finished := finished st ++ take 1 (queue st) |}.

Section WithFunctions.
Variable body : nat → list call.

(** [run()]: [queue[0]] is called if there is one, and the calls it makes
    come before the calls [rest] that are left. *)
Definition run (rest : list call) (st : state) : list call * state :=
  match queue st with
  | f :: _ =>
      (body f ++ rest,
       {| queue := queue st; added := added st;
          started := started st ++ [f]; finished := finished st |})
  | [] => (rest, st)
  end.

(** The first of the calls that are left is made. *)
Definition step (calls : list call) (st : state) : list call * state :=
  match calls with
  | [] => ([], st)
  | Add f :: rest =>
      let st' := push f st in
      if decide (length (queue st') = 1%nat) then run rest st' else (rest, st')
  | Done :: rest => run rest (shift st)
  end.

(** [fuel] calls are made, or fewer when none is left before: the result is
    the calls still to make and the state reached. *)
Fixpoint exec (fuel : nat) (calls : list call) (st : state) : list call * state :=
  match fuel with
  | O => (calls, st)
  | S fuel' => let '(calls', st') := step calls st in exec fuel' calls' st'
  end.

(** The functions the calls add, in order. *)
Definition adds (calls : list call) : list nat :=
  omap (λ c, match c with Add f => Some f | Done => None end) calls.

(** The number of calls of [done] among the calls. *)
Definition is_done (c : call) : bool :=
  match c with Done => true | Add _ => false end.

Definition count_done (calls : list call) : nat :=
  length (filter is_done calls).

(** The functions a call adds, and those they add, nest at most [depth]
    deep: none adds itself again, directly or through others. *)
Fixpoint nests (depth : nat) (c : call) : bool :=
  match c with
  | Done => true
  | Add f =>
      match depth with
      | O => false
      | S depth' => forallb (nests depth') (body f)
      end
  end.

(** The number of calls a call stands for: itself and, for [add], those the
    function added makes when it runs, down to [depth]. *)
Fixpoint weight (depth : nat) (c : call) : nat :=
  match c with
  | Done => 1
  | Add f =>
      match depth with
      | O => 1
      | S depth' => S (foldr (λ c n, weight depth' c + n) O (body f))
      end
  end%nat.

Definition total (depth : nat) (calls : list call) : nat :=
  foldr (λ c n, weight depth c + n)%nat O calls.

(** What every call keeps true: the functions added are those shifted out
    followed by those in the queue, and the functions called are those
    shifted out and the head of the queue. *)
Definition in_order (st : state) : Prop :=
  added st = finished st ++ queue st ∧
  started st = finished st ++ take 1 (queue st).

(** The calls of [add] made so far and those still to make are the ones of
    [calls] and of the functions called so far. *)
Definition accounted (calls left : list call) (st : state) : Prop :=
  added st ++ adds left ≡ₚ adds calls ++ flat_map (λ f, adds (body f)) (started st).

(** The calls still to come: those left and those of the functions that
    wait behind the head of the queue. *)
Definition pending (depth : nat) (left : list call) (st : state) : nat :=
  (total depth left
   + foldr (λ f n, total depth (body f) + n) O (tail (queue st)))%nat.

(** The calls left and the functions in the queue nest within [depth]. *)
Definition bounded (depth : nat) (left : list call) (st : state) : Prop :=
  forallb (nests depth) left = true ∧
  forallb (λ f, nests depth (Add f)) (queue st) = true.

(** One call of [done] is to come while the queue holds a function, none
    while it is empty. *)
Definition settled (left : list call) (st : state) : Prop :=
  count_done left = (if queue st is [] then 0 else 1)%nat.

End WithFunctions.

End Queue.

(** ** [cache] (src/src/utils.js 124-147)

    The cache is the object [map] and the array [order] of the closure.  Keys
    are property names other than [__proto__], which no object here owns. *)

Module Cache.
Import JsArray JsValue JsObject.

Record cache := {
  size : Z;
  map : object value;
  order : list key
}.

(** [cache(size)] *)
Definition create (size : Z) : cache :=
  {| size := size; map := []; order := [] |}.

(** The default of the parameter [size]. *)
Definition default_size : Z := 500.

(** [set(key, value)]: the value is stored, the key goes last in the delete
    order, and once the order is longer than [size] its first key is shifted
    out and set to [undefined] in the map. *)
Definition set (key : key) (value : value) (c : cache) : cache :=
  let map1 := JsObject.set (map c) key value in
  let order1 := order c ++ [key] in
  if decide (Z.of_nat (length order1) > size c)
  then
    match order1 with
    | oldest :: rest =>
        {| size := size c; map := JsObject.set map1 oldest VUndefined; order := rest |}
    | [] =>
        {| size := size c; map := JsObject.set map1 "undefined" VUndefined; order := [] |}
    end
  else {| size := size c; map := map1; order := order1 |}.

(** [get(key)]: [map[key]] *)
Definition get (key : key) (c : cache) : value :=
  JsObject.get (map c) key.

(** A new cache after the calls [set(k, v)] for each entry in turn. *)
Definition fill (size : Z) (entries : list (key * value)) : cache :=
  fold_left (λ c kv, set kv.1 kv.2 c) entries (create size).

End Cache.

(** ** [makeBus] of the bundle (src/dist/lite.js 197-239)

    A bus is the two objects of the closure: [handlers], which holds an
    array of functions under each event key, and [names].  The handlers are
    functions of the application and of the modules; a call of one may
    reach the bus again, so a call takes the bus and the rest of the
    application, of some type [A], to what they are when it returns.  The
    object of an event is not changed while it is handled. *)

Module Bus.
Import JsArray JsValue JsObject JsResult.

(** An argument: a plain object, given by its properties, or a value of
    another kind. *)
Inductive event :=
| EventObject (props : object value)
| EventOther (v : value).

Inductive exn :=
| AssertionError (message : string) (culprits : list event)
| TypeError (message : string)
| Raised (v : value).

Definition result (A : Type) : Type := JsResult.result exn A.

Record bus := {
  handlers : object (list func);
  names : object value
}.

(** [makeBus()] *)
Definition create : bus := {| handlers := []; names := [] |}.

(** [isObject(value)] on a plain object: [value.constructor === Object]
    fails when the object has a [constructor] of its own. *)
Definition isObject (props : object value) : bool :=
  bool_decide (get props "constructor" = object_prototype_get "constructor").

(** [on(type, handler)].  [handlers[type]] finds an array of the bus or,
    for a name every object inherits, something that has no [push]. *)
Definition on (type handler : value) (b : bus) : result bus :=
  match type with
  | VStr t =>
      match handler with
      | VFun h =>
          match own (handlers b) t with
          | Some hs =>
              Ok {| handlers := set (handlers b) t (hs ++ [h]); names := names b |}
          | None =>
              if decide (inherited t)
              then Throw (TypeError "handlers[type].push is not a function")
              else Ok {| handlers := set (handlers b) t [h]; names := names b |}
          end
      | _ => Throw (AssertionError "utils.bus : handler is not a function"
                      [EventOther handler])
      end
  | _ => Throw (AssertionError "utils.bus : handler type is not a string"
                  [EventOther type])
  end.

(** The calls [on(type, handler)] for each pair in turn, up to the first one
    that throws. *)
Fixpoint attach (regs : list (string * func)) (b : bus) : result bus :=
  match regs with
  | [] => Ok b
  | (type, handler) :: rest =>
      match on (VStr type) (VFun handler) b with
      | Ok b' => attach rest b'
      | Throw e => Throw e
      end
  end.

(** What an event delivers on a bus: for each of its keys, in order, its
    value under the key to each handler attached to the key, in the order
    they were attached. *)
Definition deliveries (b : bus) (props : object value) (ks : list string)
    : list (func * value) :=
  flat_map (λ key, (λ h, (h, get props key)) <$> default [] (own (handlers b) key)) ks.

Section WithHandlers.
Variable A : Type.
(** A call of a handler on one argument. *)
Variable call : func → value → bus * A → option (result (bus * A)).
(** The [length] of the function [Object.prototype[name]]. *)
Variable builtin_length : string → nat.

(** The loop [for (j = 0; j < handlers[key].length; ++j)], from [j] on.
    The array is read anew at every step.  [fuel] bounds the number of
    steps. *)
Fixpoint call_handlers (fuel : nat) (key : string) (arg : value) (j : nat)
    (w : bus * A) : option (result (bus * A)) :=
  match fuel with
  | O => None
  | S fuel' =>
      match own (handlers w.1) key with
      | Some hs =>
          match hs !! j with
          | Some h =>
              match call h arg w with
              | Some (Ok w') => call_handlers fuel' key arg (S j) w'
              | other => other
              end
          | None => Some (Ok w)
          end
      | None =>
          if decide (key = "__proto__") then Some (Ok w)
          else if decide (inherited key)
          then if decide (j < builtin_length key)%nat
               then Some (Throw (TypeError "handlers[key][j] is not a function"))
               else Some (Ok w)
          else Some (Throw (TypeError "Cannot read property length of undefined"))
      end
  end.

(** The loop over [handlerKeys]. *)
Fixpoint handle_keys (fuel : nat) (handlerKeys : list string)
    (props : object value) (w : bus * A) : option (result (bus * A)) :=
  match handlerKeys with
  | [] => Some (Ok w)
  | key :: rest =>
      if decide (is_Some (own (handlers w.1) key) ∨ inherited key)
      then
        match call_handlers fuel key (get props key) 0 w with
        | Some (Ok w') => handle_keys fuel rest props w'
        | other => other
        end
      else handle_keys fuel rest props w
  end.

(** [handle(event)].  [Object.prototype] passes [isObject] too; it has no
    keys and no name. *)
Definition handle (fuel : nat) (e : event) (w : bus * A)
    : option (result (bus * A)) :=
  match e with
  | EventOther VObjectPrototype => Some (Ok w)
  | EventOther _ =>
      Some (Throw (AssertionError "utils.bus : event is not an object" [e]))
  | EventObject props =>
      if negb (isObject props)
      then Some (Throw (AssertionError "utils.bus : event is not an object" [e]))
      else
        match get props "name" with
        | VUndefined => handle_keys fuel (keys props) props w
        | VStr name =>
            if isDefined (get (names w.1) name) then Some (Ok w)
            else
              handle_keys fuel (keys props) props
                ({| handlers := handlers w.1;
                    names := set (names w.1) name (VBool true) |}, w.2)
        | other =>
            Some (Throw (AssertionError "utils.bus : event name is not a string"
                           [EventOther other]))
        end
  end.

End WithHandlers.

End Bus.

(** ** [classnames] (src/src/utils.js 151-167, src/dist/lite.js 553-569)

    An argument is a string, an array of arguments, a plain object whose
    keys are the class names and whose values say whether to include them,
    or a value of another kind: [undefined], [null], a boolean, a number, a
    function, [Object.prototype], or ([VRef]) an object that is neither an
    array nor a plain object. *)

Module Classnames.
Import JsArray JsValue JsObject.

#[local] Set Warnings "-register-all".

Inductive arg :=
| AStr (s : string)
| AArr (items : list arg)
| AObj (props : object arg)
| AOther (v : value).

(** [!!v] *)
Definition truthy_value (v : value) : bool :=
  match v with
  | VUndefined | VNull => false
  | VBool b => b
  | VNum NaN => false
  | VNum (Int z) => negb (bool_decide (z = 0))
  | VNum (Infinity _) => true
  | VStr s => negb (bool_decide (s = ""))
  | VFun _ | VRef _ | VObjectPrototype => true
  end.

(** [!!a] *)
Definition truthy (a : arg) : bool :=
  match a with
  | AStr s => negb (bool_decide (s = ""))
  | AArr _ | AObj _ => true
  | AOther v => truthy_value v
  end.

(** [isObject(arg)] on a plain object: its [constructor] is [Object] unless
    it has a [constructor] of its own. *)
Definition isObject (props : object arg) : bool :=
  match own props "constructor" with
  | None => true
  | Some (AOther v) => bool_decide (v = object_prototype_get "constructor")
  | Some _ => false
  end.

(** [Object.keys(arg).map((key) => arg[key] && key)] *)
Definition truthy_keys (props : object arg) : list arg :=
  (λ key, match own props key with
          | Some v => if truthy v then AStr key else v
          | None => AOther VUndefined
          end) <$> keys props.

(** [pieces.filter(Boolean).join(' ')] on what the [map] returns: [None] is
    [undefined]. *)
Definition join_truthy (pieces : list (option string)) : string :=
  String.concat " "
    (omap (λ p, match p with
                | Some s => if decide (s = "") then None else Some s
                | None => None
                end) pieces).

(** The callback of [args.map]: what one argument turns into. *)
Definition piece (classnames : list arg → option string) (a : arg)
    : option (option string) :=
  match a with
  | AStr s | AOther (VStr s) => Some (Some s)
  | AArr items => Some <$> classnames items
  | AObj props =>
      if isObject props
      then Some <$> classnames [AArr (truthy_keys props)]
      else Some None
  | AOther VObjectPrototype => Some <$> classnames [AArr []]
  | AOther _ => Some None
  end.

(** [classnames(...args)].  [fuel] bounds the depth of the calls. *)
Fixpoint classnames (fuel : nat) (args : list arg) : option string :=
  match fuel with
  | O => None
  | S fuel' => join_truthy <$> mapM (piece (classnames fuel')) args
  end.

(** [key] is a class name of the object: it is not empty and its value is
    truthy. *)
Definition included (props : object arg) (key : string) : bool :=
  negb (bool_decide (key = ""))
  && match own props key with Some v => truthy v | None => false end.

(** The class names an argument stands for, in order. *)
Fixpoint names (a : arg) : list string :=
  match a with
  | AStr s | AOther (VStr s) => if decide (s = "") then [] else [s]
  | AArr items => flat_map names items
  | AObj props =>
      if isObject props
      then filter (λ key, included props key) (keys props)
      else []
  | AOther _ => []
  end.

(** How deep the calls go on an argument. *)
Fixpoint arg_depth (a : arg) : nat :=
  match a with
  | AArr items => S (foldr (λ i d, Nat.max (arg_depth i) d) O items)
  | AObj _ | AOther VObjectPrototype => 2
  | _ => O
  end.

Definition args_depth (args : list arg) : nat :=
  foldr (λ i d, Nat.max (arg_depth i) d) O args.

(** Two joined pieces, with a space between them when neither is empty. *)
Definition glue (x y : string) : string :=
  if decide (x = "") then y else if decide (y = "") then x else x +:+ " " +:+ y.

End Classnames.

(** ** The view module (src/dist/lite.js 396-523)

    The module keeps the pieces of the rendering pipeline in variables and
    renders when an [update] event arrives.  The functions the application
    supplies are called through [apply], which answers from the calls made
    so far; they send no event of their own while they run.  Every call is
    recorded in [calls], with what it returned or threw. *)

Module View.
Import JsValue JsResult.

Inductive role := RBuilder | RPrebuild | RBuild | RPostbuild | RDraw | RUpdate.

Record call := {
  role_of : role;
  callee : func;
  arguments : list value;
  returned : result value value
}.

Inductive exn :=
| AssertionError (message : string) (culprit : value)
| NotAFunction (r : role)
| Raised (v : value).

Record vars := {
  target : value;
  builder : option func;
  build : option func;
  prebuild : option func;
  postbuild : option func;
  draw : option func;
  update : option func;
  view : value;
  state : value;
  hasDrawn : bool;
  canDraw : bool;
  calls : list call
}.

Definition initial : vars :=
  {| target := VUndefined; builder := None; build := None; prebuild := None;
     postbuild := None; draw := None; update := None; view := VUndefined;
     state := VUndefined; hasDrawn := false; canDraw := false; calls := [] |}.

Definition set_target (v : value) (s : vars) : vars :=
  {| target := v; builder := builder s; build := build s; prebuild := prebuild s;
     postbuild := postbuild s; draw := draw s; update := update s; view := view s;
     state := state s; hasDrawn := hasDrawn s; canDraw := canDraw s; calls := calls s |}.
Definition set_builder (f : func) (s : vars) : vars :=
  {| target := target s; builder := Some f; build := build s; prebuild := prebuild s;
     postbuild := postbuild s; draw := draw s; update := update s; view := view s;
     state := state s; hasDrawn := hasDrawn s; canDraw := canDraw s; calls := calls s |}.
Definition set_build (f : func) (s : vars) : vars :=
  {| target := target s; builder := builder s; build := Some f; prebuild := prebuild s;
     postbuild := postbuild s; draw := draw s; update := update s; view := view s;
     state := state s; hasDrawn := hasDrawn s; canDraw := canDraw s; calls := calls s |}.
Definition set_prebuild (f : func) (s : vars) : vars :=
  {| target := target s; builder := builder s; build := build s; prebuild := Some f;
     postbuild := postbuild s; draw := draw s; update := update s; view := view s;
     state := state s; hasDrawn := hasDrawn s; canDraw := canDraw s; calls := calls s |}.
Definition set_postbuild (f : func) (s : vars) : vars :=
  {| target := target s; builder := builder s; build := build s; prebuild := prebuild s;
     postbuild := Some f; draw := draw s; update := update s; view := view s;
     state := state s; hasDrawn := hasDrawn s; canDraw := canDraw s; calls := calls s |}.
Definition set_draw (f : func) (s : vars) : vars :=
  {| target := target s; builder := builder s; build := build s; prebuild := prebuild s;
     postbuild := postbuild s; draw := Some f; update := update s; view := view s;
     state := state s; hasDrawn := hasDrawn s; canDraw := canDraw s; calls := calls s |}.
Definition set_update (f : func) (s : vars) : vars :=
  {| target := target s; builder := builder s; build := build s; prebuild := prebuild s;
     postbuild := postbuild s; draw := draw s; update := Some f; view := view s;
     state := state s; hasDrawn := hasDrawn s; canDraw := canDraw s; calls := calls s |}.
Definition set_view (v : value) (s : vars) : vars :=
  {| target := target s; builder := builder s; build := build s; prebuild := prebuild s;
     postbuild := postbuild s; draw := draw s; update := update s; view := v;
     state := state s; hasDrawn := hasDrawn s; canDraw := canDraw s; calls := calls s |}.
Definition set_state (v : value) (s : vars) : vars :=
  {| target := target s; builder := builder s; build := build s; prebuild := prebuild s;
     postbuild := postbuild s; draw := draw s; update := update s; view := view s;
     state := v; hasDrawn := hasDrawn s; canDraw := canDraw s; calls := calls s |}.
Definition set_hasDrawn (b : bool) (s : vars) : vars :=
  {| target := target s; builder := builder s; build := build s; prebuild := prebuild s;
     postbuild := postbuild s; draw := draw s; update := update s; view := view s;
     state := state s; hasDrawn := b; canDraw := canDraw s; calls := calls s |}.
Definition set_canDraw (b : bool) (s : vars) : vars :=
  {| target := target s; builder := builder s; build := build s; prebuild := prebuild s;
     postbuild := postbuild s; draw := draw s; update := update s; view := view s;
     state := state s; hasDrawn := hasDrawn s; canDraw := b; calls := calls s |}.
Definition record (c : call) (s : vars) : vars :=
  {| target := target s; builder := builder s; build := build s; prebuild := prebuild s;
     postbuild := postbuild s; draw := draw s; update := update s; view := view s;
     state := state s; hasDrawn := hasDrawn s; canDraw := canDraw s;
     calls := calls s ++ [c] |}.

(** A piece of the module's code: it changes the variables and returns or
    throws. *)
Definition M (A : Type) : Type := vars → vars * result exn A.

Definition ret {A : Type} (a : A) : M A := λ s, (s, Ok a).

Definition bind {A B : Type} (m : M A) (k : A → M B) : M B := λ s,
  match m s with
  | (s', Ok a) => k a s'
  | (s', Throw e) => (s', Throw e)
  end.

Definition read : M vars := λ s, (s, Ok s).

Definition modify (f : vars → vars) : M unit := λ s, (f s, Ok tt).

Definition throw {A : Type} (e : exn) : M A := λ s, (s, Throw e).

Declare Scope view_scope.
Delimit Scope view_scope with view.
Notation "'let*' x ':=' m 'in' k" := (bind m (λ x, k))
  (at level 10, x name, m at level 100, k at level 200) : view_scope.
Notation "m ';;' k" := (bind m (λ _, k))
  (at level 100, k at level 200, right associativity) : view_scope.
Local Open Scope view_scope.

(** [assert(isFunction(value), message, value)] *)
Definition assert_function (message : string) (v : value) : M func :=
  match v with
  | VFun f => ret f
  | _ => throw (AssertionError message v)
  end.

(** [!!force] *)
Definition truthy (v : value) : bool := Classnames.truthy_value v.

Section WithApplication.
Variable apply : list call → func → list value → result value value.

(** [f(...args)] for one of the supplied functions. *)
Definition invoke (r : role) (f : option func) (args : list value) : M value :=
  match f with
  | None => throw (NotAFunction r)
  | Some f => λ s,
      let out := apply (calls s) f args in
      let s' := record {| role_of := r; callee := f; arguments := args;
                          returned := out |} s in
      match out with
      | Ok v => (s', Ok v)
      | Throw e => (s', Throw (Raised e))
      end
  end.

(** [create(state)] *)
Definition create (state : value) : M value :=
  let* s := read in
  let* temp := invoke RBuilder (builder s) [state] in
  let* s := read in
  let* temp :=
    match prebuild s with
    | Some _ => invoke RPrebuild (prebuild s) [temp]
    | None => ret temp
    end in
  let* s := read in
  let* temp := invoke RBuild (build s) [temp] in
  let* s := read in
  match postbuild s with
  | Some _ => invoke RPostbuild (postbuild s) [temp]
  | None => ret temp
  end.

(** The listener of [update] on the [emit] bus. *)
Definition on_update (force : value) : M unit :=
  let* s := read in
  let* ready :=
    if canDraw s then ret true
    else if isDefined (target s) && bool_decide (is_Some (builder s))
            && isDefined (state s) && bool_decide (is_Some (build s))
         then modify (set_canDraw true);; ret true
         else ret false in
  if ready : bool then
    let* s := read in
    if negb (truthy force) && hasDrawn s then
      let* temp := create (state s) in
      let* s' := read in
      let* v := invoke RUpdate (update s) [target s; temp; view s'] in
      modify (set_view v)
    else
      let* temp := create (state s) in
      let* v := invoke RDraw (draw s) [target s; temp] in
      modify (set_view v);;
      modify (set_hasDrawn true)
  else ret tt.

(** [emit({update: force})] *)
Definition emit_update (force : bool) : M unit := on_update (VBool force).

Definition use_target (_target : value) : M unit :=
  modify (set_target _target);;
  emit_update true.

Definition use_builder (_builder : value) : M unit :=
  let* f := assert_function "view.use.builder : builder is not a function" _builder in
  modify (set_builder f);;
  emit_update false.

Definition use_draw (_draw : value) : M unit :=
  let* f := assert_function "view.use.draw : new draw is not a function" _draw in
  modify (set_draw f);;
  emit_update true.

Definition use_update (_update : value) : M unit :=
  let* f := assert_function
              "view.use.update : new target updater is not a function" _update in
  modify (set_update f);;
  emit_update false.

Definition use_build (_build : value) : M unit :=
  let* f := assert_function "view.use.build : new build is not a function" _build in
  modify (set_build f);;
  emit_update false.

Definition use_prebuild (newPrebuild : value) : M unit :=
  let* f := assert_function
              "view.use.prebuild : new prebuild is not a function" newPrebuild in
  modify (set_prebuild f);;
  emit_update false.

Definition use_postbuild (newPostbuild : value) : M unit :=
  let* f := assert_function
              "view.use.postbuild : new postbuild is not a function" newPostbuild in
  modify (set_postbuild f);;
  emit_update false.

Definition emit_state (_state : value) : M unit :=
  if isDefined _state then
    modify (set_state _state);;
    emit_update false
  else throw (AssertionError "view.emit.state : new state is not defined" _state).

(** What reaches the module over the two buses. *)
Inductive event :=
| UseTarget (v : value)
| UseBuilder (v : value)
| UseDraw (v : value)
| UseUpdate (v : value)
| UseBuild (v : value)
| UsePrebuild (v : value)
| UsePostbuild (v : value)
| EmitState (v : value)
| EmitUpdate (force : value).

Definition listen (e : event) : M unit :=
  match e with
  | UseTarget v => use_target v
  | UseBuilder v => use_builder v
  | UseDraw v => use_draw v
  | UseUpdate v => use_update v
  | UseBuild v => use_build v
  | UsePrebuild v => use_prebuild v
  | UsePostbuild v => use_postbuild v
  | EmitState v => emit_state v
  | EmitUpdate force => on_update force
  end.

(** The events one after the other; an event that throws leaves the
    variables as they were at the throw. *)
Definition run (events : list event) (s : vars) : vars :=
  fold_left (λ s e, (listen e s).1) events s.

End WithApplication.

(** The four pieces the module waits for before it renders. *)
Inductive piece := PTarget | PBuilder | PState | PBuild.

(** The event supplies the piece. *)
Definition gives (p : piece) (e : event) : bool :=
  match p, e with
  | PTarget, UseTarget v => isDefined v
  | PBuilder, UseBuilder v => isFunction v
  | PState, EmitState v => isDefined v
  | PBuild, UseBuild v => isFunction v
  | _, _ => false
  end.

(** A call of [draw] that returned. *)
Definition drew (c : call) : Prop :=
  role_of c = RDraw ∧ ∃ v, returned c = Ok v.

(** Every [update] call of the record comes after a [draw] that returned. *)
Definition ordered (l : list call) : Prop :=
  ∀ l1 c l2, l = l1 ++ c :: l2 → role_of c = RUpdate → Exists drew l1.

(** What the variables and the record keep true. *)
Definition inv (s : vars) : Prop :=
  ordered (calls s) ∧ (hasDrawn s = true → Exists drew (calls s)).

(** The piece is still missing and nothing has happened. *)
Definition idle (p : piece) (s : vars) : Prop :=
  canDraw s = false ∧ calls s = [] ∧
  match p with
  | PTarget => target s = VUndefined
  | PBuilder => builder s = None
  | PState => state s = VUndefined
  | PBuild => build s = None
  end.

End View.

(** * Properties *)

(** ** Facts about the array primitives *)

Module JsArrayFacts.
Import JsArray.

Lemma at_index_nat {A : Type} (arr : list A) (n : nat) :
  at_index arr (Z.of_nat n) = arr !! n.
Proof.
  unfold at_index. destruct (decide (0 ≤ Z.of_nat n)) as [_|Hn]; [|lia].
  by rewrite Nat2Z.id.
Qed.

Lemma indexOf_from_first (arr : list key) (x : key) (p : nat) (i : Z) :
  arr !! p = Some x →
  (∀ q, (q < p)%nat → arr !! q ≠ Some x) →
  indexOf_from arr x i = i + Z.of_nat p.
Proof.
  revert p i. induction arr as [|y arr IH]; intros p i Hp Hfirst; [done|].
  simpl. destruct (decide (y = x)) as [->|Hne].
  - destruct p as [|p]; [lia|].
    exfalso. by apply (Hfirst 0%nat); [lia|].
  - destruct p as [|p]; [simpl in Hp; congruence|].
    rewrite (IH p (i + 1)); [lia|done|].
    intros q Hq. apply (Hfirst (S q)). lia.
Qed.

Lemma indexOf_NoDup (arr : list key) (x : key) (p : nat) :
  NoDup arr → arr !! p = Some x → indexOf arr x = Z.of_nat p.
Proof.
  intros Hnd Hp. unfold indexOf.
  rewrite (indexOf_from_first arr x p 0 Hp); [lia|].
  intros q Hq Hq'. pose proof (NoDup_lookup _ _ _ _ Hnd Hp Hq'). lia.
Qed.

Lemma slice_prefix {A : Type} (arr : list A) (n : nat) :
  (n ≤ length arr)%nat → slice arr 0 (Some (Z.of_nat n)) = take n arr.
Proof.
  intros Hn. unfold slice, relative_index.
  repeat case_decide; try lia.
  rewrite Z.min_l by lia. rewrite Z.min_l by lia.
  replace (Z.to_nat (Z.of_nat n - 0)) with n by lia. done.
Qed.

Lemma slice_suffix {A : Type} (arr : list A) (n : nat) :
  (n ≤ length arr)%nat → slice arr (Z.of_nat n) None = drop n arr.
Proof.
  intros Hn. unfold slice, relative_index.
  case_decide; [lia|]. rewrite Z.min_l by lia. rewrite Nat2Z.id.
  apply take_ge. rewrite length_drop. lia.
Qed.

End JsArrayFacts.

(** ** The scan of [longestChain] *)

Module LongestChainFacts.
Import JsArray LongestChain ChainSpec JsArrayFacts.

Lemma common_prefix_nil_r (a : list key) : common_prefix a [] = O.
Proof. by destruct a. Qed.

Lemma common_prefix_lookup (a b : list key) (k : nat) :
  (k < common_prefix a b)%nat → ∃ x, a !! k = Some x ∧ b !! k = Some x.
Proof.
  revert b k. induction a as [|x a IH]; intros [|y b] k Hk; simpl in *; try lia.
  destruct (decide (x = y)) as [->|]; [|lia].
  destruct k as [|k]; simpl; [by exists y|]. apply IH. lia.
Qed.

Lemma common_prefix_max (a b : list key) (m : nat) :
  (∀ k, (k < m)%nat → ∃ x, a !! k = Some x ∧ b !! k = Some x) →
  (m ≤ common_prefix a b)%nat.
Proof.
  revert a b. induction m as [|m IH]; intros a b Hrun; [lia|].
  destruct (Hrun O) as (x & Ha & Hb); [lia|].
  destruct a as [|x' a]; [done|]. destruct b as [|y' b]; [done|].
  simpl in *. simplify_eq. rewrite decide_True by done.
  apply le_n_S, IH. intros k Hk. apply (Hrun (S k)). lia.
Qed.

Lemma common_prefix_drop (a b : list key) (d : nat) :
  (d ≤ common_prefix a b)%nat →
  common_prefix (drop d a) (drop d b) = (common_prefix a b - d)%nat.
Proof.
  revert a b. induction d as [|d IH]; intros a b Hd.
  - rewrite !drop_0. lia.
  - destruct a as [|x a]; [simpl in Hd; lia|].
    destruct b as [|y b]; [simpl in Hd; lia|].
    simpl in *. destruct (decide (x = y)); [|lia].
    rewrite IH; lia.
Qed.

Lemma common_prefix_le_r (a b : list key) :
  (common_prefix a b ≤ length b)%nat.
Proof.
  revert b. induction a as [|x a IH]; intros [|y b]; simpl; try lia.
  destruct (decide (x = y)); [|lia]. specialize (IH b). lia.
Qed.

Lemma extend_chain_ge (cur tgt : list key) (i p : Z) (steps : nat) (inc cl : Z) :
  cl ≤ extend_chain cur tgt i p steps inc cl.
Proof.
  revert inc cl. induction steps as [|steps IH]; intros inc cl; simpl; [lia|].
  case_decide; [|lia]. specialize (IH (inc + 1) (cl + 1)). lia.
Qed.

(** The inner loop counts the common prefix of what is left of both arrays. *)
Lemma extend_chain_prefix (cur tgt : list key) (i p steps inc : nat) (cl : Z) :
  steps = Nat.min (length cur - (p + inc)) (length tgt - (i + inc)) →
  extend_chain cur tgt (Z.of_nat i) (Z.of_nat p) steps (Z.of_nat inc) cl
  = cl + Z.of_nat (common_prefix (drop (p + inc) cur) (drop (i + inc) tgt)).
Proof.
  revert inc cl. induction steps as [|steps IH]; intros inc cl Hsteps; simpl.
  - destruct (decide (length cur ≤ p + inc)%nat) as [Hc|Hc].
    + rewrite (drop_ge cur) by done. simpl. lia.
    + rewrite (drop_ge tgt) by lia. rewrite common_prefix_nil_r. lia.
  - destruct (lookup_lt_is_Some_2 cur (p + inc)) as [a Ha]; [lia|].
    destruct (lookup_lt_is_Some_2 tgt (i + inc)) as [b Hb]; [lia|].
    rewrite <- !Nat2Z.inj_add, !at_index_nat, Ha, Hb.
    rewrite (drop_S cur a (p + inc)), (drop_S tgt b (i + inc)) by done.
    simpl. destruct (decide (Some b = Some a)) as [Heq|Hne].
    + simplify_eq. rewrite decide_True by done.
      replace (Z.of_nat inc + 1) with (Z.of_nat (S inc)) by lia.
      rewrite IH by lia.
      replace (p + S inc)%nat with (S (p + inc)) by lia.
      replace (i + S inc)%nat with (S (i + inc)) by lia. lia.
    + rewrite decide_False by congruence. lia.
Qed.

Lemma chain_at_prefix (cur tgt : list key) (j p : nat) (x : key) :
  length cur = length tgt →
  tgt !! j = Some x →
  cur !! p = Some x →
  (∀ q, (q < p)%nat → cur !! q ≠ Some x) →
  chain_at cur tgt (Z.of_nat (length tgt)) (Z.of_nat j)
  = Z.of_nat (common_prefix (drop p cur) (drop j tgt)).
Proof.
  intros Hlen Hj Hp Hfirst. unfold chain_at.
  rewrite at_index_nat, Hj. unfold indexOf.
  rewrite (indexOf_from_first cur x p 0 Hp Hfirst). simpl.
  pose proof (lookup_lt_Some _ _ _ Hj). pose proof (lookup_lt_Some _ _ _ Hp).
  replace 1 with (Z.of_nat 1) at 2 by done.
  rewrite (extend_chain_prefix cur tgt j p _ 1 1) by lia.
  rewrite (drop_S cur x p), (drop_S tgt x j) by done.
  simpl. rewrite decide_True by done.
  replace (p + 1)%nat with (S p) by lia. replace (j + 1)%nat with (S j) by lia.
  lia.
Qed.

Lemma chain_at_chainN (cur tgt : list key) (j : nat) :
  chain_at cur tgt (Z.of_nat (length tgt)) (Z.of_nat j) = Z.of_nat (chainN cur tgt j).
Proof.
  unfold chainN, chain_at.
  pose proof (extend_chain_ge cur tgt (Z.of_nat j)
    match at_index tgt (Z.of_nat j) with Some k => indexOf cur k | None => -1 end
    (Z.to_nat (Z.min (Z.of_nat (length tgt) -
       match at_index tgt (Z.of_nat j) with Some k => indexOf cur k | None => -1 end)
       (Z.of_nat (length tgt) - Z.of_nat j) - 1)) 1 1).
  lia.
Qed.

Section Permuted.
Context (cur tgt : list key).
Context (Hnd : NoDup cur) (Hperm : cur ≡ₚ tgt).

Lemma chainN_prefix (j : nat) :
  (j < length tgt)%nat →
  ∃ p x, tgt !! j = Some x ∧ cur !! p = Some x ∧
    chainN cur tgt j = common_prefix (drop p cur) (drop j tgt).
Proof using Hnd Hperm.
  intros Hj. destruct (lookup_lt_is_Some_2 tgt j Hj) as [x Hx].
  assert (x ∈ cur) as Hin.
  { rewrite Hperm. by eapply list_elem_of_lookup_2. }
  apply list_elem_of_lookup_1 in Hin as [p Hp].
  exists p, x. split_and!; [done..|].
  unfold chainN. rewrite (chain_at_prefix cur tgt j p x); [lia| |done..|].
  - by apply Permutation_length.
  - intros q Hq Hq'. pose proof (NoDup_lookup _ _ _ _ Hnd Hp Hq'). lia.
Qed.

Lemma chainN_run (j : nat) :
  (j < length tgt)%nat →
  (1 ≤ chainN cur tgt j)%nat ∧ ∃ p, common_run cur tgt j p (chainN cur tgt j).
Proof using Hnd Hperm.
  intros Hj. destruct (chainN_prefix j Hj) as (p & x & Hx & Hp & ->). split.
  - rewrite (drop_S cur x p), (drop_S tgt x j) by done. simpl.
    rewrite decide_True by done. lia.
  - exists p. intros k Hk.
    destruct (common_prefix_lookup _ _ _ Hk) as (y & Hy1 & Hy2).
    rewrite lookup_drop in Hy1, Hy2. by exists y.
Qed.

Lemma chainN_max (j s m : nat) :
  common_run cur tgt j s m → (1 ≤ m)%nat → (m ≤ chainN cur tgt j)%nat.
Proof using Hnd Hperm.
  intros Hrun Hm. destruct (Hrun O) as (x & Hx & Hs); [lia|].
  rewrite Nat.add_0_r in Hx, Hs.
  destruct (chainN_prefix j) as (p & x' & Hx' & Hp & ->).
  { by eapply lookup_lt_Some. }
  simplify_eq. assert (p = s) as -> by by eapply NoDup_lookup.
  apply common_prefix_max. intros k Hk.
  destruct (Hrun k Hk) as (y & Hy1 & Hy2). exists y.
  by rewrite !lookup_drop.
Qed.

Lemma chainN_suffix (j d : nat) :
  (j < length tgt)%nat → (d < chainN cur tgt j)%nat →
  chainN cur tgt (j + d) = (chainN cur tgt j - d)%nat.
Proof using Hnd Hperm.
  intros Hj Hd. destruct (chainN_prefix j Hj) as (p & x & Hx & Hp & Heq).
  rewrite Heq in Hd |- *.
  destruct (common_prefix_lookup _ _ _ Hd) as (y & Hy1 & Hy2).
  rewrite lookup_drop in Hy1, Hy2.
  destruct (chainN_prefix (j + d)) as (p' & y' & Hy' & Hp' & ->).
  { by eapply lookup_lt_Some. }
  simplify_eq. assert (p' = (p + d)%nat) as -> by by eapply NoDup_lookup.
  rewrite <- common_prefix_drop by lia.
  by rewrite !drop_drop.
Qed.

Lemma chainN_bound (j : nat) :
  (j < length tgt)%nat → (j + chainN cur tgt j ≤ length tgt)%nat.
Proof using Hnd Hperm.
  intros Hj. destruct (chainN_prefix j Hj) as (p & x & Hx & Hp & ->).
  pose proof (common_prefix_le_r (drop p cur) (drop j tgt)) as Hle.
  rewrite length_drop in Hle. lia.
Qed.

(** Once a chain covers half of the array, no later index starts a longer
    one: an index inside the chain starts a suffix of it, an index after it
    has less than half of the array left. *)
Lemma half_is_max (c j : nat) :
  (c < length tgt)%nat → (length tgt ≤ 2 * chainN cur tgt c)%nat →
  (c ≤ j)%nat → (j < length tgt)%nat →
  (chainN cur tgt j ≤ chainN cur tgt c)%nat.
Proof using Hnd Hperm.
  intros Hc Hhalf Hcj Hj.
  destruct (decide (j - c < chainN cur tgt c)%nat) as [Hin|Hout].
  - pose proof (chainN_suffix c (j - c) Hc Hin) as Hs.
    replace (c + (j - c))%nat with j in Hs by lia. lia.
  - pose proof (chainN_bound j Hj). lia.
Qed.

Lemma scan_spec (steps i l c : nat) :
  (i + steps = length tgt)%nat →
  (∀ j, (j < i)%nat → (chainN cur tgt j ≤ l)%nat) →
  (2 * l < length tgt)%nat →
  (i = O ∧ l = O ∧ c = O ∨
   (c < i)%nat ∧ chainN cur tgt c = l ∧
   ∀ j, (j < c)%nat → (chainN cur tgt j < l)%nat) →
  ∃ L c',
    scan cur tgt (Z.of_nat (length tgt)) steps (Z.of_nat i) (Z.of_nat l) (Z.of_nat c)
    = (Z.of_nat L, Z.of_nat c') ∧ scan_final cur tgt L c'.
Proof using Hnd Hperm.
  revert i l c. induction steps as [|steps IH]; intros i l c Hi Hle Hhalf Hbest.
  - exists l, c. split; [done|].
    destruct Hbest as [(-> & -> & ->)|(Hc & Hl & Hlt)]; [lia|].
    split_and!; [lia|done| |done]. intros j Hj. apply Hle. lia.
  - assert (i < length tgt)%nat as Hi' by lia.
    destruct (chainN_run i Hi') as [Hpos _].
    assert (∀ l' c', (c' ≤ i)%nat → chainN cur tgt c' = l' →
      (∀ j, (j ≤ i)%nat → (chainN cur tgt j ≤ l')%nat) →
      (∀ j, (j < c')%nat → (chainN cur tgt j < l')%nat) →
      ∃ L c'',
        (if reaches_half (Z.of_nat l') (Z.of_nat (length tgt))
         then (Z.of_nat l', Z.of_nat c')
         else scan cur tgt (Z.of_nat (length tgt)) steps (Z.of_nat i + 1)
                (Z.of_nat l') (Z.of_nat c'))
        = (Z.of_nat L, Z.of_nat c'') ∧ scan_final cur tgt L c'') as Hstep.
    { intros l' c' Hc' Hl' Hle' Hlt'. unfold reaches_half. case_bool_decide as Hh.
      - exists l', c'. split; [done|]. split_and!; [lia|done| |done].
        intros j Hj. destruct (decide (j ≤ i)%nat); [by apply Hle'|].
        subst l'. apply half_is_max; lia.
      - replace (Z.of_nat i + 1) with (Z.of_nat (S i)) by lia.
        apply IH; [lia| |lia|].
        + intros j Hj. apply Hle'. lia.
        + right. split_and!; [lia|done|done]. }
    simpl. rewrite chain_at_chainN.
    destruct (decide (Z.of_nat (chainN cur tgt i) > Z.of_nat l)) as [Hgt|Hngt].
    + apply Hstep; [lia|done| |].
      * intros j Hj. destruct (decide (j = i)) as [->|]; [lia|].
        specialize (Hle j). lia.
      * intros j Hj. specialize (Hle j). lia.
    + destruct Hbest as [(-> & -> & ->)|(Hc & Hl & Hlt)]; [lia|].
      apply Hstep; [lia|done| |done].
      intros j Hj. destruct (decide (j = i)) as [->|]; [lia|].
      apply Hle. lia.
Qed.

(** The range [longestChain] returns on a non-empty array. *)
Lemma longestChain_final :
  (0 < length tgt)%nat →
  ∃ L c, longestChain cur tgt
         = {| start := Z.of_nat c; end_ := Z.of_nat c + Z.of_nat L - 1 |}
         ∧ scan_final cur tgt L c.
Proof using Hnd Hperm.
  intros Hn. unfold longestChain.
  destruct (scan_spec (length tgt) O O O) as (L & c & Hscan & Hfinal);
    [lia|intros; lia|lia|by left|].
  change (Z.of_nat O) with 0 in Hscan. rewrite Hscan. by exists L, c.
Qed.

End Permuted.

Lemma longestChain_empty (cur : list key) :
  longestChain cur [] = {| start := 0; end_ := -1 |}.
Proof. done. Qed.

Lemma common_run_take (cur tgt : list key) (i s m : nat) :
  common_run cur tgt i s m → take m (drop i tgt) = take m (drop s cur).
Proof.
  intros Hrun. apply list_eq. intros k.
  destruct (decide (k < m)%nat) as [Hk|Hk].
  - rewrite !lookup_take_lt, !lookup_drop by done.
    destruct (Hrun k Hk) as (x & -> & ->). done.
  - rewrite !lookup_take_ge by lia. done.
Qed.

Lemma common_run_length (cur tgt : list key) (i s m : nat) :
  common_run cur tgt i s m → (1 ≤ m)%nat →
  (i + m ≤ length tgt)%nat ∧ (s + m ≤ length cur)%nat.
Proof.
  intros Hrun Hm. destruct (Hrun (m - 1)%nat) as (x & Hx & Hs); [lia|].
  apply lookup_lt_Some in Hx, Hs. lia.
Qed.

End LongestChainFacts.

(** ** The move phases *)

Module ReorderFacts.
Import JsArray LongestChain ChainSpec Reorder JsArrayFacts LongestChainFacts.

Lemma filter_all {A : Type} (P : A → Prop) `{!∀ x, Decision (P x)} (l : list A) :
  (∀ x, x ∈ l → P x) → filter P l = l.
Proof.
  induction l as [|x l IH]; intros Hall; [done|].
  rewrite filter_cons_True by (apply Hall; left).
  f_equal. apply IH. intros y Hy. apply Hall. by right.
Qed.

Lemma filter_none {A : Type} (P : A → Prop) `{!∀ x, Decision (P x)} (l : list A) :
  (∀ x, x ∈ l → ¬ P x) → filter P l = [].
Proof.
  induction l as [|x l IH]; intros Hnone; [done|].
  rewrite filter_cons_False by (apply Hnone; left).
  apply IH. intros y Hy. apply Hnone. by right.
Qed.

(** Walking [startKeys] backwards and putting each node first leaves the
    start keys in front, in their own order. *)
Lemma prepend_phase_spec (ks live : list key) :
  NoDup ks → prepend_phase ks live = ks ++ filter (λ x, x ∉ ks) live.
Proof.
  unfold prepend_phase. rewrite <- fold_left_rev_right, rev_involutive.
  induction ks as [|k ks IH]; intros Hnd; simpl.
  - symmetry. apply filter_all. intros x _. apply not_elem_of_nil.
  - apply NoDup_cons in Hnd as [Hk Hnd]. rewrite IH by done.
    unfold insertBefore_first. f_equal. rewrite filter_app. f_equal.
    + apply filter_all. intros x Hx ->. done.
    + rewrite list_filter_filter. apply list_filter_iff. intros x.
      rewrite not_elem_of_cons. done.
Qed.

Lemma append_phase_spec (ks live : list key) :
  NoDup ks → append_phase ks live = filter (λ x, x ∉ ks) live ++ ks.
Proof.
  unfold append_phase. revert live.
  induction ks as [|k ks IH]; intros live Hnd; simpl.
  - rewrite app_nil_r. symmetry. apply filter_all. intros x _. apply not_elem_of_nil.
  - apply NoDup_cons in Hnd as [Hk Hnd]. rewrite IH by done.
    unfold appendChild. rewrite filter_app, list_filter_filter.
    rewrite (filter_all _ [k]).
    2:{ intros x ->%list_elem_of_singleton. done. }
    rewrite <- app_assoc. simpl. f_equal.
    apply list_filter_iff. intros x. rewrite not_elem_of_cons. tauto.
Qed.

(** Moving the keys around a retained chain: [target] is [front ++ chain ++
    back], and [chain] is a contiguous piece of the live order. *)
Lemma moves_around_chain (front chain back before after : list key) :
  NoDup (front ++ chain ++ back) →
  before ++ chain ++ after ≡ₚ front ++ chain ++ back →
  append_phase back (prepend_phase front (before ++ chain ++ after))
  = front ++ chain ++ back.
Proof.
  intros Hnd Hperm.
  assert (NoDup (before ++ chain ++ after)) as Hnd' by by rewrite Hperm.
  apply NoDup_app in Hnd as (Hfront & Hfc & Hnd).
  apply NoDup_app in Hnd as (Hchain & Hcb & Hback).
  apply NoDup_app in Hnd' as (_ & Hbc & Hnd').
  apply NoDup_app in Hnd' as (_ & Hca & _).
  rewrite prepend_phase_spec, append_phase_spec by done.
  rewrite filter_app, list_filter_filter, <- app_assoc. f_equal.
  { apply filter_all. intros x Hx Hx'. apply (Hfc x Hx). set_solver. }
  f_equal. rewrite !filter_app.
  assert (∀ x, x ∈ before ∨ x ∈ after → x ∈ front ∨ x ∈ back) as Hout.
  { intros x Hx.
    assert (x ∈ front ++ chain ++ back) as Hin.
    { rewrite <- Hperm, !elem_of_app. tauto. }
    assert (x ∉ chain) as Hnc.
    { intros Hc. destruct Hx as [Hx|Hx].
      - apply (Hbc x Hx). apply elem_of_app. by left.
      - by apply (Hca x Hc). }
    rewrite !elem_of_app in Hin. tauto. }
  rewrite (filter_none _ before), (filter_none _ after), (filter_all _ chain).
  - by rewrite app_nil_r.
  - intros x Hx. split; [by apply Hcb|]. intros Hx'. apply (Hfc x Hx'). set_solver.
  - intros x Hx [? ?]. destruct (Hout x); [by right|done..].
  - intros x Hx [? ?]. destruct (Hout x); [by left|done..].
Qed.

Section Permuted.
Context (cur tgt : list key).
Context (Hnd : NoDup cur) (Hperm : cur ≡ₚ tgt).

Lemma reorder_exact : reorder cur tgt = tgt.
Proof using Hnd Hperm.
  destruct (decide (length tgt = O)) as [Hlen|Hlen].
  { apply length_zero_iff_nil in Hlen as ->.
    apply Permutation_nil_r in Hperm as ->. done. }
  destruct (longestChain_final cur tgt Hnd Hperm) as (L & c & Hr & Hc & HL & _); [lia|].
  destruct (chainN_run cur tgt Hnd Hperm c Hc) as (Hpos & p & Hrun).
  rewrite HL in Hpos, Hrun.
  destruct (common_run_length _ _ _ _ _ Hrun Hpos) as [Hcl Hpl].
  pose proof (common_run_take _ _ _ _ _ Hrun) as Htake.
  unfold reorder. rewrite Hr. simpl.
  rewrite slice_prefix by lia.
  replace (Z.of_nat c + Z.of_nat L - 1 + 1) with (Z.of_nat (c + L)) by lia.
  rewrite slice_suffix by lia.
  assert (tgt = take c tgt ++ take L (drop c tgt) ++ drop (c + L) tgt) as Htgt.
  { rewrite <- drop_drop, take_drop, take_drop. done. }
  assert (cur = take p cur ++ take L (drop c tgt) ++ drop (p + L) cur) as Hcur.
  { rewrite Htake, <- drop_drop, take_drop, take_drop. done. }
  rewrite Hcur at 1. rewrite Htgt at 4.
  apply moves_around_chain.
  - rewrite <- Htgt. by rewrite <- Hperm.
  - by rewrite <- Hcur, <- Htgt.
Qed.

End Permuted.

End ReorderFacts.

(** ** The chain [longestChain] returns *)

Module ChainClaims.
Import JsArray LongestChain ChainSpec Reorder.
Import JsArrayFacts LongestChainFacts ReorderFacts.

(** Everything the scan establishes about the returned range, for arrays
    that hold the same distinct keys. *)
Lemma longestChain_characterised (cur tgt : list key) :
  NoDup cur → cur ≡ₚ tgt →
  let r := longestChain cur tgt in
  let len := range_length r in
  (0 ≤ start r ∧ start r ≤ end_ r + 1 ∧ end_ r < Z.of_nat (length tgt)) ∧
  ((0 < length tgt)%nat → (1 ≤ len)%nat) ∧
  (∃ s, common_run cur tgt (Z.to_nat (start r)) s len) ∧
  (∀ i s m, common_run cur tgt i s m → (m ≤ len)%nat) ∧
  (∀ i s, (0 < len)%nat → common_run cur tgt i s len → (Z.to_nat (start r) ≤ i)%nat).
Proof.
  intros Hnd Hperm. cbv zeta.
  destruct (decide (length tgt = O)) as [Hlen|Hlen].
  { apply length_zero_iff_nil in Hlen as ->. rewrite longestChain_empty.
    unfold range_length. simpl. split_and!; try lia.
    - exists O. intros k Hk. lia.
    - intros i s [|m] Hrun; [lia|]. destruct (Hrun O) as (x & Hx & _); [lia|done]. }
  destruct (longestChain_final cur tgt Hnd Hperm) as (L & c & -> & Hc & HL & Hmax & Hleft);
    [lia|].
  destruct (chainN_run cur tgt Hnd Hperm c Hc) as (Hpos & p & Hrun).
  pose proof (chainN_bound cur tgt Hnd Hperm c Hc) as Hbound.
  rewrite HL in Hpos, Hrun, Hbound. unfold range_length. simpl.
  replace (Z.to_nat (Z.of_nat c + Z.of_nat L - 1 - Z.of_nat c + 1)) with L by lia.
  rewrite Nat2Z.id. split_and!; try lia.
  - by exists p.
  - intros i s [|m] Hrun'; [lia|].
    pose proof (chainN_max cur tgt Hnd Hperm i s (S m) Hrun') as Hm.
    destruct (common_run_length _ _ _ _ _ Hrun') as [Hi _]; [lia|].
    specialize (Hmax i). lia.
  - intros i s HposL Hrun'.
    pose proof (chainN_max cur tgt Hnd Hperm i s L Hrun') as Hm.
    destruct (decide (i < c)%nat) as [Hic|]; [|lia].
    specialize (Hleft i Hic). lia.
Qed.

(** C2. For key sequences [current] and [target] that hold the same
    distinct sibling keys: when the two share a pair of neighbouring keys the
    returned range holds at least two keys (so it is not empty), and the two
    boundary move phases of [update] (the keys before the range put first,
    walking backwards; the keys after the range appended, walking forwards)
    turn the live child order [current] into exactly [target]. *)
Theorem reorder_reaches_target (current target : list key) :
  NoDup current → current ≡ₚ target →
  (adjacent_pair current target →
     start (longestChain current target) < end_ (longestChain current target)) ∧
  reorder current target = target.
Proof.
  intros Hnd Hperm. split; [|by apply reorder_exact].
  intros (i & s & Hpair).
  destruct (longestChain_characterised current target Hnd Hperm)
    as (Hrange & _ & _ & Hmax & _).
  specialize (Hmax i s 2%nat Hpair). unfold range_length in Hmax. lia.
Qed.

Lemma reorder_reaches_target_witness :
  let current := ["a"; "b"; "c"; "d"] in
  let target := ["d"; "b"; "c"; "a"] in
  (adjacent_pair current target →
     start (longestChain current target) < end_ (longestChain current target)) ∧
  reorder current target = target.
Proof.
  apply (reorder_reaches_target ["a"; "b"; "c"; "d"] ["d"; "b"; "c"; "a"]).
  - by apply (bool_decide_unpack _).
  - apply NoDup_Permutation; [by apply (bool_decide_unpack _)..|].
    intros x. rewrite !elem_of_cons, !elem_of_nil. tauto.
Defined.

(** C3. For key sequences that hold the same distinct keys, the range
    [longestChain] returns is a common contiguous run, no common contiguous
    run is longer (the early exit at half of the length loses nothing), and
    among the runs of that maximal length it is the first one the scan meets:
    the leftmost in [successor]. *)
Theorem longestChain_maximal_leftmost (current target : list key) :
  NoDup current → current ≡ₚ target →
  let r := longestChain current target in
  (∃ s, common_run current target (Z.to_nat (start r)) s (range_length r)) ∧
  longest_run current target (range_length r) ∧
  (∀ i s, (0 < range_length r)%nat →
      common_run current target i s (range_length r) →
      (Z.to_nat (start r) ≤ i)%nat).
Proof.
  intros Hnd Hperm.
  destruct (longestChain_characterised current target Hnd Hperm)
    as (_ & _ & Hrun & Hmax & Hleft).
  by split_and!.
Qed.

Lemma longestChain_maximal_leftmost_witness :
  let current := ["a"; "b"; "c"; "d"] in
  let target := ["c"; "d"; "a"; "b"] in
  let r := longestChain current target in
  (∃ s, common_run current target (Z.to_nat (start r)) s (range_length r)) ∧
  longest_run current target (range_length r) ∧
  (∀ i s, (0 < range_length r)%nat →
      common_run current target i s (range_length r) →
      (Z.to_nat (start r) ≤ i)%nat).
Proof.
  apply (longestChain_maximal_leftmost ["a"; "b"; "c"; "d"] ["c"; "d"; "a"; "b"]).
  - by apply (bool_decide_unpack _).
  - apply NoDup_Permutation; [by apply (bool_decide_unpack _)..|].
    intros x. rewrite !elem_of_cons, !elem_of_nil. tauto.
Defined.

(** C4 as stated fails: for [current = [a; b; c]] and [target = [c; a; b]]
    the function returns [start = 1], [end = 2]; read as indices of
    [current] these are the keys [b; c], which are nowhere a contiguous run
    of [target]. *)
Lemma range_in_original_fails :
  let current := ["a"; "b"; "c"] in
  let target := ["c"; "a"; "b"] in
  NoDup current ∧ current ≡ₚ target ∧
  longestChain current target = {| start := 1; end_ := 2 |} ∧
  ¬ range_in_original current target.
Proof.
  split_and!.
  - by apply (bool_decide_unpack _).
  - apply NoDup_Permutation; [by apply (bool_decide_unpack _)..|].
    intros x. rewrite !elem_of_cons, !elem_of_nil. tauto.
  - done.
  - unfold range_in_original.
    change (longestChain ["a"; "b"; "c"] ["c"; "a"; "b"])
      with {| start := 1; end_ := 2 |}.
    change (range_length {| start := 1; end_ := 2 |}) with 2%nat.
    change (Z.to_nat (start {| start := 1; end_ := 2 |})) with 1%nat.
    intros (i & Hrun).
    destruct (Hrun 0%nat) as (x & Hx & Hb); [lia|].
    destruct (Hrun 1%nat) as (y & Hy & Hc); [lia|].
    simpl in Hb, Hc. simplify_eq.
    destruct i as [|[|[|i]]]; simpl in Hx, Hy; simplify_eq.
Qed.

(** C4, amended. For key sequences that hold the same distinct keys, the
    returned [start] and [end] are indices into [target], the second
    argument: the keys of [target] at [start .. end] appear, in the same
    order, as a contiguous run of [current], and no common contiguous run is
    longer. *)
Theorem range_in_successor_longest (current target : list key) :
  NoDup current → current ≡ₚ target →
  let r := longestChain current target in
  (0 ≤ start r ∧ start r ≤ end_ r + 1 ∧ end_ r < Z.of_nat (length target)) ∧
  range_in_successor current target ∧
  longest_run current target (range_length r).
Proof.
  intros Hnd Hperm.
  destruct (longestChain_characterised current target Hnd Hperm)
    as (Hrange & _ & Hrun & Hmax & _).
  split; [exact Hrange|]. split; [exact Hrun|exact Hmax].
Qed.

Lemma range_in_successor_longest_witness :
  let current := ["a"; "b"; "c"] in
  let target := ["c"; "a"; "b"] in
  let r := longestChain current target in
  (0 ≤ start r ∧ start r ≤ end_ r + 1 ∧ end_ r < Z.of_nat (length target)) ∧
  range_in_successor current target ∧
  longest_run current target (range_length r).
Proof.
  apply (range_in_successor_longest ["a"; "b"; "c"] ["c"; "a"; "b"]).
  - by apply (bool_decide_unpack _).
  - apply NoDup_Permutation; [by apply (bool_decide_unpack _)..|].
    intros x. rewrite !elem_of_cons, !elem_of_nil. tauto.
Defined.

(** Edge case.  Sequences of length zero give the degenerate empty range:
    [start = 0], [end = -1], whatever the first argument holds, and the move
    phases have nothing to move. *)
Theorem longestChain_zero_length (current : list key) :
  longestChain current [] = {| start := 0; end_ := -1 |} ∧
  range_length (longestChain current []) = O ∧
  reorder current [] = current.
Proof.
  split; [done|]. split; [done|].
  unfold reorder, prepend_phase, append_phase. done.
Qed.

End ChainClaims.

(** ** Plain objects *)

Module JsObjectFacts.
Import JsValue JsObject.

Lemma own_elem_of {V : Type} (o : object V) (k : string) (v : V) :
  own o k = Some v → (k, v) ∈ o.
Proof.
  induction o as [|[k' v'] o IH]; simpl; [done|].
  destruct (decide (k' = k)) as [->|]; intros Hown.
  - simplify_eq. left.
  - right. by apply IH.
Qed.

Lemma own_is_Some {V : Type} (o : object V) (k : string) :
  k ∈ keys o → is_Some (own o k).
Proof.
  unfold keys. induction o as [|[k' v'] o IH]; simpl.
  - intros Hk. by apply elem_of_nil in Hk.
  - intros Hk. destruct (decide (k' = k)); [by eexists|].
    apply elem_of_cons in Hk as [?|Hk]; [congruence|]. by apply IH.
Qed.

Lemma replace_own_id {V : Type} (o : object V) (k : string) (v : V) :
  own o k = Some v → replace_own o k v = o.
Proof.
  induction o as [|[k' v'] o IH]; simpl; [done|].
  destruct (decide (k' = k)) as [->|]; intros Hown.
  - by simplify_eq.
  - by rewrite IH.
Qed.

Lemma set_own_id {V : Type} (o : object V) (k : string) (v : V) :
  own o k = Some v → set o k v = o.
Proof. intros Hown. unfold set. rewrite Hown. by apply replace_own_id. Qed.

Lemma keys_replace_own {V : Type} (o : object V) (k : string) (v : V) :
  keys (replace_own o k v) = keys o.
Proof.
  unfold keys. induction o as [|[k' v'] o IH]; simpl; [done|].
  destruct (decide (k' = k)) as [->|]; csimpl; [done|]. by f_equal.
Qed.

Lemma keys_insert_index {V : Type} (n : N) (o : object V) (k x : string) (v : V) :
  x ∈ keys (insert_index n k v o) → x = k ∨ x ∈ keys o.
Proof.
  unfold keys. induction o as [|[k' v'] o IH]; simpl.
  - rewrite list_elem_of_singleton. tauto.
  - destruct (array_index k') as [n'|]; [destruct (decide (n < n')%N)|]; simpl;
      rewrite ?elem_of_cons; tauto.
Qed.

Lemma keys_set {V : Type} (o : object V) (k x : string) (v : V) :
  x ∈ keys (set o k v) → x = k ∨ x ∈ keys o.
Proof.
  unfold set. destruct (own o k).
  - rewrite keys_replace_own. tauto.
  - destruct (array_index k).
    + apply keys_insert_index.
    + unfold keys. rewrite fmap_app, elem_of_app. csimpl.
      rewrite list_elem_of_singleton. tauto.
Qed.

Lemma keys_assign {V : Type} (target source : object V) (x : string) :
  x ∈ keys (assign target source) → x ∈ keys target ∨ x ∈ keys source.
Proof.
  unfold assign. revert target.
  induction source as [|[k v] source IH]; intros target; simpl; [tauto|].
  intros Hx. apply IH in Hx as [Hx|Hx].
  - apply keys_set in Hx as [->|Hx]; [|tauto]. right. unfold keys. simpl. left.
  - right. unfold keys. simpl. by right.
Qed.

Lemma keys_assign_same {V : Type} (o : object V) (x : string) :
  x ∈ keys (assign (assign [] o) o) → x ∈ keys o.
Proof.
  intros Hx. apply keys_assign in Hx as [Hx|Hx]; [|done].
  apply keys_assign in Hx as [Hx|Hx]; [|done].
  by apply elem_of_nil in Hx.
Qed.

Lemma own_replace_own {V : Type} (o : object V) (k k' : string) (v : V) :
  is_Some (own o k) →
  own (replace_own o k v) k' = if decide (k = k') then Some v else own o k'.
Proof.
  induction o as [|[k0 v0] o IH]; simpl; intros Hk.
  - by destruct Hk.
  - destruct (decide (k0 = k)) as [->|Hne]; simpl.
    + by destruct (decide (k = k')).
    + destruct (decide (k0 = k')) as [->|]; [by rewrite decide_False|].
      by apply IH.
Qed.

Lemma own_insert_index {V : Type} (n : N) (o : object V) (k k' : string) (v : V) :
  own o k = None →
  own (insert_index n k v o) k' = if decide (k = k') then Some v else own o k'.
Proof.
  induction o as [|[k0 v0] o IH]; simpl; intros Hk; [done|].
  destruct (decide (k0 = k)) as [->|Hne]; [done|].
  destruct (array_index k0) as [n0|]; [destruct (decide (n < n0)%N)|]; simpl;
    try done.
  destruct (decide (k0 = k')) as [->|]; [by rewrite decide_False|].
  by apply IH.
Qed.

Lemma own_snoc {V : Type} (o : object V) (k k' : string) (v : V) :
  own o k = None →
  own (o ++ [(k, v)]) k' = if decide (k = k') then Some v else own o k'.
Proof.
  induction o as [|[k0 v0] o IH]; simpl; intros Hk.
  - by destruct (decide (k = k')).
  - destruct (decide (k0 = k)) as [->|Hne]; [done|].
    destruct (decide (k0 = k')) as [->|]; [by rewrite decide_False|].
    by apply IH.
Qed.

(** Reading after [o[k] = v]. *)
Lemma own_set {V : Type} (o : object V) (k k' : string) (v : V) :
  own (set o k v) k' = if decide (k = k') then Some v else own o k'.
Proof.
  unfold set. destruct (own o k) as [v0|] eqn:Hk.
  - apply own_replace_own. by rewrite Hk.
  - destruct (array_index k); [by apply own_insert_index|by apply own_snoc].
Qed.

Lemma fold_left_fixed {A B : Type} (f : A → B → A) (l : list B) (a : A) :
  (∀ x, x ∈ l → f a x = a) → fold_left f l a = a.
Proof.
  induction l as [|x l IH]; intros Hfix; simpl; [done|].
  rewrite Hfix by left. apply IH. intros y Hy. apply Hfix. by right.
Qed.

Lemma fold_left_agree {A B : Type} (f g : A → B → A) (l : list B) (a : A) :
  (∀ b x, x ∈ l → f b x = g b x) → fold_left f l a = fold_left g l a.
Proof.
  revert a. induction l as [|x l IH]; intros a Hfg; simpl; [done|].
  rewrite Hfg by left. apply IH. intros b y Hy. apply Hfg. by right.
Qed.

Lemma own_None_keys {V : Type} (o : object V) (k : string) :
  own o k = None → k ∉ keys o.
Proof.
  intros Hk Hin. apply own_is_Some in Hin as [v Hv]. congruence.
Qed.

Lemma keys_insert_index_perm {V : Type} (n : N) (o : object V) (k : string) (v : V) :
  keys (insert_index n k v o) ≡ₚ k :: keys o.
Proof.
  unfold keys. induction o as [|[k' v'] o IH]; simpl; [done|].
  destruct (array_index k') as [n'|]; [destruct (decide (n < n')%N)|]; csimpl;
    try done.
  rewrite IH. apply perm_swap.
Qed.

(** An object never comes to own a key twice. *)
Lemma NoDup_keys_set {V : Type} (o : object V) (k : string) (v : V) :
  NoDup (keys o) → NoDup (keys (set o k v)).
Proof.
  intros Hnd. unfold set. destruct (own o k) as [v0|] eqn:Hk.
  - by rewrite keys_replace_own.
  - apply own_None_keys in Hk. destruct (array_index k).
    + rewrite keys_insert_index_perm. by apply NoDup_cons.
    + unfold keys in *. rewrite fmap_app. csimpl.
      apply NoDup_app. split_and!; [done| |apply NoDup_singleton].
      by intros x Hx ->%list_elem_of_singleton.
Qed.

Lemma NoDup_keys_assign {V : Type} (target source : object V) :
  NoDup (keys target) → NoDup (keys (assign target source)).
Proof.
  unfold assign. revert target.
  induction source as [|[k v] source IH]; intros target Hnd; simpl; [done|].
  by apply IH, NoDup_keys_set.
Qed.

End JsObjectFacts.

(** ** The attribute diff *)

Module DiffFacts.
Import JsValue JsObject JsObjectFacts Vdom.

(** Diffing an object against itself reports nothing as long as no value
    is a function or [NaN]. *)
Lemma lite_diff_same (attributes : object value) :
  forallb (λ kv, stable_value kv.2) attributes = true →
  Lite.diff attributes attributes = [].
Proof.
  intros Hstable. unfold Lite.diff. apply fold_left_fixed. intros k Hk.
  apply keys_assign_same, own_is_Some in Hk as [v Hv].
  unfold get. rewrite Hv.
  apply own_elem_of in Hv.
  rewrite forallb_forall in Hstable.
  specialize (Hstable (k, v)). simpl in Hstable.
  assert (stable_value v = true) as Hs.
  { apply Hstable. by apply list_elem_of_In. }
  unfold stable_value in Hs. apply andb_true_iff in Hs as [Hf He].
  apply negb_true_iff in Hf. rewrite Hf, He. done.
Qed.

(** The loop of the utils copy keeps the keys its test selects, each once. *)
Lemma utils_diff_loop (original successor : object value)
    (l modifiedKeys : list string) :
  fold_left (λ modifiedKeys key,
    if isFunction (get original key) || isFunction (get successor key)
    then modifiedKeys ++ [key]
    else if negb (strict_eq (get original key) (get successor key))
    then modifiedKeys ++ [key]
    else modifiedKeys) l modifiedKeys
  = modifiedKeys ++ filter (λ key,
      isFunction (get original key) || isFunction (get successor key)
      || negb (strict_eq (get original key) (get successor key)) = true) l.
Proof.
  revert modifiedKeys.
  induction l as [|k l IH]; intros acc; simpl; [by rewrite app_nil_r|].
  rewrite IH.
  destruct (isFunction (get original k) || isFunction (get successor k)) eqn:Hf;
    simpl.
  - rewrite filter_cons_True by (by rewrite Hf). by rewrite <- app_assoc.
  - destruct (strict_eq (get original k) (get successor k)) eqn:He; simpl.
    + by rewrite filter_cons_False by (by rewrite Hf, He).
    + rewrite filter_cons_True by (by rewrite Hf, He). by rewrite <- app_assoc.
Qed.

Lemma utils_diff_filter (original successor : object value) :
  Utils.diff original successor
  = filter (λ key,
      isFunction (get original key) || isFunction (get successor key)
      || negb (strict_eq (get original key) (get successor key)) = true)
      (keys (assign (assign [] original) successor)).
Proof. unfold Utils.diff. cbv zeta. by rewrite utils_diff_loop. Qed.

End DiffFacts.

(** ** Updating a tree to itself *)

Module UpdateFacts.
Import JsArray JsValue JsObject JsResult LongestChain Vdom.
Import JsArrayFacts JsObjectFacts DiffFacts.

Lemma extend_chain_same (c : list key) (i : Z) (steps : nat) (inc cl : Z) :
  extend_chain c c i i steps inc cl = cl + Z.of_nat steps.
Proof.
  revert inc cl. induction steps as [|steps IH]; intros inc cl; simpl; [lia|].
  rewrite decide_True by done. rewrite IH. lia.
Qed.

(** Against itself an array is one chain from the first index to the last. *)
Lemma longestChain_same (c : list key) :
  c ≠ [] →
  longestChain c c = {| start := 0; end_ := Z.of_nat (length c) - 1 |}.
Proof.
  destruct c as [|x c]; [done|]. intros _.
  unfold longestChain. cbn [length scan].
  assert (chain_at (x :: c) (x :: c) (Z.of_nat (S (length c))) 0
          = Z.of_nat (S (length c))) as ->.
  { unfold chain_at. cbn [at_index]. simpl (at_index _ 0).
    unfold indexOf. simpl. rewrite decide_True by done.
    rewrite extend_chain_same. lia. }
  rewrite decide_True by lia.
  unfold reaches_half. rewrite bool_decide_eq_true_2 by lia.
  f_equal; lia.
Qed.

Lemma move_children_same (node : path) (children : object vnode) (c : list key) :
  c ≠ [] → move_children node children c c = Ok [].
Proof.
  intros Hc. unfold move_children. rewrite longestChain_same by done. simpl.
  change 0 with (Z.of_nat 0). rewrite slice_prefix by lia.
  replace (Z.of_nat (length c) - 1 + 1) with (Z.of_nat (length c)) by lia.
  rewrite slice_suffix by lia. rewrite drop_all. done.
Qed.

Lemma depth_child (tagName : string) (attributes : object value)
    (children : object vnode) (childOrder : list key) (k : string) (c : vnode) :
  (k, c) ∈ children →
  (depth c < depth (Element tagName attributes children childOrder))%nat.
Proof.
  simpl. induction children as [|[k' c'] children IH]; intros Hin.
  - by apply elem_of_nil in Hin.
  - apply elem_of_cons in Hin as [Heq|Hin]; simpl.
    + simplify_eq. lia.
    + specialize (IH Hin). lia.
Qed.

(** Updating a tree to itself when no attribute holds a function or [NaN]:
    with fuel for its depth the call returns, leaves the tree as it is and
    touches no DOM node. *)
Lemma _update_same (fuel : nat) (T : vnode) (parent : path) (parentKey : key) :
  (depth T < fuel)%nat →
  stable_attributes T = true →
  _update fuel (Some T) (Some T) parent parentKey = Some (Ok (Some T, [])).
Proof.
  revert T parent parentKey.
  induction fuel as [|fuel IH]; intros T parent parentKey Hdepth Hstable; [lia|].
  destruct T as [text|tagName attributes children childOrder];
    cbn [_update tagName_of].
  - destruct (decide (None ≠ None)) as [Hne|_]; [done|].
    destruct (decide (text ≠ text)) as [Hne|_]; done.
  - destruct (decide (Some tagName ≠ Some tagName)) as [Hne|_]; [done|].
    simpl in Hstable. apply andb_true_iff in Hstable as [Hattrs Hchildren].
    rewrite lite_diff_same by done. cbn [apply_attributes fold_left].
    rewrite fold_left_fixed.
    + destruct childOrder as [|k0 childOrder]; [done|].
      rewrite move_children_same by done. done.
    + intros k Hk.
      apply keys_assign_same, own_is_Some in Hk as [c Hc].
      rewrite Hc. pose proof (own_elem_of _ _ _ Hc) as Hin.
      rewrite IH.
      * rewrite set_own_id by done. done.
      * pose proof (depth_child tagName attributes children childOrder k c Hin). lia.
      * rewrite forallb_forall in Hchildren.
        apply (Hchildren (k, c)). by apply list_elem_of_In.
Qed.

End UpdateFacts.

(** ** The moves [_update] records *)

Module MoveFacts.
Import JsArray JsValue JsObject JsResult LongestChain Reorder Vdom HostOrder.

Lemma slice_elem_of {A : Type} (arr : list A) (b : Z) (e : option Z) (x : A) :
  x ∈ slice arr b e → x ∈ arr.
Proof.
  unfold slice. intros Hx. by apply subseteq_take, subseteq_drop in Hx.
Qed.

(** One move loop over keys that all name a child. *)
Lemma fold_move_child (op : path → key → host_op) (node : path)
    (children : object vnode) (ks : list key) (acc : list host_op) :
  (∀ k, k ∈ ks → is_Some (own children k)) →
  fold_left (move_child op node children) ks (Ok acc)
  = Ok (acc ++ (op node <$> ks)).
Proof.
  revert acc. induction ks as [|k ks IH]; intros acc Hown; simpl.
  - by rewrite app_nil_r.
  - destruct (Hown k) as [c Hc]; [left|]. rewrite Hc.
    rewrite IH by (intros k' Hk'; apply Hown; by right).
    by rewrite <- app_assoc.
Qed.

Lemma run_moves_prepend (node : path) (ks live : list key) :
  run_moves (InsertBeforeFirst node <$> ks) live
  = fold_left (λ dom k, insertBefore_first k dom) ks live.
Proof.
  unfold run_moves. revert live. induction ks as [|k ks IH]; intros live; [done|].
  csimpl. by rewrite IH.
Qed.

Lemma run_moves_append (node : path) (ks live : list key) :
  run_moves (AppendChild node <$> ks) live
  = fold_left (λ dom k, appendChild k dom) ks live.
Proof.
  unfold run_moves. revert live. induction ks as [|k ks IH]; intros live; [done|].
  csimpl. by rewrite IH.
Qed.

(** The operations of the two move loops, applied to the live order, are the
    two phases of [reorder]. *)
Lemma move_children_reorder (node : path) (children : object vnode)
    (childOrder target : list key) :
  (∀ k, k ∈ target → is_Some (own children k)) →
  ∃ ops, move_children node children childOrder target = Ok ops ∧
         run_moves ops childOrder = reorder childOrder target.
Proof.
  intros Hown. unfold move_children, reorder. cbv zeta.
  set (r := longestChain childOrder target).
  rewrite fold_move_child.
  2:{ intros k Hk. apply Hown. apply list_elem_of_In, in_rev, list_elem_of_In in Hk.
      by eapply slice_elem_of. }
  rewrite fold_move_child.
  2:{ intros k Hk. apply Hown. by eapply slice_elem_of. }
  eexists. split; [done|]. simpl.
  unfold run_moves. rewrite fold_left_app.
  fold (run_moves (InsertBeforeFirst node <$> rev (slice target 0 (Some (start r))))
          childOrder).
  rewrite run_moves_prepend.
  fold (run_moves (AppendChild node <$> slice target (end_ r + 1) None)
          (fold_left (λ dom k, insertBefore_first k dom)
             (rev (slice target 0 (Some (start r)))) childOrder)).
  by rewrite run_moves_append.
Qed.

(** The operations of the two move loops, spelled out. *)
Lemma move_children_explicit (node : path) (children : object vnode)
    (childOrder target : list key) :
  (∀ k, k ∈ target → is_Some (own children k)) →
  let r := longestChain childOrder target in
  move_children node children childOrder target
  = Ok ((InsertBeforeFirst node <$> rev (slice target 0 (Some (start r))))
        ++ (AppendChild node <$> slice target (end_ r + 1) None)).
Proof.
  intros Hown. unfold move_children. cbv zeta.
  rewrite fold_move_child.
  2:{ intros k Hk. apply Hown. apply list_elem_of_In, in_rev, list_elem_of_In in Hk.
      by eapply slice_elem_of. }
  rewrite fold_move_child; [done|].
  intros k Hk. apply Hown. by eapply slice_elem_of.
Qed.

End MoveFacts.

(** ** What [_update] leaves in the vdom *)

Module RoundTripFacts.
Import JsArray JsValue JsObject JsResult LongestChain Reorder Vdom HostOrder VdomSpec.
Import JsArrayFacts JsObjectFacts DiffFacts UpdateFacts MoveFacts.

Lemma own_keys {V : Type} (o : object V) (k : string) :
  is_Some (own o k) → k ∈ keys o.
Proof.
  intros [v Hv]. apply own_elem_of in Hv. unfold keys.
  apply list_elem_of_fmap. by exists (k, v).
Qed.

Lemma own_delete {V : Type} (o : object V) (k k' : string) :
  own (delete o k) k' = if decide (k = k') then None else own o k'.
Proof.
  unfold delete, object. induction o as [|[k0 v0] o IH].
  - simpl. by case_decide.
  - rewrite filter_cons. cbn [own fst].
    destruct (decide (k0 ≠ k)) as [Hne|Heq].
    + cbn [own]. rewrite IH.
      destruct (decide (k0 = k')) as [->|]; [by rewrite decide_False|done].
    + apply dec_stable in Heq as ->. rewrite IH.
      destruct (decide (k = k')); [done|done].
Qed.

Lemma own_assign {V : Type} (target source : object V) (k : string) :
  is_Some (own (assign target source) k)
  ↔ is_Some (own target k) ∨ is_Some (own source k).
Proof.
  unfold assign. revert target.
  induction source as [|[k0 v0] source IH]; intros target; simpl.
  - split; [by left|]. intros [?|[? ?]]; done.
  - rewrite IH, own_set. destruct (decide (k0 = k)) as [->|].
    + split; [intros _; right; by eexists|intros _; left; by eexists].
    + tauto.
Qed.

(** The keys both loops of [_update] walk: those of either object. *)
Lemma keys_union {V : Type} (a b : object V) (k : string) :
  k ∈ keys (assign (assign [] a) b) ↔ is_Some (own a k) ∨ is_Some (own b k).
Proof.
  split.
  - intros Hk%own_is_Some. apply own_assign in Hk as [Hk|Hk]; [|by right].
    apply own_assign in Hk as [[? Hk]|Hk]; [done|by left].
  - intros Hk. apply own_keys, own_assign.
    destruct Hk as [Hk|Hk]; [left|by right]. apply own_assign. by right.
Qed.

Lemma strict_eq_true (a b : value) : strict_eq a b = true → a = b.
Proof.
  destruct a, b; simpl; try done; try (by intros ?%bool_decide_eq_true).
  match goal with
  | |- number_strict_eq ?x ?y = true → _ => destruct x, y; simpl; try done
  end; by intros ?%bool_decide_eq_true; f_equal.
Qed.

Lemma lite_diff_step (b1 b2 : bool) (acc : list string) (x k : string) :
  k ∈ (if b2 then (if b1 then acc ++ [x] else acc) ++ [x]
       else if b1 then acc ++ [x] else acc)
  ↔ k ∈ acc ∨ (k = x ∧ b1 || b2 = true).
Proof.
  destruct b1, b2; simpl; rewrite ?elem_of_app, ?list_elem_of_singleton;
    intuition congruence.
Qed.

(** Membership in the array the bundled diff returns. *)
Lemma lite_diff_elem_of (original successor : object value) (k : string) :
  k ∈ Lite.diff original successor ↔
  k ∈ keys (assign (assign [] original) successor) ∧
  (isFunction (get original k) || isFunction (get successor k)
   || negb (strict_eq (get original k) (get successor k))) = true.
Proof.
  unfold Lite.diff. cbv zeta.
  generalize (keys (assign (assign [] original) successor)). intros l.
  assert (∀ acc, k ∈ fold_left (λ modifiedKeys key,
      if negb (strict_eq (get original key) (get successor key))
      then (if isFunction (get original key) || isFunction (get successor key)
            then modifiedKeys ++ [key] else modifiedKeys) ++ [key]
      else if isFunction (get original key) || isFunction (get successor key)
           then modifiedKeys ++ [key] else modifiedKeys) l acc
    ↔ k ∈ acc ∨ (k ∈ l ∧
        (isFunction (get original k) || isFunction (get successor k)
         || negb (strict_eq (get original k) (get successor k))) = true)) as H.
  { induction l as [|x l IH]; intros acc; simpl.
    - rewrite elem_of_nil. tauto.
    - rewrite IH, lite_diff_step, elem_of_cons. clear IH.
      split; [intros [[?|[-> ?]]|[? ?]]|intros [?|[[->|?] ?]]]; tauto. }
  rewrite H, elem_of_nil. tauto.
Qed.

Lemma apply_attributes_own (node : path) (ks : list string)
    (original successor : object value) (ops : list host_op) (k : string) :
  own (fold_left (λ '(attributes, ops) key,
         let v := get successor key in
         (set attributes key v, ops ++ [SetProperty node key v]))
       ks (original, ops)).1 k
  = if decide (k ∈ ks) then Some (get successor k) else own original k.
Proof.
  revert original ops. induction ks as [|x ks IH]; intros original ops; simpl.
  - destruct (decide (k ∈ [])) as [Hk|_]; [by apply elem_of_nil in Hk|done].
  - rewrite IH, own_set.
    destruct (decide (k ∈ ks)) as [Hin|Hout].
    + rewrite decide_True; [done|by right].
    + destruct (decide (x = k)) as [->|Hne].
      * rewrite decide_True; [done|left].
      * rewrite decide_False; [done|]. intros [Heq|Hin]%elem_of_cons; [congruence|done].
Qed.

(** After the attribute loop every name reads as in the successor. *)
Lemma apply_attributes_get (node : path) (original successor : object value)
    (k : string) :
  get (apply_attributes node (Lite.diff original successor) original successor).1 k
  = get successor k.
Proof.
  unfold get at 1. unfold apply_attributes. rewrite apply_attributes_own.
  destruct (decide (k ∈ Lite.diff original successor)) as [Hin|Hout]; [done|].
  rewrite lite_diff_elem_of, keys_union in Hout.
  destruct (own original k) as [v|] eqn:Hv.
  - assert (strict_eq (get original k) (get successor k) = true) as He.
    { destruct (strict_eq (get original k) (get successor k)) eqn:He; [done|].
      exfalso. apply Hout. split; [left; by eexists|].
      by rewrite orb_true_r. }
    apply strict_eq_true in He. unfold get in He at 1. by rewrite Hv in He.
  - destruct (own successor k) as [v|] eqn:Hv'.
    + assert (strict_eq (get original k) (get successor k) = true) as He.
      { destruct (strict_eq (get original k) (get successor k)) eqn:He; [done|].
        exfalso. apply Hout. split; [right; by eexists|].
        by rewrite orb_true_r. }
      apply strict_eq_true in He. unfold get in He at 1. by rewrite Hv in He.
    + unfold get. by rewrite Hv'.
Qed.

Lemma fold_left_invariant {A B : Type} (f : A → B → A)
    (I : list B → A → Prop) (l : list B) (a : A) :
  I [] a →
  (∀ seen x rest acc, l = seen ++ x :: rest → I seen acc → I (seen ++ [x]) (f acc x)) →
  I l (fold_left f l a).
Proof.
  intros Hinit Hstep.
  assert (∀ rest seen acc, l = seen ++ rest → I seen acc →
            I (seen ++ rest) (fold_left f rest acc)) as H.
  { induction rest as [|x rest IH]; intros seen acc Hl Hacc; simpl.
    - by rewrite app_nil_r.
    - rewrite (cons_middle x seen rest), app_assoc. apply IH.
      + by rewrite <- app_assoc.
      + by eapply Hstep. }
  by apply (H l [] a).
Qed.

Lemma similar_refl (v : vnode) : similar v v.
Proof.
  assert (∀ n v, (depth v < n)%nat → similar v v) as H.
  { induction n as [|n IH]; intros [text|tagName attributes children childOrder] Hd;
      try lia; constructor; [done|].
    intros k. destruct (own children k) as [c|] eqn:Hc; constructor.
    apply IH. apply own_elem_of in Hc.
    pose proof (depth_child tagName attributes children childOrder k c Hc). lia. }
  by apply (H (S (depth v))); lia.
Qed.

Lemma well_keyed_child (tagName : string) (attributes : object value)
    (children : object vnode) (childOrder : list key) (k : string) (c : vnode) :
  well_keyed (Element tagName attributes children childOrder) = true →
  own children k = Some c → well_keyed c = true.
Proof.
  simpl. intros [_ Hall]%andb_true_iff Hc. rewrite forallb_forall in Hall.
  apply own_elem_of in Hc. apply (Hall (k, c)). by apply list_elem_of_In.
Qed.

Lemma well_keyed_order (tagName : string) (attributes : object value)
    (children : object vnode) (childOrder : list key) (k : string) :
  well_keyed (Element tagName attributes children childOrder) = true →
  k ∈ childOrder → is_Some (own children k).
Proof.
  simpl. intros [Hall _]%andb_true_iff Hk. rewrite forallb_forall in Hall.
  apply list_elem_of_In, Hall in Hk. by apply bool_decide_eq_true in Hk.
Qed.

(** Updating [o] to a well keyed [s]: with fuel for the depth of both the
    call returns a tree that reads like [s]. *)
Lemma _update_similar (fuel : nat) (o s : vnode) (parent : path) (parentKey : key) :
  well_keyed s = true → (depth o < fuel)%nat → (depth s < fuel)%nat →
  ∃ T' ops, _update fuel (Some o) (Some s) parent parentKey = Some (Ok (Some T', ops))
            ∧ similar T' s.
Proof.
  revert o s parent parentKey.
  induction fuel as [|fuel IH]; intros o s parent parentKey Hwk Ho Hs; [lia|].
  cbn [_update].
  destruct (decide (tagName_of o ≠ tagName_of s)) as [Hne|Heq].
  { eexists _, _. split; [done|]. apply similar_refl. }
  apply dec_stable in Heq.
  destruct o as [text|tagName attributes children childOrder],
    s as [text'|tagName' attributes' children' childOrder']; simpl in Heq; try done.
  { destruct (decide (text ≠ text')) as [|Heq'].
    - eexists _, _. split; [done|]. constructor.
    - apply dec_stable in Heq' as ->. eexists _, _. split; [done|]. constructor. }
  simplify_eq.
  pose proof (apply_attributes_get (parent ++ [parentKey]) attributes attributes') as Hget.
  destruct (apply_attributes (parent ++ [parentKey])
              (Lite.diff attributes attributes') attributes attributes')
    as [attributes1 ops1].
  simpl in Hget.
  match goal with
  | |- context [fold_left ?f ?l ?a] =>
      pose proof (fold_left_invariant f
        (λ seen acc, ∃ children1 childOrder1 ops,
           acc = Some (Ok (children1, childOrder1, ops)) ∧
           (∀ k, k ∈ seen → option_Forall2 similar (own children1 k) (own children' k)) ∧
           (∀ k, k ∉ seen → own children1 k = own children k)) l a) as Hloop
  end.
  destruct Hloop as (children1 & childOrder1 & ops & -> & Hseen & Hrest).
  { exists children, childOrder, ops1. split; [done|]. split; [|done].
    intros k Hk. by apply elem_of_nil in Hk. }
  { intros seen x rest acc Hl (children1 & childOrder1 & ops & -> & Hseen & Hrest).
    assert (x ∉ seen) as Hx.
    { pose proof (NoDup_keys_assign (assign [] children) children'
        (NoDup_keys_assign [] children (NoDup_nil_2))) as Hnd.
      rewrite Hl in Hnd. apply NoDup_app in Hnd as (_ & Hnd & _).
      intros Hin. apply (Hnd x Hin). left. }
    assert (is_Some (own children x) ∨ is_Some (own children' x)) as Hsome.
    { apply keys_union. rewrite Hl. apply elem_of_app. right. left. }
    rewrite (Hrest x Hx).
    destruct (own children x) as [oc|] eqn:Hoc, (own children' x) as [sc|] eqn:Hsc.
    - destruct (IH oc sc (parent ++ [parentKey]) x) as (T' & ops' & -> & Hsim).
      + by eapply well_keyed_child.
      + apply own_elem_of in Hoc.
        pose proof (depth_child tagName' attributes children childOrder x oc Hoc). lia.
      + apply own_elem_of in Hsc.
        pose proof (depth_child tagName' attributes' children' childOrder' x sc Hsc). lia.
      + eexists _, _, _. split; [done|]. split.
        * intros k [Hk| ->%list_elem_of_singleton]%elem_of_app; rewrite own_set.
          -- rewrite decide_False by (by intros ->). by apply Hseen.
          -- rewrite decide_True by done. rewrite Hsc. by constructor.
        * intros k Hk. rewrite elem_of_app, list_elem_of_singleton in Hk.
          rewrite own_set, decide_False by (intros ->; tauto). apply Hrest. tauto.
    - destruct fuel as [|fuel]; [simpl in Ho, Hs; lia|]. cbn [_update].
      eexists _, _, _. split; [done|]. split.
      * intros k [Hk| ->%list_elem_of_singleton]%elem_of_app; rewrite own_delete.
        -- rewrite decide_False by (by intros ->). by apply Hseen.
        -- rewrite decide_True by done. rewrite Hsc. constructor.
      * intros k Hk. rewrite elem_of_app, list_elem_of_singleton in Hk.
        rewrite own_delete, decide_False by (intros ->; tauto). apply Hrest. tauto.
    - destruct fuel as [|fuel]; [simpl in Ho, Hs; lia|]. cbn [_update].
      eexists _, _, _. split; [done|]. split.
      * intros k [Hk| ->%list_elem_of_singleton]%elem_of_app; rewrite own_set.
        -- rewrite decide_False by (by intros ->). by apply Hseen.
        -- rewrite decide_True by done. rewrite Hsc. constructor. apply similar_refl.
      * intros k Hk. rewrite elem_of_app, list_elem_of_singleton in Hk.
        rewrite own_set, decide_False by (intros ->; tauto). apply Hrest. tauto.
    - destruct Hsome as [[? ?]|[? ?]]; done. }
  assert (∀ k, option_Forall2 similar (own children1 k) (own children' k)) as Hall.
  { intros k.
    destruct (decide (k ∈ keys (assign (assign [] children) children'))) as [Hk|Hk];
      [by apply Hseen|].
    rewrite (Hrest k Hk). rewrite keys_union in Hk.
    destruct (own children k) eqn:Hc; [exfalso; apply Hk; left; by eexists|].
    destruct (own children' k) eqn:Hc'; [exfalso; apply Hk; right; by eexists|].
    constructor. }
  destruct childOrder1 as [|k0 childOrder1].
  { eexists _, _. split; [done|]. by constructor. }
  destruct (move_children_reorder (parent ++ [parentKey]) children1
              (k0 :: childOrder1) childOrder') as (moves & -> & _).
  { intros k Hk. destruct (well_keyed_order _ _ _ _ k Hwk Hk) as [c Hc].
    specialize (Hall k). rewrite Hc in Hall. inversion Hall. by eexists. }
  eexists _, _. split; [done|]. by constructor.
Qed.

End RoundTripFacts.

(** ** The order [_update] leaves the DOM children in *)

Module LiveFacts.
Import JsArray JsValue JsObject JsResult LongestChain Reorder Vdom HostOrder VdomSpec.
Import HostChildren.
Import JsArrayFacts JsObjectFacts DiffFacts ReorderFacts UpdateFacts MoveFacts RoundTripFacts.

Lemma inside_deeper (parent : path) (parentKey k : key) (op : host_op) :
  inside (parent ++ [parentKey]) k op → inside parent parentKey op.
Proof.
  assert (∀ p, (parent ++ [parentKey]) ++ [k] `prefix_of` p →
               parent ++ [parentKey] `prefix_of` p) as Hp.
  { intros p Hp. etrans; [|done]. by apply prefix_app_r. }
  destruct op; simpl; try apply Hp.
  intros [[-> ->]|H]; right; [done|by apply Hp].
Qed.

Lemma apply_attributes_ops (node : path) (ks : list string)
    (original successor : object value) (ops : list host_op)
    (P : host_op → Prop) :
  (∀ k v, P (SetProperty node k v)) → Forall P ops →
  Forall P (fold_left (λ '(attributes, ops) key,
         let v := get successor key in
         (set attributes key v, ops ++ [SetProperty node key v]))
       ks (original, ops)).2.
Proof.
  intros HP. revert original ops.
  induction ks as [|x ks IH]; intros original ops Hops; simpl; [done|].
  apply IH. apply Forall_app. split; [done|]. by constructor.
Qed.

Lemma move_children_ops (node : path) (children : object vnode)
    (childOrder target : list key) (ops : list host_op) (P : host_op → Prop) :
  (∀ k, P (InsertBeforeFirst node k)) → (∀ k, P (AppendChild node k)) →
  move_children node children childOrder target = Ok ops → Forall P ops.
Proof.
  intros HI HA. unfold move_children. cbv zeta.
  generalize (slice target (end_ (longestChain childOrder target) + 1) None).
  generalize (rev (slice target 0 (Some (start (longestChain childOrder target))))).
  intros front back.
  assert (∀ op ks acc r, (∀ k, P (op node k)) →
    (∀ ops0, acc = Ok ops0 → Forall P ops0) →
    fold_left (move_child op node children) ks acc = Ok r → Forall P r) as H.
  { intros op ks. induction ks as [|k ks IH]; intros acc r Hop Hacc; simpl.
    - intros ->. by apply Hacc.
    - apply IH; [done|]. intros ops0. destruct acc as [ops1|]; simpl; [|done].
      destruct (own children k); [|done]. intros ?; simplify_eq.
      apply Forall_app. split; [by apply Hacc|]. by constructor. }
  apply H; [done|]. intros ops0. apply H; [done|].
  intros ? ?; simplify_eq. constructor.
Qed.

(** Everything [_update] does for a child it finds on both sides happens at
    that child or below it. *)
Lemma _update_inside (fuel : nat) (o s : vnode) (parent : path) (parentKey : key)
    (r : option vnode) (ops : list host_op) :
  _update fuel (Some o) (Some s) parent parentKey = Some (Ok (r, ops)) →
  Forall (inside parent parentKey) ops.
Proof.
  revert o s parent parentKey r ops.
  induction fuel as [|fuel IH]; intros o s parent parentKey r ops; [done|].
  cbn [_update].
  destruct (decide (tagName_of o ≠ tagName_of s)) as [Hne|Heq].
  { intros [= <- <-]. apply Forall_singleton. simpl. by left. }
  destruct o as [text|tagName attributes children childOrder],
    s as [text'|tagName' attributes' children' childOrder']; try done.
  { destruct (decide (text ≠ text')); intros [= <- <-];
      [apply Forall_singleton; simpl; reflexivity|by apply Forall_nil]. }
  pose proof (apply_attributes_ops (parent ++ [parentKey])
    (Lite.diff attributes attributes') attributes attributes' []
    (inside parent parentKey)) as Hattrs.
  unfold apply_attributes.
  destruct (fold_left _ (Lite.diff attributes attributes') (attributes, []))
    as [attributes1 ops1].
  simpl in Hattrs.
  match goal with
  | |- context [fold_left ?f ?l ?a] =>
      pose proof (fold_left_invariant f
        (λ _ acc, ∀ children1 childOrder1 ops,
           acc = Some (Ok (children1, childOrder1, ops)) →
           Forall (inside parent parentKey) ops) l a) as Hloop;
      destruct (fold_left f l a) as [[[[children1 childOrder1] ops2]|]|]
  end; try done.
  assert (Forall (inside parent parentKey) ops2) as Hops2.
  { eapply Hloop; [| |done].
    - intros ? ? ? [= <- <- <-]. apply Hattrs; [|done]. intros k v. simpl. reflexivity.
    - intros _ x _ acc _ Hacc c2 co2 ops3.
      destruct acc as [[[[c1 co1] ops0]|]|]; [|done..].
      destruct (_update fuel (own c1 x) (own children' x) (parent ++ [parentKey]) x)
        as [[[[child|] ops']|]|] eqn:Hchild; try done;
        intros ?; simplify_eq; (apply Forall_app; split; [by eapply Hacc|]);
        (destruct (own c1 x) as [oc|] eqn:Hoc, (own children' x) as [sc|] eqn:Hsc;
         [eapply Forall_impl; [by eapply IH|]; intros op; apply inside_deeper
         |destruct fuel; simplify_eq/=; apply Forall_singleton; simpl; reflexivity
         |destruct fuel; simplify_eq/=; apply Forall_singleton; simpl; reflexivity
         |destruct fuel; simplify_eq/=]). }
  destruct childOrder1 as [|k0 childOrder1]; [intros ?; by simplify_eq|].
  destruct (move_children _ _ _ _) as [moves|] eqn:Hmoves; [|done].
  intros ?; simplify_eq. apply Forall_app. split; [done|].
  eapply move_children_ops; [| |done]; intros k; simpl; reflexivity.
Qed.

Lemma splice_indexOf (l : list key) (x : key) :
  NoDup l → x ∈ l → splice_one l (indexOf l x) = filter (λ y, y ≠ x) l.
Proof.
  intros Hnd [p Hp]%list_elem_of_lookup_1.
  rewrite (indexOf_NoDup l x p Hnd Hp).
  pose proof (lookup_lt_Some _ _ _ Hp) as Hlt.
  unfold splice_one, relative_index.
  rewrite decide_False by lia. rewrite Z.min_l by lia. rewrite Nat2Z.id.
  rewrite <- (take_drop_middle l p x Hp) at 3.
  rewrite <- (take_drop_middle l p x Hp) in Hnd.
  apply NoDup_app in Hnd as (_ & Hfront & [Hback _]%NoDup_cons).
  rewrite filter_app, filter_cons_False by (intros H; by apply H).
  rewrite !filter_all; [done|..].
  - intros y Hy ->. done.
  - intros y Hy ->. apply (Hfront x Hy). left.
Qed.

Lemma run_ops_app (node : path) (ops ops' : list host_op) (live : list key) :
  run_ops node (ops ++ ops') live = run_ops node ops' (run_ops node ops live).
Proof. unfold run_ops. by rewrite fold_left_app. Qed.

(** Operations that leave the children of [node] in their order. *)
Lemma run_ops_quiet (node : path) (ops : list host_op) (live : list key) :
  Forall (λ op, ∀ live, apply_op node live op = live) ops →
  run_ops node ops live = live.
Proof.
  unfold run_ops. induction 1 as [|op ops Hop _ IH]; simpl; [done|].
  by rewrite Hop.
Qed.

Lemma inside_quiet (node : path) (k : key) (op : host_op) (live : list key) :
  inside node k op → apply_op node live op = live.
Proof.
  assert (∀ p, node ++ [k] `prefix_of` p → p ≠ node) as Hp.
  { intros p Hpre%prefix_length ->. rewrite length_app in Hpre. simpl in Hpre. lia. }
  destruct op; simpl; try done; intros H%Hp; by rewrite decide_False.
Qed.

Lemma run_ops_moves (node : path) (ops : list host_op) (live : list key) :
  Forall (λ op, ∀ live, apply_op node live op = apply_move live op) ops →
  run_ops node ops live = run_moves ops live.
Proof.
  unfold run_ops, run_moves. intros H. revert live.
  induction H as [|op ops Hop _ IH]; intros live; simpl; [done|].
  by rewrite Hop.
Qed.

(** The order [_update] leaves the children of an element in. *)
Lemma _update_live (fuel : nat) (tagName : string)
    (attributes attributes' : object value) (children children' : object vnode)
    (childOrder childOrder' : list key) (parent : path) (parentKey : key) :
  top_keyed (Element tagName attributes children childOrder) →
  top_keyed (Element tagName attributes' children' childOrder') →
  well_keyed (Element tagName attributes' children' childOrder') = true →
  (depth (Element tagName attributes children childOrder) < fuel)%nat →
  (depth (Element tagName attributes' children' childOrder') < fuel)%nat →
  ∃ T' ops,
    _update fuel (Some (Element tagName attributes children childOrder))
      (Some (Element tagName attributes' children' childOrder')) parent parentKey
    = Some (Ok (Some T', ops)) ∧
    run_ops (parent ++ [parentKey]) ops childOrder = childOrder'.
Proof.
  intros [Hnd Hkeys] [Hnd' Hkeys'] Hwk Ho Hs.
  destruct fuel as [|fuel]; [lia|]. cbn [_update tagName_of].
  destruct (decide (Some tagName ≠ Some tagName)) as [|_]; [done|].
  set (node := parent ++ [parentKey]).
  pose proof (apply_attributes_ops node
    (Lite.diff attributes attributes') attributes attributes' []
    (λ op, ∀ live, apply_op node live op = live)) as Hattrs.
  unfold apply_attributes.
  destruct (fold_left _ (Lite.diff attributes attributes') (attributes, []))
    as [attributes1 ops1].
  simpl in Hattrs.
  assert (Forall (λ op, ∀ live, apply_op node live op = live) ops1) as Hops1.
  { apply Hattrs; [done|constructor]. }
  match goal with
  | |- context [fold_left ?f ?l ?a] =>
      pose proof (fold_left_invariant f
        (λ seen acc, ∃ children1 childOrder1 ops,
           acc = Some (Ok (children1, childOrder1, ops)) ∧
           (∀ k, k ∈ seen → is_Some (own children1 k) ↔ is_Some (own children' k)) ∧
           (∀ k, k ∉ seen → own children1 k = own children k) ∧
           NoDup childOrder1 ∧
           (∀ k, k ∈ childOrder1 ↔ is_Some (own children1 k)) ∧
           run_ops node ops childOrder = childOrder1) l a) as Hloop
  end.
  destruct Hloop
    as (children1 & childOrder1 & ops & -> & Hseen & Hrest & Hnd1 & Hkeys1 & Hrun).
  { exists children, childOrder, ops1. split_and!; try done.
    - intros k Hk. by apply elem_of_nil in Hk.
    - by apply run_ops_quiet. }
  { intros seen x rest acc Hl
      (children1 & childOrder1 & ops & -> & Hseen & Hrest & Hnd1 & Hkeys1 & Hrun).
    assert (x ∉ seen) as Hx.
    { pose proof (NoDup_keys_assign (assign [] children) children'
        (NoDup_keys_assign [] children (NoDup_nil_2))) as Hnd0.
      rewrite Hl in Hnd0. apply NoDup_app in Hnd0 as (_ & Hnd0 & _).
      intros Hin. apply (Hnd0 x Hin). left. }
    assert (is_Some (own children x) ∨ is_Some (own children' x)) as Hsome.
    { apply keys_union. rewrite Hl. apply elem_of_app. right. left. }
    pose proof (Hrest x Hx) as Hoc1.
    destruct (own children x) as [oc|] eqn:Hoc, (own children' x) as [sc|] eqn:Hsc;
      rewrite Hoc1.
    - destruct (_update_similar fuel oc sc node x) as (T' & ops' & Hchild & _).
      + by eapply well_keyed_child.
      + apply own_elem_of in Hoc.
        pose proof (depth_child tagName attributes children childOrder x oc Hoc). lia.
      + apply own_elem_of in Hsc.
        pose proof (depth_child tagName attributes' children' childOrder' x sc Hsc). lia.
      + rewrite Hchild. eexists _, _, _. split; [done|]. split_and!.
        * intros k [Hk| ->%list_elem_of_singleton]%elem_of_app; rewrite own_set.
          -- rewrite decide_False by (by intros ->). by apply Hseen.
          -- rewrite decide_True by done. rewrite Hsc. split; by eexists.
        * intros k Hk. rewrite elem_of_app, list_elem_of_singleton in Hk.
          rewrite own_set, decide_False by (intros ->; tauto). apply Hrest. tauto.
        * done.
        * intros k. rewrite own_set. destruct (decide (x = k)) as [<-|]; [|done].
          rewrite Hkeys1, Hoc1. split; by eexists.
        * rewrite run_ops_app, Hrun. apply run_ops_quiet.
          eapply Forall_impl; [by eapply _update_inside|].
          intros op Hop live. by eapply inside_quiet.
    - destruct fuel as [|fuel]; [simpl in Ho, Hs; lia|]. cbn [_update].
      assert (x ∈ childOrder1) as Hin by (apply Hkeys1; rewrite Hoc1; by eexists).
      eexists _, _, _. split; [done|]. split_and!.
      * intros k [Hk| ->%list_elem_of_singleton]%elem_of_app; rewrite own_delete.
        -- rewrite decide_False by (by intros ->). by apply Hseen.
        -- rewrite decide_True by done. rewrite Hsc. split; intros [? ?]; done.
      * intros k Hk. rewrite elem_of_app, list_elem_of_singleton in Hk.
        rewrite own_delete, decide_False by (intros ->; tauto). apply Hrest. tauto.
      * rewrite splice_indexOf by done. by apply NoDup_filter.
      * intros k. rewrite splice_indexOf by done.
        rewrite list_elem_of_filter, own_delete, Hkeys1.
        destruct (decide (x = k)) as [<-|];
          [|split; [tauto|intros ?; split; [congruence|done]]].
        split; [tauto|intros [? ?]; done].
      * rewrite run_ops_app, Hrun. unfold run_ops. simpl.
        rewrite decide_True by done. by rewrite splice_indexOf.
    - destruct fuel as [|fuel]; [simpl in Ho, Hs; lia|]. cbn [_update].
      assert (x ∉ childOrder1) as Hout.
      { rewrite Hkeys1, Hoc1. intros [? ?]; done. }
      eexists _, _, _. split; [done|]. split_and!.
      * intros k [Hk| ->%list_elem_of_singleton]%elem_of_app; rewrite own_set.
        -- rewrite decide_False by (by intros ->). by apply Hseen.
        -- rewrite decide_True by done. rewrite Hsc. split; by eexists.
      * intros k Hk. rewrite elem_of_app, list_elem_of_singleton in Hk.
        rewrite own_set, decide_False by (intros ->; tauto). apply Hrest. tauto.
      * apply NoDup_app. split_and!; [done| |apply NoDup_singleton].
        by intros y Hy ->%list_elem_of_singleton.
      * intros k. rewrite elem_of_app, list_elem_of_singleton, own_set, Hkeys1.
        destruct (decide (x = k)) as [<-|];
          [|split; [intros [?|?]; [done|congruence]|by left]].
        split; [by eexists|by right].
      * rewrite run_ops_app, Hrun. unfold run_ops. simpl.
        by rewrite decide_True.
    - destruct Hsome as [[? ?]|[? ?]]; done. }
  assert (childOrder1 ≡ₚ childOrder') as Hperm.
  { apply NoDup_Permutation; [done..|]. intros k. rewrite Hkeys1, Hkeys'.
    destruct (decide (k ∈ keys (assign (assign [] children) children'))) as [Hk|Hk];
      [by apply Hseen|].
    rewrite (Hrest k Hk). rewrite keys_union in Hk.
    split; intros Hk'; exfalso; apply Hk; tauto. }
  destruct childOrder1 as [|k0 childOrder1].
  { apply Permutation_nil_l in Hperm as <-. eexists _, _. by split. }
  destruct (move_children_reorder node children1 (k0 :: childOrder1) childOrder')
    as (moves & Hmoves & Hreorder).
  { intros k Hk. apply Hkeys1. rewrite Hperm. done. }
  rewrite Hmoves. eexists _, _. split; [done|].
  rewrite run_ops_app, Hrun, run_ops_moves, Hreorder.
  - by apply reorder_exact.
  - eapply move_children_ops; [| |done]; intros k live; simpl;
      by rewrite decide_True.
Qed.

End LiveFacts.

(** ** Sibling keys in [build] *)

Module BuildFacts.
Import JsArray JsValue JsObject JsResult Vdom Build JsObjectFacts.

Lemma taken_set (children : object vnode) (k0 k : key) (c : vnode) :
  taken (set children k0 c) k ↔ k = k0 ∨ taken children k.
Proof.
  unfold taken. rewrite own_set. case_decide as Hk; subst.
  - split; [by left|]. intros _. left. by eexists.
  - split; [by right|]. intros [->|H]; done.
Qed.

(** A numeric key beyond the safe range is checked as the engine prints it:
    the exponent form has a [+], which the key pattern refuses. *)
Lemma child_key_exponent_form :
  child_key (λ _, "1e+21") "root" 0
    (Element "li" [("key", VNum (Int (10 ^ 21)))] [] [])
  = Throw (AssertionError "view.build : invalid character in element key"
             [CString "root"; CValue (VNum (Int (10 ^ 21)))]).
Proof. reflexivity. Qed.

(** When the keys of the children collide somewhere, the loop stops at the
    first collision and throws with the key found there. *)
Lemma build_children_collision (big : Z → string)
    (build_child : element → result vnode)
    (ancestry : string) (l : list element) (i : nat)
    (children : object vnode) (childOrder ks : list key) :
  resolves_from big build_child ancestry i l ks →
  (∃ n k, collides children ks n k) →
  ∃ n k, collides children ks n k ∧
    (∀ n0 k0, collides children ks n0 k0 → (n ≤ n0)%nat) ∧
    build_children big build_child ancestry l i children childOrder
    = Throw (AssertionError "view.build : duplicate child key"
               [CString ancestry; CString k]).
Proof.
  revert i children childOrder ks.
  induction l as [|e l IH]; intros i children childOrder ks [Hlen Hres] Hcol.
  { destruct ks; [|done]. destruct Hcol as (n & k & Hn & _). done. }
  destruct ks as [|k0 ks]; [done|].
  destruct (Hres O e) as (c & k & Hc & Hk & Hk0); [done|].
  simpl in Hk0. simplify_eq. rewrite Nat.add_0_r in Hk.
  cbn [build_children]. rewrite Hc, Hk. unfold add_child.
  destruct (decide (taken children k)) as [Htaken|Hfree].
  - exists O, k. split; [split; [done|by left]|]. split; [intros; lia|done].
  - destruct (IH (S i) (set children k c) (childOrder ++ [k]) ks)
      as (n & k' & [Hn Hc'] & Hleast & Hthrow).
    + split; [by simplify_eq/=|]. intros n e' He'.
      destruct (Hres (S n) e') as (c' & k' & ? & ? & ?); [done|].
      exists c', k'. by rewrite Nat.add_succ_comm.
    + destruct Hcol as ([|n] & k' & Hn & Hc'); simpl in Hn.
      * simplify_eq. destruct Hc' as [?|Hin]; [done|]. by apply elem_of_nil in Hin.
      * exists n, k'. split; [done|]. rewrite taken_set.
        destruct Hc' as [?|Hin]; [tauto|].
        simpl in Hin. apply elem_of_cons in Hin. tauto.
    + exists (S n), k'. split; [split; [done|]|split].
      * simpl. rewrite elem_of_cons. rewrite taken_set in Hc'. tauto.
      * intros [|n0] k1 [Hn0 Hc0]; simpl in Hn0.
        -- simplify_eq. destruct Hc0 as [?|Hin]; [done|]. by apply elem_of_nil in Hin.
        -- apply le_n_S, (Hleast n0 k1). split; [done|]. rewrite taken_set.
           destruct Hc0 as [?|Hin]; [tauto|].
           simpl in Hin. apply elem_of_cons in Hin. tauto.
      * done.
Qed.

(** What the loop keeps true of [children] and [childOrder]: the order
    lists each own key of [children] once, and none of them is an inherited
    name. *)
Lemma build_children_keys (big : Z → string)
    (build_child : element → result vnode)
    (ancestry : string) (l : list element) (i : nat)
    (children children' : object vnode) (childOrder childOrder' : list key) :
  NoDup childOrder →
  (∀ k, k ∈ childOrder ↔ is_Some (own children k)) →
  (∀ k, k ∈ childOrder → ¬ inherited k) →
  build_children big build_child ancestry l i children childOrder
  = Ok (children', childOrder') →
  NoDup childOrder' ∧
  (∀ k, k ∈ childOrder' ↔ is_Some (own children' k)) ∧
  (∀ k, k ∈ childOrder' → ¬ inherited k).
Proof.
  revert i children childOrder.
  induction l as [|e l IH]; intros i children childOrder Hnd Hkeys Hinh Hloop.
  { simpl in Hloop. by simplify_eq. }
  cbn [build_children] in Hloop.
  destruct (build_child e) as [c|]; [|done].
  destruct (child_key big ancestry i c) as [k|]; [|done].
  unfold add_child in Hloop.
  destruct (decide (taken children k)) as [|Hfree]; [done|].
  apply (IH (S i) (set children k c) (childOrder ++ [k])); [| | |done].
  - apply NoDup_app. split_and!; [done| |apply NoDup_singleton].
    intros x Hx ->%list_elem_of_singleton. apply Hfree. left. by apply Hkeys.
  - intros x. rewrite elem_of_app, list_elem_of_singleton, own_set, Hkeys.
    case_decide; subst; [split; [by eexists|by right]|].
    split; [by intros [?|?]|by left].
  - intros x [Hx| ->%list_elem_of_singleton]%elem_of_app; [by apply Hinh|].
    intros Hx. apply Hfree. by right.
Qed.

Lemma build_children_keys_start (big : Z → string)
    (build_child : element → result vnode)
    (ancestry : string) (l : list element)
    (children : object vnode) (childOrder : list key) :
  build_children big build_child ancestry l 0 [] [] = Ok (children, childOrder) →
  NoDup childOrder ∧
  (∀ k, k ∈ childOrder ↔ is_Some (own children k)) ∧
  (∀ k, k ∈ childOrder → ¬ inherited k).
Proof.
  apply build_children_keys.
  - apply NoDup_nil_2.
  - intros k. simpl. split; [by intros ?%elem_of_nil|by intros []].
  - by intros k ?%elem_of_nil.
Qed.


End BuildFacts.

Module BuildClaims.
Import JsArray JsValue JsObject JsResult Vdom Build JsObjectFacts BuildFacts.

Section WithEngine.
Variable exec_tag : string → option tag_match.
Variable trim : string → string.
Variable class_list : value → option string → string.
Variable to_string : value → string.
Variable big : Z → string.

(** C7. Take an element whose tag parses and whose children all build and
    resolve to keys [ks], explicit keys and index defaults alike.  If the
    children at two indices [i < j] resolve to the same key, [build] does
    not return a tree: it throws the assertion error [view.build : duplicate
    child key], whose culprits are the ancestry and the offending key.  That
    key is the key of the first child, no later than [j], whose key is
    already taken: by an earlier sibling, or by a name every object inherits
    (such as [constructor]), which [children[key]] finds as well. *)
Theorem build_rejects_duplicate_keys (tag : string)
    (attributes : slot (object value)) (childList : list element)
    (ancestry : string) (m : tag_match) (ks : list key) (i j : nat) (k : key) :
  (∀ v, attributes ≠ Invalid v) →
  exec_tag tag = Some m →
  resolves exec_tag trim class_list to_string big
    (ancestry +:+ " -> " +:+ tag) childList ks →
  (i < j)%nat → ks !! i = Some k → ks !! j = Some k →
  ∃ n offending,
    (n ≤ j)%nat ∧ ks !! n = Some offending ∧
    (offending ∈ take n ks ∨ inherited offending) ∧
    build exec_tag trim class_list to_string big
      (ETag (Present tag) attributes (Present childList)) ancestry
    = Throw (AssertionError "view.build : duplicate child key"
               [CString (ancestry +:+ " -> " +:+ tag); CString offending]).
Proof.
  intros Hattrs Htag Hres Hij Hi Hj.
  destruct (build_children_collision big
    (λ e, build exec_tag trim class_list to_string big e (ancestry +:+ " -> " +:+ tag))
    (ancestry +:+ " -> " +:+ tag) childList 0 [] [] ks)
    as (n & offending & [Hn Hcol] & Hleast & Hthrow).
  { exact Hres. }
  { exists j, k. split; [done|]. right.
    apply list_elem_of_lookup. exists i. by rewrite lookup_take_lt. }
  exists n, offending. split_and!.
  - apply (Hleast j k). split; [done|]. right.
    apply list_elem_of_lookup. exists i. by rewrite lookup_take_lt.
  - done.
  - destruct Hcol as [[Hown|Hinh]|Hin]; [by destruct Hown|by right|by left].
  - cbn [build]. destruct attributes as [|a|v]; [| |by destruct (Hattrs v)].
    + rewrite Htag. cbv zeta. by rewrite Hthrow.
    + rewrite Htag. cbv zeta. by rewrite Hthrow.
Qed.


End WithEngine.

Lemma build_rejects_duplicate_keys_witness :
  let exec_tag := λ tag,
    Some {| m_tagName := tag; m_id := None; m_className := None; m_style := None |} in
  let item := λ k, ETag (Present "li") (Present [("key", k)]) Absent in
  let childList := [EStr "first"; item (VStr "a"); item (VNum (Int 0))] in
  ∃ n offending,
    (n ≤ 2)%nat ∧ ["0"; "a"; "0"] !! n = Some offending ∧
    (offending ∈ take n ["0"; "a"; "0"] ∨ inherited offending) ∧
    build exec_tag (λ s, s) (λ _ _, "") (λ _, "") (λ _, "")
      (ETag (Present "ul") Absent (Present childList)) "root"
    = Throw (AssertionError "view.build : duplicate child key"
               [CString "root -> ul"; CString offending]).
Proof.
  apply (build_rejects_duplicate_keys
    (λ tag, Some {| m_tagName := tag; m_id := None; m_className := None;
                    m_style := None |})
    (λ s, s) (λ _ _, "") (λ _, "") (λ _, "") "ul" Absent
    [EStr "first";
     ETag (Present "li") (Present [("key", VStr "a")]) Absent;
     ETag (Present "li") (Present [("key", VNum (Int 0))]) Absent]
    "root"
    {| m_tagName := "ul"; m_id := None; m_className := None; m_style := None |}
    ["0"; "a"; "0"] 0 2 "0").
  - done.
  - reflexivity.
  - split; [reflexivity|].
    intros [|[|[|n]]] e He; simpl in He; simplify_eq; eexists _, _;
      (split; [reflexivity|split; reflexivity]).
  - lia.
  - reflexivity.
  - reflexivity.
Defined.


End BuildClaims.

(** ** JSON-shaped values in the heap *)

Module HeapFacts.
Import JsValue JsObject JsResult JsHeap.

(** Induction on JSON trees, with the hypothesis available for every item
    of an array and every property of an object. *)
Lemma json_nested_ind (P : json → Prop) :
  P JNull → (∀ b, P (JBool b)) → (∀ z, P (JNum z)) → (∀ s, P (JStr s)) →
  (∀ js, Forall P js → P (JArr js)) →
  (∀ ps, Forall (λ kj, P kj.2) ps → P (JObj ps)) →
  ∀ j, P j.
Proof.
  intros Hnull Hbool Hnum Hstr Harr Hobj. fix IH 1.
  intros [|b|z|s|js|ps]; [done..| |].
  - apply Harr. induction js as [|j js IHjs]; constructor; [apply IH|apply IHjs].
  - apply Hobj. induction ps as [|[k j] ps IHps]; constructor; [apply IH|apply IHps].
Qed.

Lemma Forall2_Forall_impl {A B : Type} (P : B → Prop) (Q Q' : A → B → Prop)
    (l : list A) (k : list B) :
  Forall P k → Forall2 Q l k →
  (∀ x y, y ∈ k → P y → Q x y → Q' x y) →
  Forall2 Q' l k.
Proof.
  intros HP HQ. revert HP. induction HQ as [|x y l k Hxy HQ IH]; intros HP Himpl.
  - constructor.
  - apply Forall_cons in HP as [Hy HP]. constructor.
    + apply Himpl; [left|done..].
    + apply IH; [done|]. intros x' y' Hin. apply Himpl. by right.
Qed.

(** A denotation can be moved to another heap and another region as long
    as the cells it visits are the same there. *)
Lemma denotes_transport (R R' : loc → Prop) (h h' : heap) (j : json) :
  (∀ l c, R l → h !! l = Some c → R' l ∧ h' !! l = Some c) →
  ∀ v, denotes R h v j → denotes R' h' v j.
Proof.
  intros Hcells. induction j as [| | | |js IH|ps IH] using json_nested_ind;
    intros v Hd; inversion Hd; subst; try by constructor.
  - destruct (Hcells l (Arr items)) as [? ?]; [done..|].
    econstructor; [done..|].
    eapply Forall2_Forall_impl; [exact IH|done|]. intros x y _ Hy Hxy. by apply Hy.
  - destruct (Hcells l (Obj props)) as [? ?]; [done..|].
    econstructor; [done..|].
    eapply Forall2_Forall_impl; [exact IH|done|].
    intros x y _ Hy [Hk Hxy]. split; [done|]. by apply Hy.
Qed.

Lemma denotes_in_extension (R : loc → Prop) (h h' : heap) (v : value) (j : json) :
  h `prefix_of` h' → denotes R h v j → denotes R h' v j.
Proof.
  intros [tail ->]. apply denotes_transport. intros l c HR Hl. split; [done|].
  by apply lookup_app_l_Some.
Qed.

Lemma denotes_in_region (R R' : loc → Prop) (h : heap) (v : value) (j : json) :
  (∀ l, R l → R' l) → denotes R h v j → denotes R' h v j.
Proof. intros HR. apply denotes_transport. intros l c Hl ?. split; [by apply HR|done]. Qed.

Lemma Forall2_det {A B : Type} (Q : A → B → Prop) (l : list A) (k k' : list B) :
  Forall (λ y, ∀ x y', Q x y → Q x y' → y = y') k →
  Forall2 Q l k → Forall2 Q l k' → k = k'.
Proof.
  intros Hdet HQ. revert k' Hdet.
  induction HQ as [|x y l k Hxy _ IH]; intros k' Hdet HQ'; inversion HQ'; subst;
    [done|].
  apply Forall_cons in Hdet as [Hy Hdet]. f_equal; [by eapply Hy|by apply IH].
Qed.

(** A value denotes one tree only. *)
Lemma denotes_det (R : loc → Prop) (h : heap) (j : json) :
  ∀ v j', denotes R h v j → denotes R h v j' → j = j'.
Proof.
  induction j as [| | | |js IH|ps IH] using json_nested_ind;
    intros v j' Hd Hd'; inversion Hd; subst; inversion Hd'; subst; try done;
    simplify_eq.
  - f_equal. eapply Forall2_det; [|done..].
    eapply Forall_impl; [exact IH|]. intros j Hj x y'. apply Hj.
  - f_equal. eapply Forall2_det; [|done..].
    eapply Forall_impl; [exact IH|].
    intros [k j] Hj [k0 v0] [k' j'] [Hk Hv] [Hk' Hv']. simpl in *.
    f_equal; [congruence|]. by eapply Hj.
Qed.

Lemma json_depth_item (js : list json) (j : json) :
  j ∈ js → (json_depth j < json_depth (JArr js))%nat.
Proof.
  simpl. induction js as [|j' js IH]; intros Hin.
  - by apply elem_of_nil in Hin.
  - apply elem_of_cons in Hin as [->|Hin]; simpl; [lia|]. specialize (IH Hin). lia.
Qed.

Lemma json_depth_prop (ps : list (string * json)) (kj : string * json) :
  kj ∈ ps → (json_depth kj.2 < json_depth (JObj ps))%nat.
Proof.
  simpl. induction ps as [|kj' ps IH]; intros Hin.
  - by apply elem_of_nil in Hin.
  - apply elem_of_cons in Hin as [->|Hin]; simpl; [lia|]. specialize (IH Hin). lia.
Qed.

Lemma denotes_not_function (R : loc → Prop) (h : heap) (v : value) (j : json) :
  denotes R h v j → isFunction v = false ∧ isDefined v = true.
Proof. by destruct 1. Qed.

End HeapFacts.

(** ** The copy [deepCopy] makes *)

Module StateFacts.
Import JsValue JsObject JsResult JsHeap State JsObjectFacts HeapFacts.

Lemma fresh_widen (h h1 h2 h3 : heap) (v : value) (j : json) :
  h `prefix_of` h1 → h2 `prefix_of` h3 →
  denotes (fresh h1 h2) h2 v j → denotes (fresh h h3) h3 v j.
Proof.
  intros H1 H2 Hd. apply (denotes_in_extension _ h2); [done|].
  eapply denotes_in_region; [|done].
  apply prefix_length in H1, H2. unfold fresh. intros l. lia.
Qed.

Lemma copy_items_denotes (copy : copier) (h0 : heap)
    (items : list value) (js : list json) :
  Forall2 (copies copy h0) items js →
  ∀ h, h0 `prefix_of` h →
    ∃ rs h', copy_items copy h items = Some (Ok (rs, h')) ∧ h `prefix_of` h' ∧
             Forall2 (denotes (fresh h h') h') rs js.
Proof.
  induction 1 as [|v j items js Hv _ IH]; intros h Hh; simpl.
  - exists [], h. by split_and!.
  - destruct (Hv h Hh) as (r & h1 & -> & Hh1 & Hr).
    destruct (IH h1) as (rs & h2 & -> & Hh2 & Hrs); [by etrans|].
    exists (r :: rs), h2. split_and!; [done|by etrans|]. constructor.
    + by apply (fresh_widen h h h1 h2).
    + eapply Forall2_impl; [done|]. intros x y. by apply fresh_widen.
Qed.

Lemma copy_props_denotes (copy : copier) (h0 : heap)
    (props : object value) (ps : list (string * json)) :
  Forall2 (λ kv kj, kv.1 = kj.1 ∧ copies copy h0 kv.2 kj.2) props ps →
  ∀ h, h0 `prefix_of` h →
    ∃ rs h', copy_props copy h props = Some (Ok (rs, h')) ∧ h `prefix_of` h' ∧
             Forall2 (λ kv kj, kv.1 = kj.1 ∧ denotes (fresh h h') h' kv.2 kj.2) rs ps.
Proof.
  induction 1 as [|[k v] [k' j] props ps [Hk Hv] _ IH]; intros h Hh; simpl in *.
  - exists [], h. by split_and!.
  - destruct (Hv h Hh) as (r & h1 & -> & Hh1 & Hr).
    destruct (IH h1) as (rs & h2 & -> & Hh2 & Hrs); [by etrans|].
    exists ((k, r) :: rs), h2. split_and!; [done|by etrans|]. constructor.
    + split; [done|]. by apply (fresh_widen h h h1 h2).
    + eapply Forall2_impl; [done|]. intros x y [? ?]. split; [done|].
      by apply (fresh_widen h h1 h2 h2).
Qed.

Lemma own_denotes (R : loc → Prop) (h : heap) (props : object value)
    (ps : list (string * json)) (k : string) (v : value) :
  Forall2 (λ kv kj, kv.1 = kj.1 ∧ denotes R h kv.2 kj.2) props ps →
  own props k = Some v → ∃ j, denotes R h v j.
Proof.
  intros Hall Hown. apply own_elem_of in Hown.
  apply list_elem_of_lookup in Hown as [i Hi].
  destruct (Forall2_lookup_l _ _ _ _ _ Hall Hi) as (kj & _ & _ & Hd).
  by exists kj.2.
Qed.

(** The copy of a JSON-shaped value: with fuel for its depth, the copy is
    made, in new cells only, and denotes the same tree.  [stack] holds
    objects that enclose the value. *)
Lemma json_copy_denotes (h0 : heap) (j : json) :
  ∀ fuel stack v,
    denotes (λ l, (l < length h0)%nat) h0 v j →
    (∀ a, a ∈ stack →
       ∃ ja, denotes (λ l, (l < length h0)%nat) h0 (VRef a) ja ∧
             (json_depth j < json_depth ja)%nat) →
    (json_depth j < fuel)%nat →
    copies (json_copy fuel stack) h0 v j.
Proof.
  induction j as [| | | |js IH|ps IH] using json_nested_ind;
    intros fuel stack v Hd Hstack Hfuel h Hh;
    (destruct fuel as [|fuel]; [lia|]); inversion Hd; subst.
  - exists VNull, h. split_and!; [done..|constructor].
  - exists (VBool b), h. split_and!; [done..|constructor].
  - exists (VNum (Int z)), h. split_and!; [done..|constructor].
  - exists (VStr s), h. split_and!; [done..|constructor].
  - assert (h !! l = Some (Arr items)) as Hl.
    { destruct Hh as [tail ->]. by apply lookup_app_l_Some. }
    assert (l ∉ stack) as Hout.
    { intros Hin. destruct (Hstack l Hin) as (ja & Hja & Hlt).
      rewrite (denotes_det _ _ _ _ _ Hd Hja) in Hlt. lia. }
    destruct (copy_items_denotes (json_copy fuel (l :: stack)) h0 items js)
      with (h := h) as (rs & h' & Hcopy & Hh' & Hrs); [|done|].
    { eapply Forall2_Forall_impl; [exact IH|done|].
      intros x y Hy HP Hxy. apply HP; [done| |].
      - intros a [->|Hin]%elem_of_cons.
        + exists (JArr js). split; [done|]. by apply json_depth_item.
        + destruct (Hstack a Hin) as (ja & Hja & Hlt). exists ja. split; [done|].
          pose proof (json_depth_item js y Hy). lia.
      - pose proof (json_depth_item js y Hy). lia. }
    exists (VRef (length h')), (h' ++ [Arr rs]). split_and!.
    + cbn [json_copy]. rewrite Hl, decide_False by done. by rewrite Hcopy.
    + etrans; [done|]. by apply prefix_app_r.
    + econstructor.
      * unfold fresh. apply prefix_length in Hh'. rewrite length_app. simpl. lia.
      * by apply list_lookup_middle.
      * eapply Forall2_impl; [done|]. intros x y.
        apply fresh_widen; [done|]. by apply prefix_app_r.
  - assert (h !! l = Some (Obj props)) as Hl.
    { destruct Hh as [tail ->]. by apply lookup_app_l_Some. }
    assert (l ∉ stack) as Hout.
    { intros Hin. destruct (Hstack l Hin) as (ja & Hja & Hlt).
      rewrite (denotes_det _ _ _ _ _ Hd Hja) in Hlt. lia. }
    assert (∀ f, own props "toJSON" ≠ Some (VFun f)) as HtoJSON.
    { intros f Hf.
      match goal with H : Forall2 _ props ps |- _ =>
        destruct (own_denotes _ _ _ _ _ _ H Hf) as [jf Hjf] end.
      by inversion Hjf. }
    destruct (copy_props_denotes (json_copy fuel (l :: stack)) h0 props ps)
      with (h := h) as (rs & h' & Hcopy & Hh' & Hrs); [|done|].
    { eapply Forall2_Forall_impl; [exact IH|done|].
      intros x y Hy HP [Hk Hxy]. split; [done|]. apply HP; [done| |].
      - intros a [->|Hin]%elem_of_cons.
        + exists (JObj ps). split; [done|]. by apply json_depth_prop.
        + destruct (Hstack a Hin) as (ja & Hja & Hlt). exists ja. split; [done|].
          pose proof (json_depth_prop ps y Hy). lia.
      - pose proof (json_depth_prop ps y Hy). lia. }
    exists (VRef (length h')), (h' ++ [Obj rs]). split_and!.
    + cbn [json_copy]. rewrite Hl.
      destruct (own props "toJSON") as [[]|] eqn:Heq;
        try (by rewrite decide_False, Hcopy by done).
      by destruct (HtoJSON f).
    + etrans; [done|]. by apply prefix_app_r.
    + econstructor.
      * unfold fresh. apply prefix_length in Hh'. rewrite length_app. simpl. lia.
      * by apply list_lookup_middle.
      * eapply Forall2_impl; [done|]. intros x y [? ?]. split; [done|].
        eapply fresh_widen; [| |done]; [done|]. by apply prefix_app_r.
Qed.

Lemma deepCopy_denotes (fuel : nat) (h : heap) (v : value) (j : json) :
  denotes (old h) h v j → (json_depth j < fuel)%nat →
  ∃ r h', deepCopy fuel h v = Some (Ok (r, h')) ∧ h `prefix_of` h' ∧
          denotes (fresh h h') h' r j.
Proof.
  intros Hd Hfuel. destruct (denotes_not_function _ _ _ _ Hd) as [_ Hdef].
  destruct (json_copy_denotes h j fuel [] v Hd) with (h := h)
    as (r & h' & Hcopy & Hh' & Hr); [|done..|].
  { intros a Ha. by apply elem_of_nil in Ha. }
  exists r, h'. unfold deepCopy. by rewrite Hdef, Hcopy.
Qed.

Lemma strict_eq_ref (v : value) (l : loc) :
  strict_eq v (VRef l) = bool_decide (v = VRef l).
Proof. by destruct v. Qed.



Lemma getState_set (fuel : nat) (h : heap) (st : store) :
  state st ≠ VRef (initial st) →
  getState fuel h st = deepCopy fuel h (state st).
Proof.
  intros Hset. unfold getState. rewrite strict_eq_ref.
  by rewrite bool_decide_eq_false_2.
Qed.

End StateFacts.

(** ** Reading the state *)

Module StateClaims.
Import JsValue JsObject JsResult JsHeap State HeapFacts StateFacts.

(** C8 as stated fails: a producer that returns a function leaves a state
    of which [JSON.stringify] makes [undefined], and [getState] throws the
    syntax error of [JSON.parse(undefined)]. *)
Lemma getState_throws_after_producer :
  let call := λ (f : func) (arg : value) (h : heap),
    Some (Ok (VFun (Closure 1), h)) : option (result (value * heap)) in
  let st := (create []).1 in
  let h := (create []).2 in
  ∃ st' h',
    setState call 2 h st (VFun (Closure 0)) = Some (Ok (st', h')) ∧
    getState 2 h' st' = Some (Throw (SyntaxError "undefined is not valid JSON")).
Proof. by eexists _, _. Qed.

(** So does a state that refers to itself. *)
Lemma getState_throws_on_cycle :
  let h := [Obj []; Obj [("self", VRef 1)]] in
  let st := {| initial := 0; state := VRef 1 |} in
  getState 3 h st
  = Some (Throw (TypeError "Converting circular structure to JSON")).
Proof. done. Qed.

(** C8, amended.  Before any [setState] the call of [getState] throws its
    assertion error.  After a [setState] that returned, made with a literal
    or with a producer, neither of which can hold the object [initial] that
    is private to the module, the assertion of [getState] holds for good:
    [getState] is [deepCopy] of the state, and it returns without error
    whenever the state is JSON-shaped. *)
Theorem getState_after_setState
    (call : func → value → heap → option (result (value * heap)))
    (fuel : nat) (h : heap) (st : store) (replacement : value)
    (st' : store) (h' : heap) :
  replacement ≠ VRef (initial st) →
  (∀ f a h1 r h2, call f a h1 = Some (Ok (r, h2)) → r ≠ VRef (initial st)) →
  setState call fuel h st replacement = Some (Ok (st', h')) →
  (∀ fuel0 h0,
     getState fuel0 (create h0).2 (create h0).1
     = Some (Throw (AssertionError
         "state.getState : cannot get state before it has been set" []))) ∧
  state st' ≠ VRef (initial st') ∧
  (∀ fuel', getState fuel' h' st' = deepCopy fuel' h' (state st')) ∧
  (∀ fuel' j, denotes (old h') h' (state st') j → (json_depth j < fuel')%nat →
     ∃ r h'', getState fuel' h' st' = Some (Ok (r, h''))).
Proof.
  intros Hlit Hcall Hset.
  assert (state st' ≠ VRef (initial st')) as Hstate.
  { unfold setState, emit_state in Hset.
    destruct replacement as [| | | | |f| |]; simpl in Hset; simplify_eq;
      simpl; try congruence.
    destruct (deepCopy fuel h (state st)) as [[[c h1]|]|]; simplify_eq.
    destruct (call f c h1) as [[[r h2]|]|] eqn:Hr; simplify_eq.
    destruct (isDefined r); simplify_eq. simpl. by eapply Hcall. }
  split_and!.
  - intros fuel0 h0. unfold getState, create. simpl.
    by rewrite bool_decide_eq_true_2.
  - done.
  - intros fuel'. by apply getState_set.
  - intros fuel' j Hd Hfuel. rewrite getState_set by done.
    destruct (deepCopy_denotes fuel' h' (state st') j Hd Hfuel) as (r & h2 & -> & _).
    by exists r, h2.
Qed.

Lemma getState_after_setState_witness :
  let h' := [Obj []; Obj []] in
  let st' := {| initial := 0; state := VNum (Int 7) |} in
  (∀ fuel0 h0,
     getState fuel0 (create h0).2 (create h0).1
     = Some (Throw (AssertionError
         "state.getState : cannot get state before it has been set" []))) ∧
  state st' ≠ VRef (initial st') ∧
  (∀ fuel', getState fuel' h' st' = deepCopy fuel' h' (state st')) ∧
  (∀ fuel' j, denotes (old h') h' (state st') j → (json_depth j < fuel')%nat →
     ∃ r h'', getState fuel' h' st' = Some (Ok (r, h''))).
Proof.
  apply (getState_after_setState
    (λ f arg h, Some (Ok (VNum (Int 7), h))) 2
    (create []).2 (create []).1 (VFun (Closure 0))
    {| initial := 0; state := VNum (Int 7) |} [Obj []; Obj []]).
  - simpl. congruence.
  - intros f a h1 r h2 Hr. simplify_eq. simpl. congruence.
  - reflexivity.
Defined.



End StateClaims.

(** ** Undo and redo *)

Module HistoryClaims.
Import JsValue History.






(** One change more and the initial state is out of reach: the oldest entry
    was evicted. *)
Lemma history_evicts_oldest :
  let a := counted default_capacity 21 in
  length (past a) = 21%nat ∧
  current (Nat.iter 21 undo a) = Some (VNum (Int 0)) ∧
  current (Nat.iter 22 undo a) = Some (VNum (Int 0)).
Proof. by vm_compute. Qed.

(** C6. With the history layer enabled (a capacity of at least one entry):
    after [setState(s1)] and [setState(s2)], [undo()] makes the current
    state [s1] and a following [redo()] makes it [s2]. *)
Theorem undo_then_redo (State : Type) (capacity : nat) (s1 s2 : State) :
  (0 < capacity)%nat →
  let a := setState capacity s2 (setState capacity s1 create) in
  current (undo a) = Some s1 ∧ current (redo (undo a)) = Some s2.
Proof.
  intros Hcap. destruct capacity as [|capacity]; [lia|]. done.
Qed.

Lemma undo_then_redo_witness :
  let a := setState default_capacity (VStr "different state")
             (setState default_capacity (VStr "test") create) in
  current (undo a) = Some (VStr "test") ∧
  current (redo (undo a)) = Some (VStr "different state").
Proof.
  apply (undo_then_redo value default_capacity (VStr "test") (VStr "different state")).
  unfold default_capacity. lia.
Defined.

End HistoryClaims.

(** ** Reconciling a tree with itself, and the two diffs *)

Module VdomClaims.
Import JsArray JsValue JsObject JsResult LongestChain Reorder Vdom HostOrder.
Import JsObjectFacts DiffFacts ReorderFacts UpdateFacts MoveFacts.

(** C1 as stated fails: a button whose [onclick] attribute holds a function,
    reconciled with itself, gets the attribute written to its DOM node. *)
Lemma update_same_writes_function :
  let T := Element "button" [("onclick", VFun (Closure 0))] [] [] in
  update (S (depth T)) T T
  = Some (Ok (Some T, [SetProperty ["root"] "onclick" (VFun (Closure 0))])).
Proof. done. Qed.

(** A [NaN] attribute is written again as well: [NaN !== NaN]. *)
Lemma update_same_writes_NaN :
  let T := Element "input" [("value", VNum NaN)] [] [] in
  update (S (depth T)) T T
  = Some (Ok (Some T, [SetProperty ["root"] "value" (VNum NaN)])).
Proof. done. Qed.

(** C1, amended. For every tree [T] in which no attribute holds a function
    or [NaN], reconciling [T] with itself through [update] returns (given
    fuel for the depth of [T]), leaves the tree as it is and performs no
    host mutation: no attribute write, no text update, no insertion, removal
    or move of a child. *)
Theorem update_same_no_host_mutation (T : vnode) (fuel : nat) :
  stable_attributes T = true →
  (depth T < fuel)%nat →
  update fuel T T = Some (Ok (Some T, [])).
Proof. intros Hstable Hfuel. by apply _update_same. Qed.

Lemma update_same_no_host_mutation_witness :
  let T :=
    Element "ul" [("id", VStr "list"); ("tabIndex", VNum (Int 3))]
      [("a", Element "li" [] [("0", Text "x")] ["0"]); ("b", Text "y")]
      ["a"; "b"] in
  update 3 T T = Some (Ok (Some T, [])).
Proof.
  apply (update_same_no_host_mutation
    (Element "ul" [("id", VStr "list"); ("tabIndex", VNum (Int 3))]
      [("a", Element "li" [] [("0", Text "x")] ["0"]); ("b", Text "y")]
      ["a"; "b"]) 3).
  - reflexivity.
  - simpl. lia.
Defined.

(** C9 fails on the code: where an attribute holds two different functions
    the bundled copy reports the key twice, the utils copy once. *)
Lemma diff_copies_disagree :
  let original := [("onclick", VFun (Closure 1))] in
  let successor := [("onclick", VFun (Closure 2))] in
  Lite.diff original successor = ["onclick"; "onclick"] ∧
  Utils.diff original successor = ["onclick"].
Proof. done. Qed.

(** X2. Where no value on either side is a function (own or found up the
    prototype chain), the two copies of the diff return the same array. *)
Theorem diffs_agree_without_functions (original successor : object value) :
  (∀ k, k ∈ keys (assign (assign [] original) successor) →
     isFunction (get original k) = false ∧ isFunction (get successor k) = false) →
  Lite.diff original successor = Utils.diff original successor.
Proof.
  intros Hfun. unfold Lite.diff, Utils.diff. cbv zeta.
  apply fold_left_agree. intros modifiedKeys k Hk.
  destruct (Hfun k Hk) as [-> ->]. done.
Qed.

Lemma diffs_agree_without_functions_witness :
  let original := [("id", VStr "a"); ("title", VStr "t")] in
  let successor := [("id", VStr "b"); ("tabIndex", VNum (Int 1))] in
  Lite.diff original successor = Utils.diff original successor.
Proof.
  apply (diffs_agree_without_functions
    [("id", VStr "a"); ("title", VStr "t")]
    [("id", VStr "b"); ("tabIndex", VNum (Int 1))]).
  intros k Hk. vm_compute in Hk.
  repeat (apply elem_of_cons in Hk as [->|Hk]; [by split|]).
  by apply elem_of_nil in Hk.
Defined.

(** X3. The diff of src/src/utils.js lists no key more than once, whatever the
    two objects hold. *)
Theorem utils_diff_no_repeats (original successor : object value) :
  NoDup (Utils.diff original successor).
Proof.
  rewrite utils_diff_filter. apply NoDup_filter.
  apply NoDup_keys_assign, NoDup_keys_assign, NoDup_nil_2.
Qed.

(** X1. The operations the two move loops of [_update] record, applied to
    the live order of the children, leave them in the order of
    [successor.childOrder]: for a live order and a target that hold the same
    distinct keys, each naming a child. *)
Theorem move_children_reaches_target (node : path) (children : object vnode)
    (childOrder target : list key) :
  NoDup childOrder → childOrder ≡ₚ target →
  (∀ k, k ∈ target → is_Some (own children k)) →
  ∃ ops, move_children node children childOrder target = Ok ops ∧
         run_moves ops childOrder = target.
Proof.
  intros Hnd Hperm Hown.
  destruct (move_children_reorder node children childOrder target Hown)
    as (ops & Hops & Hrun).
  exists ops. split; [done|]. rewrite Hrun. by apply reorder_exact.
Qed.

Lemma move_children_reaches_target_witness :
  let children := [("a", Text "1"); ("b", Text "2"); ("c", Text "3")] in
  ∃ ops, move_children ["root"] children ["a"; "b"; "c"] ["b"; "c"; "a"] = Ok ops ∧
         run_moves ops ["a"; "b"; "c"] = ["b"; "c"; "a"].
Proof.
  apply (move_children_reaches_target ["root"]
    [("a", Text "1"); ("b", Text "2"); ("c", Text "3")]
    ["a"; "b"; "c"] ["b"; "c"; "a"]).
  - by apply (bool_decide_unpack _).
  - apply NoDup_Permutation; [by apply (bool_decide_unpack _)..|].
    intros x. rewrite !elem_of_cons, !elem_of_nil. tauto.
  - intros k Hk.
    repeat (apply elem_of_cons in Hk as [->|Hk]; [by eexists|]).
    by apply elem_of_nil in Hk.
Defined.

(** Example.  Three keyed children [a; b; c] reordered to [c; a; b]: the
    chain [a; b] stays where it is and [update] makes one move, [c] put first. *)
Theorem update_reorder_single_move :
  let item := λ k, (k, Element "li" [("key", VStr k)] [] []) in
  let before := Element "ul" [] [item "a"; item "b"; item "c"] ["a"; "b"; "c"] in
  let after := Element "ul" [] [item "c"; item "a"; item "b"] ["c"; "a"; "b"] in
  longestChain ["a"; "b"; "c"] ["c"; "a"; "b"] = {| start := 1; end_ := 2 |} ∧
  update 2 after before
  = Some (Ok (Some (Element "ul" [] [item "a"; item "b"; item "c"] ["c"; "a"; "b"]),
              [InsertBeforeFirst ["root"] "c"])).
Proof. done. Qed.

End VdomClaims.

(** ** Updating one tree to another *)

Module UpdateProperties.
Import JsArray JsValue JsObject JsResult LongestChain ChainSpec Vdom VdomSpec HostChildren.
Import JsArrayFacts MoveFacts RoundTripFacts LiveFacts.



(** X6. Updating an element to one with the same tag, where on both sides
    [childOrder] lists every key of [children] once, no child key at any
    depth is a name inherited from [Object.prototype], and the new tree is
    well keyed below: the operations [update] records, applied to the
    children of the root DOM node in their old order, leave them in the
    order of the new [childOrder]: new children appended, removed ones gone,
    the rest moved around the chain that stays. *)
Theorem update_children_order (fuel : nat) (tagName : string)
    (attributes attributes' : object value) (children children' : object vnode)
    (childOrder childOrder' : list key) :
  plain_keys (Element tagName attributes children childOrder) = true →
  plain_keys (Element tagName attributes' children' childOrder') = true →
  top_keyed (Element tagName attributes children childOrder) →
  top_keyed (Element tagName attributes' children' childOrder') →
  well_keyed (Element tagName attributes' children' childOrder') = true →
  (depth (Element tagName attributes children childOrder) < fuel)%nat →
  (depth (Element tagName attributes' children' childOrder') < fuel)%nat →
  ∃ T' ops,
    update fuel (Element tagName attributes' children' childOrder')
      (Element tagName attributes children childOrder)
    = Some (Ok (Some T', ops)) ∧
    run_ops ["root"] ops childOrder = childOrder'.
Proof.
  intros _ _ Hold Hnew Hwk Ho Hs.
  by apply (_update_live fuel tagName attributes attributes' children children'
              childOrder childOrder' [] "root").
Qed.

Lemma update_children_order_witness :
  let children := [("a", Text "1"); ("b", Text "2"); ("c", Text "3")] in
  let children' := [("d", Text "4"); ("c", Text "3"); ("a", Text "1")] in
  ∃ T' ops,
    update 2 (Element "ul" [] children' ["d"; "c"; "a"])
      (Element "ul" [] children ["a"; "b"; "c"])
    = Some (Ok (Some T', ops)) ∧
    run_ops ["root"] ops ["a"; "b"; "c"] = ["d"; "c"; "a"].
Proof.
  apply (update_children_order 2 "ul" [] []
    [("a", Text "1"); ("b", Text "2"); ("c", Text "3")]
    [("d", Text "4"); ("c", Text "3"); ("a", Text "1")]
    ["a"; "b"; "c"] ["d"; "c"; "a"]).
  - reflexivity.
  - reflexivity.
  - split; [by apply (bool_decide_unpack _)|]. intros k. split.
    + intros Hk. repeat (apply elem_of_cons in Hk as [->|Hk]; [by eexists|]).
      by apply elem_of_nil in Hk.
    + intros [v Hv]. simpl in Hv. rewrite !elem_of_cons.
      repeat (case_decide; [subst; tauto|]). done.
  - split; [by apply (bool_decide_unpack _)|]. intros k. split.
    + intros Hk. repeat (apply elem_of_cons in Hk as [->|Hk]; [by eexists|]).
      by apply elem_of_nil in Hk.
    + intros [v Hv]. simpl in Hv. rewrite !elem_of_cons.
      repeat (case_decide; [subst; tauto|]). done.
  - reflexivity.
  - simpl. lia.
  - simpl. lia.
Defined.

(** X7. For a live order and a target that hold the same distinct keys,
    each naming a child, the two move loops move exactly the children
    outside the range [longestChain] returns, each once: the number of moves
    is the number of children less the length of the chain that stays (the
    longest common run, by C3). *)
Theorem move_children_count (node : path) (children : object vnode)
    (childOrder target : list key) :
  NoDup childOrder → childOrder ≡ₚ target →
  (∀ k, k ∈ target → is_Some (own children k)) →
  ∃ ops, move_children node children childOrder target = Ok ops ∧
         (length ops + range_length (longestChain childOrder target)
          = length target)%nat.
Proof.
  intros Hnd Hperm Hown.
  rewrite (move_children_explicit node children childOrder target Hown).
  eexists. split; [done|].
  destruct (ChainClaims.longestChain_characterised childOrder target Hnd Hperm)
    as ((H0 & H1 & H2) & _).
  cbv zeta. rewrite length_app, !length_fmap, length_rev.
  set (r := longestChain childOrder target) in *.
  replace (start r) with (Z.of_nat (Z.to_nat (start r))) at 1 by lia.
  rewrite slice_prefix by lia.
  replace (end_ r + 1) with (Z.of_nat (Z.to_nat (end_ r + 1))) by lia.
  rewrite slice_suffix by lia.
  rewrite length_take, length_drop. unfold range_length. lia.
Qed.

Lemma move_children_count_witness :
  let children := [("a", Text "1"); ("b", Text "2"); ("c", Text "3")] in
  ∃ ops, move_children ["root"] children ["a"; "b"; "c"] ["c"; "a"; "b"] = Ok ops ∧
         (length ops + range_length (longestChain ["a"; "b"; "c"] ["c"; "a"; "b"])
          = length ["c"; "a"; "b"])%nat.
Proof.
  apply (move_children_count ["root"]
    [("a", Text "1"); ("b", Text "2"); ("c", Text "3")]
    ["a"; "b"; "c"] ["c"; "a"; "b"]).
  - by apply (bool_decide_unpack _).
  - apply NoDup_Permutation; [by apply (bool_decide_unpack _)..|].
    intros x. rewrite !elem_of_cons, !elem_of_nil. tauto.
  - intros k Hk.
    repeat (apply elem_of_cons in Hk as [->|Hk]; [by eexists|]).
    by apply elem_of_nil in Hk.
Defined.

End UpdateProperties.

(** ** The queue *)

Module QueueFacts.
Import Queue.

Section WithFunctions.
Variable body : nat → list call.

Lemma adds_app (a b : list call) : adds (a ++ b) = adds a ++ adds b.
Proof. unfold adds. by rewrite omap_app. Qed.

Lemma count_done_app (a b : list call) :
  count_done (a ++ b) = (count_done a + count_done b)%nat.
Proof. unfold count_done. by rewrite filter_app, length_app. Qed.

Lemma create_in_order : in_order create.
Proof. done. Qed.

Lemma step_in_order (calls : list call) (st : state) :
  in_order st → in_order (step body calls st).2.
Proof.
  intros [Ha Hs]. destruct calls as [|[f|] rest]; cbn [step]; [done| |].
  - unfold push, run. cbn [queue].
    destruct (queue st) as [|g q]; cbn [app length].
    + rewrite decide_True by done.
      split; simpl in *; rewrite ?app_nil_r in *; congruence.
    + rewrite decide_False by (rewrite length_app; simpl; lia).
      split; simpl in *; rewrite ?Ha, ?Hs, <- ?app_assoc; done.
  - unfold shift, run. cbn [queue].
    destruct (queue st) as [|g [|h q]]; cbn [tail];
      split; simpl in *; rewrite ?app_nil_r in *;
      rewrite ?Ha, ?Hs, <- ?app_assoc; done.
Qed.

Lemma exec_in_order (fuel : nat) (calls : list call) (st : state) :
  in_order st → in_order (exec body fuel calls st).2.
Proof.
  revert calls st. induction fuel as [|fuel IH]; intros calls st Hst; [done|].
  cbn [exec]. pose proof (step_in_order calls st Hst) as Hstep.
  destruct (step body calls st) as [calls' st']. by apply IH.
Qed.

Lemma run_accounted (calls rest : list call) (st : state) :
  accounted body calls rest st →
  accounted body calls (run body rest st).1 (run body rest st).2.
Proof.
  unfold accounted, run. intros H. destruct (queue st) as [|f q]; [done|].
  cbn [fst snd added started].
  rewrite adds_app, flat_map_app. cbn [flat_map]. rewrite app_nil_r.
  rewrite (app_assoc (adds calls)), <- H. solve_Permutation.
Qed.

Lemma step_accounted (calls left : list call) (st : state) :
  accounted body calls left st →
  accounted body calls (step body left st).1 (step body left st).2.
Proof.
  intros H. destruct left as [|[f|] rest]; cbn [step]; [done| |].
  - assert (accounted body calls rest (push f st)) as Hpush.
    { unfold accounted in *. cbn [push added started].
      rewrite <- H. cbn. by rewrite <- app_assoc. }
    case_decide; [by apply run_accounted|done].
  - by apply run_accounted.
Qed.

Lemma exec_accounted (fuel : nat) (calls left : list call) (st : state) :
  accounted body calls left st →
  accounted body calls (exec body fuel left st).1 (exec body fuel left st).2.
Proof.
  revert left st. induction fuel as [|fuel IH]; intros left st Hst; [done|].
  cbn [exec]. pose proof (step_accounted calls left st Hst) as Hstep.
  destruct (step body left st) as [left' st']. by apply IH.
Qed.

Lemma create_accounted (calls : list call) : accounted body calls calls create.
Proof. unfold accounted. simpl. by rewrite app_nil_r. Qed.

Lemma head_app_first {A : Type} (l l' : list A) (x : A) :
  head l = Some x → head (l ++ l') = Some x.
Proof. by destruct l. Qed.

(** Once a function was the first added and the first called, it stays so. *)
Lemma exec_first (fuel : nat) (left : list call) (st : state) (f : nat) :
  head (added st) = Some f → head (started st) = Some f →
  head (added (exec body fuel left st).2) = Some f ∧
  head (started (exec body fuel left st).2) = Some f.
Proof.
  revert left st. induction fuel as [|fuel IH]; intros left st Ha Hs; [done|].
  cbn [exec].
  assert (head (added (step body left st).2) = Some f ∧
          head (started (step body left st).2) = Some f) as [Ha' Hs'].
  { destruct left as [|[g|] rest]; cbn [step]; [done| |].
    - unfold push, run. cbn [queue]. case_decide.
      + destruct (queue st ++ [g]); cbn [snd added started];
          split; auto using head_app_first.
      + cbn [snd added started]. split; auto using head_app_first.
    - unfold shift, run. cbn [queue]. destruct (tail (queue st));
        cbn [snd added started]; split; auto using head_app_first. }
  destruct (step body left st) as [left' st']. by apply IH.
Qed.

(** ** The calls come to an end *)

Lemma total_app (depth : nat) (a b : list call) :
  total body depth (a ++ b) = (total body depth a + total body depth b)%nat.
Proof. unfold total. induction a as [|c a IH]; simpl; [done|]. rewrite IH. lia. Qed.

Lemma nests_S (depth : nat) (f : nat) :
  nests body (S depth) (Add f) = forallb (nests body depth) (body f).
Proof. done. Qed.

Lemma weight_S (depth : nat) (f : nat) :
  weight body (S depth) (Add f)
  = S (foldr (λ c n, weight body depth c + n)%nat O (body f)).
Proof. done. Qed.

Lemma nests_Done (depth : nat) : nests body depth Done = true.
Proof. by destruct depth. Qed.

Lemma weight_Done (depth : nat) : weight body depth Done = 1%nat.
Proof. by destruct depth. Qed.

Lemma total_cons (depth : nat) (c : call) (l : list call) :
  total body depth (c :: l) = (weight body depth c + total body depth l)%nat.
Proof. done. Qed.

Lemma weight_pos (depth : nat) (c : call) : (0 < weight body depth c)%nat.
Proof. destruct depth, c; simpl; lia. Qed.

Lemma nests_weight (depth : nat) (c : call) :
  nests body depth c = true →
  nests body (S depth) c = true ∧ weight body (S depth) c = weight body depth c.
Proof.
  revert c. induction depth as [|depth IH]; intros [f|]; try done.
  rewrite (nests_S (S depth)), (weight_S (S depth)), nests_S, weight_S.
  intros Hbody.
  assert (forallb (nests body (S depth)) (body f) = true ∧
          foldr (λ c n, weight body (S depth) c + n)%nat O (body f)
          = foldr (λ c n, weight body depth c + n)%nat O (body f)) as [-> ->];
    [|done].
  induction (body f) as [|c l IHl]; [done|].
  cbn [forallb foldr] in *. apply andb_true_iff in Hbody as [Hc Hl].
  destruct (IH c Hc) as [-> ->]. destruct (IHl Hl) as [-> ->]. done.
Qed.

(** The calls of a function that nests within [depth], weighed at [depth]. *)
Lemma nests_body (depth : nat) (f : nat) :
  nests body depth (Add f) = true →
  forallb (nests body depth) (body f) = true ∧
  weight body depth (Add f) = S (total body depth (body f)).
Proof.
  destruct depth as [|depth]; [done|]. rewrite nests_S, weight_S. intros Hbody.
  unfold total.
  assert (forallb (nests body (S depth)) (body f) = true ∧
          foldr (λ c n, weight body (S depth) c + n)%nat O (body f)
          = foldr (λ c n, weight body depth c + n)%nat O (body f)) as [-> ->];
    [|done].
  induction (body f) as [|c l IHl]; [done|].
  cbn [forallb foldr] in *. apply andb_true_iff in Hbody as [Hc Hl].
  destruct (nests_weight depth c Hc) as [-> ->]. destruct (IHl Hl) as [-> ->]. done.
Qed.

Lemma waiting_app (depth : nat) (q : list nat) (f : nat) :
  foldr (λ f n, total body depth (body f) + n)%nat O (q ++ [f])
  = (foldr (λ f n, total body depth (body f) + n)%nat O q
     + total body depth (body f))%nat.
Proof. induction q as [|g q IH]; simpl; [lia|]. rewrite IH. lia. Qed.

(** A call that is made is one call less to come. *)
Lemma step_pending (depth : nat) (left : list call) (st : state) :
  bounded body depth left st → left ≠ [] →
  bounded body depth (step body left st).1 (step body left st).2 ∧
  S (pending body depth (step body left st).1 (step body left st).2)
  = pending body depth left st.
Proof.
  intros [Hleft Hq] Hne. destruct left as [|[f|] rest]; [done| |]; cbn [step].
  - cbn [forallb] in Hleft. apply andb_true_iff in Hleft as [Hf Hrest].
    destruct (nests_body depth f Hf) as [Hbody Hw].
    unfold push, run, pending, bounded. cbn [queue].
    rewrite total_cons, Hw.
    destruct (queue st) as [|g q]; cbn [app length].
    + rewrite decide_True by done. cbn [fst snd queue tail foldr].
      rewrite forallb_app, Hbody, Hrest, total_app. cbn [forallb].
      rewrite Hf. split; [done|]. lia.
    + rewrite decide_False by (rewrite length_app; simpl; lia).
      cbn [fst snd queue tail]. rewrite waiting_app.
      change (g :: q ++ [f]) with ((g :: q) ++ [f]).
      rewrite forallb_app, Hq. cbn [forallb]. rewrite Hf, Hrest.
      split; [done|]. lia.
  - cbn [forallb] in Hleft. rewrite nests_Done in Hleft. simpl in Hleft.
    unfold shift, run, pending, bounded. cbn [queue].
    rewrite total_cons, weight_Done.
    destruct (queue st) as [|g [|h q]]; cbn [tail fst snd queue foldr].
    + split; [done|]. lia.
    + split; [done|]. lia.
    + cbn [forallb] in Hq.
      apply andb_true_iff in Hq as [_ [Hh Hq]%andb_true_iff].
      destruct (nests_body depth h Hh) as [Hbody _].
      rewrite forallb_app, Hbody, Hleft, total_app. cbn [forallb]. rewrite Hh, Hq.
      split; [done|]. lia.
Qed.

(** With fuel for the calls still to come, no call is left. *)
Lemma exec_halts (depth fuel : nat) (left : list call) (st : state) :
  bounded body depth left st → (pending body depth left st ≤ fuel)%nat →
  (exec body fuel left st).1 = [].
Proof.
  revert left st. induction fuel as [|fuel IH]; intros left st Hb Hfuel.
  - destruct left as [|c left]; [done|].
    unfold pending in Hfuel. rewrite total_cons in Hfuel.
    pose proof (weight_pos depth c). lia.
  - cbn [exec]. destruct (decide (left = [])) as [->|Hne].
    + cbn [step]. clear. revert st.
      induction fuel as [|fuel IHf]; intros st; [done|]. apply IHf.
    + destruct (step_pending depth left st Hb Hne) as [Hb' Hp].
      destruct (step body left st) as [left' st']. apply IH; [done|].
      simpl in Hp. lia.
Qed.

(** ** Functions that call [done] once *)

Lemma step_settled (left : list call) (st : state) :
  (∀ f, count_done (body f) = 1%nat) →
  settled left st → settled (step body left st).1 (step body left st).2.
Proof.
  unfold settled. intros Htidy Hd.
  destruct left as [|[f|] rest]; cbn [step]; [done| |].
  - unfold count_done in Hd. rewrite filter_cons_False in Hd by (simpl; tauto).
    fold (count_done rest) in Hd.
    unfold push, run. cbn [queue].
    destruct (queue st) as [|g q]; cbn [app length].
    + rewrite decide_True by done. cbn [fst snd queue].
      rewrite count_done_app, Htidy. lia.
    + rewrite decide_False by (rewrite length_app; simpl; lia). done.
  - unfold count_done in Hd. rewrite filter_cons_True in Hd by (simpl; tauto).
    cbn [length] in Hd. fold (count_done rest) in Hd.
    unfold shift, run. cbn [queue].
    destruct (queue st) as [|g [|h q]]; cbn [tail fst snd queue]; [lia|lia|].
    rewrite count_done_app, Htidy. lia.
Qed.

Lemma exec_settled (fuel : nat) (left : list call) (st : state) :
  (∀ f, count_done (body f) = 1%nat) →
  settled left st →
  settled (exec body fuel left st).1 (exec body fuel left st).2.
Proof.
  intros Htidy. revert left st.
  induction fuel as [|fuel IH]; intros left st Hst; [done|].
  cbn [exec]. pose proof (step_settled left st Htidy Hst) as Hstep.
  destruct (step body left st) as [left' st']. by apply IH.
Qed.

End WithFunctions.

End QueueFacts.

Module QueueProperties.
Import Queue QueueFacts.

(** X8. Whatever the functions do and whatever calls of [add] and [done]
    are made on a new queue, from outside or by the functions while they
    run, after any number of calls: the functions added are, in order,
    those [done] has shifted out followed by those still in the queue; [run]
    has called exactly those shifted out and the head of the queue, so the
    functions are called in the order they were added, the next one only
    after [done] has removed the one before; the calls of [add] made so far
    and those still to make are the ones of [calls] and of the functions
    called so far, none lost and none made up; and a function added first,
    to the new queue, is called at once. *)
Theorem queue_runs_in_order (body : nat → list call) (calls : list call)
    (fuel : nat) :
  let left := (exec body fuel calls create).1 in
  let st := (exec body fuel calls create).2 in
  added st = finished st ++ queue st ∧
  started st = finished st ++ take 1 (queue st) ∧
  started st `prefix_of` added st ∧
  added st ++ adds left
    ≡ₚ adds calls ++ flat_map (λ f, adds (body f)) (started st) ∧
  ∀ f rest, calls = Add f :: rest → (0 < fuel)%nat →
    head (added st) = Some f ∧ head (started st) = Some f.
Proof.
  intros left st.
  destruct (exec_in_order body fuel calls create create_in_order) as [Ha Hs].
  fold st in Ha, Hs.
  split; [done|]. split; [done|]. split.
  { rewrite Ha, Hs. apply prefix_app, prefix_take. }
  split.
  { apply (exec_accounted body fuel calls calls create), create_accounted. }
  intros f rest -> Hfuel. subst st. destruct fuel as [|fuel]; [lia|].
  cbn [exec step]. unfold push, run. cbn [queue create app length].
  rewrite decide_True by done. by apply exec_first.
Qed.

(** X9. When every function calls [done] once while it runs and the
    functions added nest at most [depth] deep (the way the router queues its
    redirects, src/dist/lite.js 1087-1099 and 1113-1116), then after any
    sequence of [add] calls on a new queue the calls come to an end, after
    as many calls as the [add] calls stand for; by then every function
    added, by [calls] or by a function that was called, has been called, in
    the order of the [add] calls, and shifted out, and the queue is empty
    again. *)
Theorem queue_serves_all (body : nat → list call) (calls : list call)
    (depth : nat) :
  (∀ f, count_done (body f) = 1%nat) →
  count_done calls = O →
  forallb (nests body depth) calls = true →
  ∃ st, exec body (total body depth calls) calls create = ([], st) ∧
        queue st = [] ∧ started st = added st ∧ finished st = added st ∧
        added st ≡ₚ adds calls ++ flat_map (λ f, adds (body f)) (added st).
Proof.
  intros Htidy Hdone Hnests.
  set (fuel := total body depth calls).
  assert ((exec body fuel calls create).1 = []) as Hhalt.
  { apply (exec_halts body depth); [by split|]. unfold pending. simpl. lia. }
  pose proof (exec_in_order body fuel calls create create_in_order) as [Ha Hs].
  pose proof (exec_settled body fuel calls create Htidy) as Hset.
  pose proof (exec_accounted body fuel calls calls create
                (create_accounted body calls)) as Hacc.
  destruct (exec body fuel calls create) as [left st]. simpl in *. subst left.
  assert (queue st = []) as Hq.
  { unfold settled in Hset. rewrite Hdone in Hset. simpl in *.
    specialize (Hset eq_refl). by destruct (queue st). }
  rewrite Hq in Ha, Hs. simpl in Ha, Hs. rewrite app_nil_r in Ha, Hs.
  exists st. split; [done|]. split; [done|]. split; [congruence|].
  split; [congruence|].
  unfold accounted in Hacc. simpl in Hacc. rewrite app_nil_r in Hacc.
  by rewrite Hs, <- Ha in Hacc.
Qed.

Lemma queue_serves_all_witness :
  let body := λ f : nat,
    match f with
    | 1%nat => [Add 2%nat; Done]
    | _ => [Done]
    end in
  let calls := [Add 1%nat; Add 3%nat] in
  ∃ st, exec body (total body 2 calls) calls create = ([], st) ∧
        queue st = [] ∧ started st = added st ∧ finished st = added st ∧
        added st ≡ₚ adds calls ++ flat_map (λ f, adds (body f)) (added st).
Proof.
  intros body calls. apply (queue_serves_all body calls 2).
  - intros [|[|f]]; reflexivity.
  - reflexivity.
  - reflexivity.
Defined.

End QueueProperties.

(** ** The bounded cache *)

Module CacheFacts.
Import JsArray JsValue JsObject Cache JsObjectFacts RoundTripFacts.

Lemma set_size (k : key) (v : value) (c : cache) : size (set k v c) = size c.
Proof.
  unfold set. case_decide; [|done]. by destruct (order c ++ [k]).
Qed.

Lemma fill_snoc (n : Z) (entries : list (key * value)) (k : key) (v : value) :
  fill n (entries ++ [(k, v)]) = set k v (fill n entries).
Proof. unfold fill. by rewrite fold_left_app. Qed.

Lemma fill_size (n : Z) (entries : list (key * value)) : size (fill n entries) = n.
Proof.
  induction entries as [|[k v] entries IH] using rev_ind; [done|].
  by rewrite fill_snoc, set_size.
Qed.

(** The delete order never grows past [size], and a key whose value in the
    map is defined is in the delete order. *)
Lemma set_bounded (k : key) (v : value) (c : cache) :
  0 ≤ size c →
  Z.of_nat (length (order c)) ≤ size c →
  (∀ k' v', own (map c) k' = Some v' → v' ≠ VUndefined → k' ∈ order c) →
  Z.of_nat (length (order (set k v c))) ≤ size c ∧
  (∀ k' v', own (map (set k v c)) k' = Some v' → v' ≠ VUndefined →
            k' ∈ order (set k v c)).
Proof.
  intros Hsize Hlen Hdef. unfold set.
  destruct (decide (Z.of_nat (length (order c ++ [k])) > size c)) as [Hfull|Hroom].
  - destruct (order c ++ [k]) as [|oldest rest] eqn:Horder.
    { by destruct (order c). }
    cbn [order map]. split.
    + apply (f_equal length) in Horder. rewrite length_app in Horder.
      simpl in *. lia.
    + intros k' v'. rewrite !own_set.
      case_decide as H1; [intros Heq Hv; congruence|].
      assert (k' ∈ order c ++ [k] → k' ∈ rest) as Hin.
      { rewrite Horder. intros [->|?]%elem_of_cons; done. }
      case_decide as H2.
      * intros _ _. apply Hin, elem_of_app. right. subst. left.
      * intros Hk' Hv'. apply Hin, elem_of_app. left. by eapply Hdef.
  - cbn [order map]. split; [lia|].
    intros k' v'. rewrite own_set, elem_of_app, list_elem_of_singleton.
    case_decide as H1; [by right|].
    intros Hk' Hv'. left. by eapply Hdef.
Qed.

Lemma fill_bounded (n : Z) (entries : list (key * value)) :
  0 ≤ n →
  Z.of_nat (length (order (fill n entries))) ≤ n ∧
  (∀ k v, own (map (fill n entries)) k = Some v → v ≠ VUndefined →
          k ∈ order (fill n entries)).
Proof.
  intros Hn. induction entries as [|[k v] entries [IH1 IH2]] using rev_ind.
  - split; [simpl; lia|]. intros k v Hk. done.
  - rewrite fill_snoc.
    pose proof (set_bounded k v (fill n entries)) as H.
    rewrite fill_size in H. by apply H.
Qed.

(** Reading a key right after it was set. *)
Lemma get_set (k : key) (v : value) (c : cache) :
  get k (set k v c)
  = if decide (Z.of_nat (length (order c)) + 1 > size c
               ∧ head (order c ++ [k]) = Some k)
    then VUndefined else v.
Proof.
  unfold get, set.
  destruct (decide (Z.of_nat (length (order c ++ [k])) > size c)) as [Hfull|Hroom];
    rewrite length_app in *; simpl length in *.
  - destruct (order c ++ [k]) as [|oldest rest] eqn:Horder.
    { by destruct (order c). }
    cbn [map head]. unfold JsObject.get. rewrite !own_set.
    case_decide as H1.
    + subst. rewrite decide_True; [done|]. split; [lia|done].
    + rewrite decide_True by done. rewrite decide_False; [done|].
      intros [_ [= ->]]. done.
  - cbn [map]. unfold JsObject.get. rewrite own_set, decide_True by done.
    rewrite decide_False; [done|]. intros [? _]. lia.
Qed.

Lemma tail_drop_snoc {A : Type} (l : list A) (x : A) (d : nat) :
  (d ≤ length l)%nat → tail (drop d l ++ [x]) = drop (S d) (l ++ [x]).
Proof.
  intros Hd. rewrite <- (drop_app_le l [x] d Hd).
  generalize (l ++ [x]). clear. intros k. revert d.
  induction k as [|y k IH]; intros [|d]; simpl; try done.
Qed.

(** With keys set once each, the delete order is the last [size] keys and
    the map holds the value of each of them, [undefined] for each older
    one. *)
Lemma fill_fifo (n : Z) (entries : list (key * value)) :
  0 ≤ n → NoDup entries.*1 →
  order (fill n entries) = drop (length entries - Z.to_nat n) entries.*1 ∧
  ∀ k, own (map (fill n entries)) k
       = match own entries k with
         | Some v => Some (if decide (k ∈ order (fill n entries)) then v else VUndefined)
         | None => None
         end.
Proof.
  intros Hn. induction entries as [|[k v] entries IH] using rev_ind; intros Hnd.
  { split; [done|]. intros k. done. }
  rewrite fmap_app in Hnd. apply NoDup_app in Hnd as (Hnd & Hk & _).
  destruct (IH Hnd) as [Horder Hmap]. clear IH.
  assert (own entries k = None) as Hfresh.
  { destruct (own entries k) eqn:Hown; [|done].
    exfalso. apply (Hk k); [apply own_keys; by eexists|]. simpl. left. }
  assert (∀ k', own (entries ++ [(k, v)]) k'
                = if decide (k = k') then Some v else own entries k') as Hsnoc.
  { intros k'. by apply own_snoc. }
  assert (NoDup (order (fill n entries) ++ [k])) as Hnd1.
  { rewrite Horder. apply NoDup_app. split_and!.
    - apply (sublist_NoDup _ _ Hnd), sublist_drop.
    - intros x Hx ->%list_elem_of_singleton.
      apply (Hk k); [|simpl; left]. by eapply subseteq_drop.
    - apply NoDup_singleton. }
  assert (length (order (fill n entries))
          = Nat.min (length entries) (Z.to_nat n)) as Hlen.
  { rewrite Horder, length_drop, length_fmap. lia. }
  rewrite fill_snoc. unfold set. rewrite fill_size.
  case_decide as Hfull; rewrite length_app in Hfull; simpl length in Hfull;
    rewrite (length_app entries), (fmap_app _ entries); simpl length; csimpl.
  - assert (Z.to_nat n ≤ length entries)%nat as Hge by lia.
    destruct (order (fill n entries) ++ [k]) as [|oldest rest] eqn:Hqueue.
    { by destruct (order (fill n entries)). }
    cbn [order map].
    assert (rest = tail (order (fill n entries) ++ [k])) as Hrest
      by by rewrite Hqueue.
    apply NoDup_cons in Hnd1 as [Hold Hnd1].
    split.
    + rewrite Hrest, Horder, tail_drop_snoc by (rewrite length_fmap; lia).
      f_equal. lia.
    + intros k'. rewrite !own_set, Hsnoc.
      assert (k' ∈ order (fill n entries) ++ [k] ↔ k' = oldest ∨ k' ∈ rest) as Hin.
      { rewrite Hqueue, elem_of_cons. done. }
      rewrite elem_of_app, list_elem_of_singleton in Hin.
      case_decide as H1.
      * subst oldest. case_decide as H2; [by rewrite decide_False|].
        assert (k' ∈ order (fill n entries)) as Ho.
        { destruct Hin as [_ Hin]. destruct Hin as [?|?]; [by left|done|congruence]. }
        rewrite Horder in Ho. apply subseteq_drop in Ho.
        apply own_is_Some in Ho as [v' ->]. by rewrite decide_False.
      * case_decide as H2.
        -- subst k'. rewrite (decide_True (P := k = k)) by done.
           rewrite decide_True; [done|].
           destruct Hin as [Hin _]. destruct Hin as [?|?]; [by right|congruence|done].
        -- rewrite (decide_False (P := k = k')) by done.
           rewrite Hmap. destruct (own entries k') as [v'|]; [|done].
           f_equal. apply decide_ext. split; intros Hk'.
           ++ destruct Hin as [Hin _]. destruct Hin as [?|?]; [by left|congruence|done].
           ++ destruct Hin as [_ Hin]. destruct Hin as [?|?]; [by right|done|congruence].
  - cbn [order map]. split.
    + rewrite Horder. replace (length entries - Z.to_nat n)%nat with O by lia.
      replace (length entries + 1 - Z.to_nat n)%nat with O by lia.
      by rewrite !drop_0.
    + intros k'. rewrite own_set, Hsnoc. case_decide as H1.
      * subst k'. rewrite (decide_True (P := k = k)) by done.
        rewrite decide_True; [done|]. apply elem_of_app. right. left.
      * rewrite (decide_False (P := k = k')) by done.
        rewrite Hmap. destruct (own entries k') as [v'|]; [|done].
        f_equal. apply decide_ext. rewrite elem_of_app, list_elem_of_singleton.
        split; [by left|]. intros [?|?]; [done|congruence].
Qed.

Lemma fill_NoDup (n : Z) (entries : list (key * value)) :
  NoDup (keys (map (fill n entries))).
Proof.
  induction entries as [|[k v] entries IH] using rev_ind; [apply NoDup_nil_2|].
  rewrite fill_snoc. unfold set. case_decide.
  - destruct (order (fill n entries) ++ [k]); cbn [map];
      by apply NoDup_keys_set, NoDup_keys_set.
  - by apply NoDup_keys_set.
Qed.

Lemma NoDup_fst_filter {V : Type} (P : string * V → Prop)
    `{!∀ x, Decision (P x)} (o : object V) :
  NoDup (keys o) → NoDup (filter P o).*1.
Proof.
  unfold keys, object. induction o as [|[k v] o IH]; [done|].
  csimpl. intros [Hk Hnd]%NoDup_cons. rewrite filter_cons.
  case_decide; [|by apply IH]. csimpl. apply NoDup_cons. split; [|by apply IH].
  intros Hin. apply Hk. apply list_elem_of_fmap in Hin as ([k' v'] & -> & Hin).
  apply list_elem_of_filter in Hin as [_ Hin].
  apply list_elem_of_fmap. by exists (k', v').
Qed.

(** The values a cache holds are no more than [size]. *)
Lemma fill_count (n : Z) (entries : list (key * value)) :
  0 ≤ n →
  Z.of_nat (length (filter (λ kv, kv.2 ≠ VUndefined) (map (fill n entries)))) ≤ n.
Proof.
  intros Hn. destruct (fill_bounded n entries Hn) as [Hlen Hdef].
  pose proof (fill_NoDup n entries) as Hnd.
  assert ((filter (λ kv, kv.2 ≠ VUndefined) (map (fill n entries))).*1
          ⊆+ order (fill n entries)) as Hsub.
  { apply NoDup_submseteq; [by apply NoDup_fst_filter|].
    intros k ([k' v] & -> & Hin)%list_elem_of_fmap.
    apply list_elem_of_filter in Hin as [Hv Hin]. simpl in *.
    apply (Hdef k' v); [|done].
    destruct (own_is_Some (map (fill n entries)) k') as [v' Hv'].
    { apply list_elem_of_fmap. by exists (k', v). }
    pose proof (own_elem_of _ _ _ Hv') as Hin'.
    assert (v' = v) as -> ; [|done].
    unfold keys in Hnd. clear -Hnd Hin Hin'.
    induction (map (fill n entries)) as [|[k0 v0] o IH]; [by apply elem_of_nil in Hin|].
    csimpl in Hnd. apply NoDup_cons in Hnd as [Hk Hnd].
    apply elem_of_cons in Hin as [Hin|Hin], Hin' as [Hin'|Hin']; simplify_eq; try done.
    - exfalso. apply Hk. apply list_elem_of_fmap. by exists (k0, v').
    - exfalso. apply Hk. apply list_elem_of_fmap. by exists (k0, v).
    - by apply IH. }
  apply submseteq_length in Hsub. rewrite length_fmap in Hsub.
  etrans; [|exact Hlen]. apply Nat2Z.inj_le. exact Hsub.
Qed.

Lemma own_lookup_NoDup {V : Type} (o : object V) (i : nat) (k : string) (v : V) :
  NoDup (keys o) → o !! i = Some (k, v) → own o k = Some v.
Proof.
  unfold keys, object. revert i.
  induction o as [|[k0 v0] o IH]; intros i Hnd Hi; [done|].
  csimpl in Hnd. apply NoDup_cons in Hnd as [Hk Hnd]. simpl.
  destruct i as [|i]; simpl in Hi.
  - simplify_eq. by rewrite decide_True.
  - rewrite decide_False; [by eapply IH|]. intros ->. apply Hk.
    apply list_elem_of_fmap. exists (k, v). split; [done|].
    by eapply list_elem_of_lookup_2.
Qed.

Lemma elem_of_drop_NoDup {A : Type} (l : list A) (d i : nat) (x : A) :
  NoDup l → l !! i = Some x → x ∈ drop d l ↔ (d ≤ i)%nat.
Proof.
  intros Hnd Hi. split.
  - intros [j Hj]%list_elem_of_lookup_1. rewrite lookup_drop in Hj.
    pose proof (NoDup_lookup _ _ _ _ Hnd Hi Hj). lia.
  - intros Hd. apply list_elem_of_lookup. exists (i - d)%nat.
    rewrite lookup_drop. by replace (d + (i - d))%nat with i by lia.
Qed.

End CacheFacts.

Module CacheProperties.
Import JsArray JsValue JsObject Cache CacheFacts.

(** X10. Reading a key right after it was set gives the value set, unless
    the call shifted that very key out of the delete order: the order was
    full and the key was its oldest entry (set before and not looked up
    first, as the comment above [set] asks), or [size] leaves room for
    nothing.  Then the value is gone at once and [get] gives [undefined]. *)
Theorem cache_set_then_get (k : key) (v : value) (c : cache) :
  k ≠ "__proto__" → "__proto__" ∉ order c →
  get k (set k v c)
  = if decide (Z.of_nat (length (order c)) + 1 > size c
               ∧ head (order c ++ [k]) = Some k)
    then VUndefined else v.
Proof. intros _ _. apply get_set. Qed.

Lemma cache_set_then_get_witness :
  let c := fill 2 [("a", VNum (Int 1)); ("b", VNum (Int 2))] in
  get "a" (set "a" (VNum (Int 3)) c)
  = if decide (Z.of_nat (length (order c)) + 1 > size c
               ∧ head (order c ++ ["a"]) = Some "a")
    then VUndefined else VNum (Int 3).
Proof.
  apply (cache_set_then_get "a" (VNum (Int 3))
    (fill 2 [("a", VNum (Int 1)); ("b", VNum (Int 2))])).
  - done.
  - by apply (bool_decide_unpack _).
Defined.

(** X11. However a cache of size [n >= 0] is filled, its delete order never
    holds more than [n] keys, every key whose value in the map is defined is
    in the delete order, and so at most [n] values are held. *)
Theorem cache_holds_at_most_size (n : Z) (entries : list (key * value)) :
  0 ≤ n → "__proto__" ∉ entries.*1 →
  let c := fill n entries in
  Z.of_nat (length (order c)) ≤ n ∧
  (∀ k v, own (map c) k = Some v → v ≠ VUndefined → k ∈ order c) ∧
  Z.of_nat (length (filter (λ kv, kv.2 ≠ VUndefined) (map c))) ≤ n.
Proof.
  intros Hn _. cbv zeta. destruct (fill_bounded n entries Hn) as [Hlen Hdef].
  split; [done|]. split; [done|]. by apply fill_count.
Qed.

Lemma cache_holds_at_most_size_witness :
  let c := fill 2 [("a", VNum (Int 1)); ("b", VNum (Int 2)); ("c", VNum (Int 3))] in
  Z.of_nat (length (order c)) ≤ 2 ∧
  (∀ k v, own (map c) k = Some v → v ≠ VUndefined → k ∈ order c) ∧
  Z.of_nat (length (filter (λ kv, kv.2 ≠ VUndefined) (map c))) ≤ 2.
Proof.
  apply (cache_holds_at_most_size 2
    [("a", VNum (Int 1)); ("b", VNum (Int 2)); ("c", VNum (Int 3))]).
  - lia.
  - by apply (bool_decide_unpack _).
Defined.

(** X12. When the keys set are all different, a cache of size [n >= 0]
    keeps the values of the last [n] keys set and has [undefined] for every
    key set before them: the oldest entries are the ones dropped. *)
Theorem cache_keeps_latest (n : Z) (entries : list (key * value))
    (i : nat) (k : key) (v : value) :
  0 ≤ n → NoDup entries.*1 → "__proto__" ∉ entries.*1 →
  entries !! i = Some (k, v) →
  get k (fill n entries)
  = if decide (length entries ≤ i + Z.to_nat n)%nat then v else VUndefined.
Proof.
  intros Hn Hnd _ Hi. destruct (fill_fifo n entries Hn Hnd) as [Horder Hmap].
  unfold get, JsObject.get. rewrite Hmap.
  rewrite (own_lookup_NoDup entries i k v Hnd Hi).
  apply decide_ext. rewrite Horder.
  rewrite (elem_of_drop_NoDup entries.*1 _ i k Hnd).
  - lia.
  - by rewrite list_lookup_fmap, Hi.
Qed.

Lemma cache_keeps_latest_witness :
  get "a" (fill 2 [("a", VNum (Int 1)); ("b", VNum (Int 2)); ("c", VNum (Int 3))])
  = if decide (length [("a", VNum (Int 1)); ("b", VNum (Int 2)); ("c", VNum (Int 3))]
               ≤ 0 + Z.to_nat 2)%nat
    then VNum (Int 1) else VUndefined.
Proof.
  apply (cache_keeps_latest 2
    [("a", VNum (Int 1)); ("b", VNum (Int 2)); ("c", VNum (Int 3))]
    0 "a" (VNum (Int 1))).
  - lia.
  - by apply (bool_decide_unpack _).
  - by apply (bool_decide_unpack _).
  - reflexivity.
Defined.

End CacheProperties.

(** ** The bus *)

Module BusFacts.
Import JsArray JsValue JsObject JsResult Bus JsObjectFacts.

Section Quiet.
Variable A : Type.
Variable call : func → value → bus * A → option (result (bus * A)).
Variable builtin_length : string → nat.
Variable behave : func → value → A → A.
Hypothesis Hquiet : ∀ h v b a, call h v (b, a) = Some (Ok (b, behave h v a)).

Lemma call_handlers_quiet (fuel : nat) (key : string) (arg : value) (j : nat)
    (b : bus) (a : A) (hs : list func) :
  own (handlers b) key = Some hs → (length hs - j < fuel)%nat →
  call_handlers A call builtin_length fuel key arg j (b, a)
  = Some (Ok (b, fold_left (λ a h, behave h arg a) (drop j hs) a)).
Proof using Hquiet.
  intros Hown. revert j a.
  induction fuel as [|fuel IH]; intros j a Hfuel; [lia|].
  cbn [call_handlers fst]. rewrite Hown. destruct (hs !! j) as [h|] eqn:Hj.
  - rewrite Hquiet. pose proof (lookup_lt_Some _ _ _ Hj). rewrite IH by lia.
    by rewrite (drop_S hs h j Hj).
  - apply lookup_ge_None in Hj. by rewrite drop_ge.
Qed.

Lemma fold_deliver (hs : list func) (v : value) (a : A) :
  fold_left (λ a hv, behave hv.1 hv.2 a) ((λ h, (h, v)) <$> hs) a
  = fold_left (λ a h, behave h v a) hs a.
Proof. revert a. induction hs as [|h hs IH]; intros a; [done|]. csimpl. by rewrite IH. Qed.

Lemma handle_keys_quiet (fuel : nat) (ks : list string) (props : object value)
    (b : bus) (a : A) :
  (∀ key, key ∈ ks → ¬ inherited key) →
  (∀ key hs, own (handlers b) key = Some hs → (length hs < fuel)%nat) →
  handle_keys A call builtin_length fuel ks props (b, a)
  = Some (Ok (b, fold_left (λ a hv, behave hv.1 hv.2 a) (deliveries b props ks) a)).
Proof using Hquiet.
  intros Hinh Hfuel. revert a.
  induction ks as [|key ks IH]; intros a; [done|].
  cbn [handle_keys fst]. unfold deliveries. cbn [flat_map].
  fold (deliveries b props ks). rewrite fold_left_app.
  destruct (own (handlers b) key) as [hs|] eqn:Hown.
  - rewrite decide_True by (left; by eexists).
    rewrite (call_handlers_quiet fuel key _ 0 b a hs Hown).
    2:{ specialize (Hfuel key hs Hown). lia. }
    rewrite IH by (intros k Hk; apply Hinh; by right).
    by rewrite drop_0, fold_deliver.
  - rewrite decide_False.
    2:{ intros [[? ?]|Hk]; [done|]. apply (Hinh key); [left|done]. }
    simpl. apply IH. intros k Hk. apply Hinh. by right.
Qed.

Lemma handle_quiet (fuel : nat) (props : object value) (b : bus) (a : A) :
  isObject props = true → get props "name" = VUndefined →
  (∀ key, key ∈ keys props → ¬ inherited key) →
  (∀ key hs, own (handlers b) key = Some hs → (length hs < fuel)%nat) →
  handle A call builtin_length fuel (EventObject props) (b, a)
  = Some (Ok (b, fold_left (λ a hv, behave hv.1 hv.2 a)
                   (deliveries b props (keys props)) a)).
Proof using Hquiet.
  intros Hobj Hname Hinh Hfuel. cbn [handle]. rewrite Hobj, Hname. simpl.
  by apply handle_keys_quiet.
Qed.


End Quiet.

(** No array of handlers is ever stored under a name every object
    inherits. *)
Lemma on_no_inherited (type handler : value) (b b' : bus) :
  (∀ t, inherited t → own (handlers b) t = None) →
  on type handler b = Ok b' →
  names b' = names b ∧
  (∀ t, inherited t → own (handlers b') t = None) ∧
  ∃ t h, type = VStr t ∧ handler = VFun h ∧ ¬ inherited t ∧
    ∀ t', default [] (own (handlers b') t')
          = default [] (own (handlers b) t') ++ (if decide (t = t') then [h] else []).
Proof.
  intros Hinv. unfold on.
  destruct type as [| | | |t| | |]; try done.
  destruct handler as [| | | | |h| |]; try done.
  destruct (own (handlers b) t) as [hs|] eqn:Hown.
  - intros [= <-]. cbn [names handlers]. split; [done|].
    assert (¬ inherited t) as Ht.
    { intros Ht. by rewrite (Hinv t Ht) in Hown. }
    split.
    + intros t' Ht'. rewrite own_set. case_decide; [by subst|by apply Hinv].
    + exists t, h. split_and!; try done. intros t'. rewrite own_set.
      case_decide; subst; [by rewrite Hown|by rewrite app_nil_r].
  - case_decide as Ht; [done|]. intros [= <-]. cbn [names handlers]. split; [done|].
    split.
    + intros t' Ht'. rewrite own_set. case_decide; [by subst|by apply Hinv].
    + exists t, h. split_and!; try done. intros t'. rewrite own_set.
      case_decide; subst; [by rewrite Hown|by rewrite app_nil_r].
Qed.

Lemma attach_spec (regs : list (string * func)) (b b' : bus) :
  (∀ t, inherited t → own (handlers b) t = None) →
  attach regs b = Ok b' →
  names b' = names b ∧
  (∀ t, inherited t → own (handlers b') t = None) ∧
  (∀ r, r ∈ regs → ¬ inherited r.1) ∧
  ∀ t, default [] (own (handlers b') t)
       = default [] (own (handlers b) t) ++ (filter (λ r, r.1 = t) regs).*2.
Proof.
  revert b. induction regs as [|[t h] regs IH]; intros b Hinv; cbn [attach].
  - intros [= <-]. split_and!; try done.
    + intros r Hr. by apply elem_of_nil in Hr.
    + intros t. by rewrite app_nil_r.
  - destruct (on (VStr t) (VFun h) b) as [b1|] eqn:Hon; [|done].
    destruct (on_no_inherited _ _ _ _ Hinv Hon)
      as (Hnames & Hinv1 & t0 & h0 & [= <-] & [= <-] & Ht & Hown).
    intros Hrest. destruct (IH b1 Hinv1 Hrest) as (Hnames' & Hinv' & Hregs & Hown').
    split_and!; [congruence|done| |].
    + intros r [->|Hr]%elem_of_cons; [done|by apply Hregs].
    + intros t'. rewrite Hown', Hown, <- app_assoc. f_equal.
      rewrite filter_cons. simpl. by case_decide.
Qed.

Lemma attach_returns (regs : list (string * func)) (b : bus) :
  (∀ r, r ∈ regs → ¬ inherited r.1) → ∃ b', attach regs b = Ok b'.
Proof.
  revert b. induction regs as [|[t h] regs IH]; intros b Hregs; cbn [attach]; [by eexists|].
  assert (¬ inherited t) as Ht by (apply (Hregs (t, h)); left).
  assert (∃ b1, on (VStr t) (VFun h) b = Ok b1) as [b1 ->].
  { unfold on. destruct (own (handlers b) t); [by eexists|].
    rewrite decide_False by done. by eexists. }
  apply IH. intros r Hr. apply Hregs. by right.
Qed.


Lemma deliveries_attached (regs : list (string * func)) (b : bus)
    (props : object value) (ks : list string) :
  (∀ t, default [] (own (handlers b) t) = (filter (λ r, r.1 = t) regs).*2) →
  deliveries b props ks
  = flat_map (λ key, (λ h, (h, get props key)) <$> (filter (λ r, r.1 = key) regs).*2) ks.
Proof.
  intros Hown. unfold deliveries.
  induction ks as [|key ks IH]; [done|]. cbn [flat_map]. by rewrite IH, Hown.
Qed.

End BusFacts.

Module BusProperties.
Import JsArray JsValue JsObject JsResult Bus JsObjectFacts BusFacts.

Section Quiet.
Variable A : Type.
Variable call : func → value → bus * A → option (result (bus * A)).
Variable builtin_length : string → nat.
Variable behave : func → value → A → A.

(** X13. On a bus whose handlers were attached by [on], none under a name
    every object inherits, and whose handlers return and leave the bus as it
    is: an unnamed event, none of whose keys is such a name, is handled by
    calling, for each key of the event in the order of its keys, every
    handler attached to that key, in the order they were attached, on the
    value the event has under the key; handlers under other keys are not
    called, and [handle] returns. *)
Theorem bus_delivers_in_order (regs : list (string * func))
    (props : object value) (a : A) (fuel : nat) :
  (∀ h v b a, call h v (b, a) = Some (Ok (b, behave h v a))) →
  (∀ r, r ∈ regs → ¬ inherited r.1) →
  isObject props = true → get props "name" = VUndefined →
  (∀ key, key ∈ keys props → ¬ inherited key) →
  (length regs < fuel)%nat →
  ∃ b, attach regs create = Ok b ∧
    handle A call builtin_length fuel (EventObject props) (b, a)
    = Some (Ok (b, fold_left (λ a hv, behave hv.1 hv.2 a)
         (flat_map (λ key, (λ h, (h, get props key))
                             <$> (filter (λ r, r.1 = key) regs).*2)
            (keys props)) a)).
Proof.
  intros Hquiet Hregs Hobj Hname Hkeys Hfuel.
  destruct (attach_returns regs create Hregs) as [b Hb]. exists b. split; [done|].
  destruct (attach_spec regs create b) as (_ & _ & _ & Hown); [done..|].
  rewrite (handle_quiet A call builtin_length behave Hquiet fuel props b a);
    try done.
  - by rewrite (deliveries_attached regs).
  - intros key hs Hhs. specialize (Hown key). rewrite Hhs in Hown. simpl in Hown.
    rewrite Hown, length_fmap.
    pose proof (length_filter (λ r : string * func, r.1 = key) regs). lia.
Qed.


End Quiet.

(** X15. No handler can be attached under a name every object inherits
    from [Object.prototype] ([constructor], [toString], [valueOf], ...):
    on a bus set up by calls of [on] that returned, such a call of [on]
    throws a [TypeError], because [handlers[type]] finds the inherited
    method, which has no [push]. *)
Theorem on_inherited_throws (regs : list (string * func)) (b : bus)
    (type : string) (handler : func) :
  attach regs create = Ok b → inherited type →
  on (VStr type) (VFun handler) b
  = Throw (TypeError "handlers[type].push is not a function").
Proof.
  intros Hb Ht. destruct (attach_spec regs create b) as (_ & Hinv & _); [done..|].
  unfold on. rewrite (Hinv type Ht). by rewrite decide_True.
Qed.

Lemma on_inherited_throws_witness :
  on (VStr "toString") (VFun (Closure 1))
     {| handlers := [("state", [Closure 0])]; names := [] |}
  = Throw (TypeError "handlers[type].push is not a function").
Proof.
  apply (on_inherited_throws [("state", Closure 0)]
    {| handlers := [("state", [Closure 0])]; names := [] |} "toString" (Closure 1)).
  - reflexivity.
  - by apply (bool_decide_unpack _).
Defined.

Lemma bus_delivers_in_order_witness :
  let call := λ (h : func) (v : value) (w : bus * list (func * value)),
    Some (Ok (w.1, w.2 ++ [(h, v)])) : option (result (bus * list (func * value))) in
  let regs := [("state", Closure 0); ("update", Closure 1); ("state", Closure 2)] in
  let props := [("update", VBool false); ("state", VNum (Int 7))] in
  ∃ b, attach regs create = Ok b ∧
    handle (list (func * value)) call (λ _, O) 4 (EventObject props) (b, [])
    = Some (Ok (b, fold_left (λ a hv, a ++ [(hv.1, hv.2)])
         (flat_map (λ key, (λ h, (h, get props key))
                             <$> (filter (λ r, r.1 = key) regs).*2)
            (keys props)) [])).
Proof.
  apply (bus_delivers_in_order (list (func * value))
    (λ h v w, Some (Ok (w.1, w.2 ++ [(h, v)]))) (λ _, O)
    (λ h v a, a ++ [(h, v)])
    [("state", Closure 0); ("update", Closure 1); ("state", Closure 2)]
    [("update", VBool false); ("state", VNum (Int 7))] [] 4).
  - done.
  - intros r Hr. repeat (apply elem_of_cons in Hr as [->|Hr];
      [by apply (bool_decide_unpack _)|]). by apply elem_of_nil in Hr.
  - reflexivity.
  - reflexivity.
  - intros key Hk. repeat (apply elem_of_cons in Hk as [->|Hk];
      [by apply (bool_decide_unpack _)|]). by apply elem_of_nil in Hk.
  - simpl. lia.
Defined.


End BusProperties.

(** ** The trees [build] returns *)

Module BuildTreeFacts.
Import JsArray JsValue JsObject JsResult Vdom VdomSpec HostChildren Build.
Import JsObjectFacts BuildFacts RoundTripFacts.

(** Induction on elements, with the hypothesis available for what a
    component returns and for every child of a tag. *)
Lemma element_nested_ind (P : element → Prop) :
  (∀ b, P (EBool b)) → P ENull → (∀ n, P (ENum n)) → (∀ s, P (EStr s)) →
  (∀ v, P (ENotVdom v)) →
  (∀ component props children returned,
     P returned → P (EComponent component props children returned)) →
  (∀ tagType attributes childList,
     (∀ l, childList = Present l → Forall P l) →
     P (ETag tagType attributes childList)) →
  ∀ e, P e.
Proof.
  intros Hbool Hnull Hnum Hstr Hnot Hcomp Htag. fix IH 1.
  intros [b| |n|s|v|component props children returned|tagType attributes childList];
    [done..| |].
  - apply Hcomp, IH.
  - apply Htag. destruct childList as [|l|v]; intros l' [= <-].
    induction l as [|e l IHl]; constructor; [apply IH|apply IHl].
Qed.

Lemma elem_of_replace_own {V : Type} (o : object V) (k : string) (v : V)
    (kv : string * V) :
  kv ∈ replace_own o k v → kv = (k, v) ∨ kv ∈ o.
Proof.
  induction o as [|[k0 v0] o IH]; simpl; [by right|].
  case_decide; rewrite !elem_of_cons; [tauto|]. intros [?|?%IH]; tauto.
Qed.

Lemma elem_of_insert_index {V : Type} (n : N) (o : object V) (k : string) (v : V)
    (kv : string * V) :
  kv ∈ insert_index n k v o → kv = (k, v) ∨ kv ∈ o.
Proof.
  induction o as [|[k0 v0] o IH]; simpl.
  - rewrite list_elem_of_singleton. tauto.
  - destruct (array_index k0) as [n0|]; [case_decide|]; rewrite !elem_of_cons;
      tauto.
Qed.

(** The entries of an object after [o[k] = v]. *)
Lemma elem_of_set {V : Type} (o : object V) (k : string) (v : V) (kv : string * V) :
  kv ∈ set o k v → kv = (k, v) ∨ kv ∈ o.
Proof.
  unfold set. destruct (own o k).
  - apply elem_of_replace_own.
  - destruct (array_index k).
    + apply elem_of_insert_index.
    + rewrite elem_of_app, list_elem_of_singleton. tauto.
Qed.

(** What holds of every child built holds of every entry of [children]. *)
Lemma build_children_all (P : vnode → Prop) (big : Z → string)
    (build_child : element → result vnode)
    (ancestry : string) (l : list element) (i : nat)
    (children children' : object vnode) (childOrder childOrder' : list key) :
  (∀ e c, e ∈ l → build_child e = Ok c → P c) →
  Forall (λ kv, P kv.2) children →
  build_children big build_child ancestry l i children childOrder
  = Ok (children', childOrder') →
  Forall (λ kv, P kv.2) children'.
Proof.
  revert i children childOrder.
  induction l as [|e l IH]; intros i children childOrder Hbuild Hall; cbn [build_children].
  { by intros [= <- <-]. }
  destruct (build_child e) as [c|] eqn:Hc; [|done].
  destruct (child_key big ancestry i c) as [k|]; [|done].
  unfold add_child. case_decide; [done|].
  apply IH.
  - intros e' c' He'. apply Hbuild. by right.
  - apply Forall_forall. intros kv [->|Hkv]%elem_of_set.
    + simpl. apply (Hbuild e); [left|done].
    + rewrite Forall_forall in Hall. by apply Hall.
Qed.

Lemma build_children_well_keyed (big : Z → string)
    (build_child : element → result vnode)
    (ancestry : string) (l : list element)
    (children : object vnode) (childOrder : list key)
    (tagName : string) (attributes : object value) :
  (∀ e c, e ∈ l → build_child e = Ok c → well_keyed c = true) →
  build_children big build_child ancestry l 0 [] [] = Ok (children, childOrder) →
  well_keyed (Element tagName attributes children childOrder) = true.
Proof.
  intros Hl Hloop. cbn [well_keyed]. apply andb_true_iff. split.
  - destruct (build_children_keys_start _ _ _ _ _ _ Hloop) as (_ & Hkeys & _).
    apply forallb_forall. intros k Hk%list_elem_of_In.
    apply bool_decide_eq_true. by apply Hkeys.
  - pose proof (build_children_all (λ c, well_keyed c = true) _ _ _ _ _ _ _ _ _
      Hl (Forall_nil_2 _) Hloop) as Hall.
    apply forallb_forall. intros kv Hkv%list_elem_of_In.
    rewrite Forall_forall in Hall. by apply Hall.
Qed.

Lemma build_children_plain_keys (big : Z → string)
    (build_child : element → result vnode)
    (ancestry : string) (l : list element)
    (children : object vnode) (childOrder : list key)
    (tagName : string) (attributes : object value) :
  (∀ e c, e ∈ l → build_child e = Ok c → plain_keys c = true) →
  build_children big build_child ancestry l 0 [] [] = Ok (children, childOrder) →
  plain_keys (Element tagName attributes children childOrder) = true.
Proof.
  intros Hl Hloop. cbn [plain_keys].
  destruct (build_children_keys_start _ _ _ _ _ _ Hloop) as (_ & Hkeys & Hplain).
  apply andb_true_iff. split.
  - apply forallb_forall. intros k Hk%list_elem_of_In.
    apply bool_decide_eq_true. by apply Hplain.
  - pose proof (build_children_all (λ c, plain_keys c = true) _ _ _ _ _ _ _ _ _
      Hl (Forall_nil_2 _) Hloop) as Hall.
    apply forallb_forall. intros [k c] Hkv%list_elem_of_In.
    rewrite Forall_forall in Hall. apply andb_true_iff. split.
    + apply bool_decide_eq_true. apply Hplain, Hkeys. simpl.
      apply own_is_Some. unfold keys. apply list_elem_of_fmap. by exists (k, c).
    + by apply (Hall (k, c)).
Qed.

Section WithEngine.
Variable exec_tag : string → option tag_match.
Variable trim : string → string.
Variable class_list : value → option string → string.
Variable to_string : value → string.
Variable big : Z → string.

(** Every tree [build] returns is well keyed, and none of its keys is an
    inherited name. *)
Lemma build_well_keyed_all (e : element) (ancestry : string) (T : vnode) :
  build exec_tag trim class_list to_string big e ancestry = Ok T →
  well_keyed T = true ∧ plain_keys T = true.
Proof using Type.
  revert ancestry T.
  induction e as [b| |n|s|v|component props cs returned IH|tagType attrs childList IH]
    using element_nested_ind; intros ancestry T Hbuild; cbn [build] in Hbuild;
    try (by simplify_eq).
  - destruct props as [|props|v]; [| |done];
      (destruct cs as [|cs|v]; [| |done]); by eapply IH.
  - destruct tagType as [|tag|v]; [done| |done].
    destruct attrs as [|attrs|v]; [| |by destruct childList];
      (destruct childList as [|l|v]; [| |done]);
      (destruct (exec_tag tag) as [m|] eqn:Hm; [|done]); cbv zeta in Hbuild;
      match type of Hbuild with
      | match ?loop with _ => _ end = _ =>
          destruct loop as [[children0 childOrder0]|] eqn:Hloop0; [|done]
      end; simplify_eq;
      (split;
        [eapply build_children_well_keyed; [|exact Hloop0]
        |eapply build_children_plain_keys; [|exact Hloop0]]);
      intros e c He Hc; try (by apply elem_of_nil in He);
      specialize (IH l eq_refl); rewrite Forall_forall in IH;
      simpl in Hc; destruct (IH e He _ c Hc); done.
Qed.

End WithEngine.

End BuildTreeFacts.

Module BuildProperties.
Import JsArray JsValue JsObject JsResult Vdom VdomSpec Build.
Import RoundTripFacts BuildTreeFacts.

Section WithEngine.
Variable exec_tag : string → option tag_match.
Variable trim : string → string.
Variable class_list : value → option string → string.
Variable to_string : value → string.
Variable big : Z → string.

(** X16. Every tree [build] returns is well keyed all the way down: at
    every element, each key of [childOrder] names an own child of
    [children], and no key is a name inherited from [Object.prototype]. *)
Theorem build_well_keyed (e : element) (ancestry : string) (T : vnode) :
  build exec_tag trim class_list to_string big e ancestry = Ok T →
  well_keyed T = true ∧ plain_keys T = true.
Proof. apply build_well_keyed_all. Qed.


End WithEngine.

Lemma build_well_keyed_witness :
  let T := Element "ul" []
    [("0", Text "first"); ("a", Element "li" [("key", VStr "a")] [] [])]
    ["0"; "a"] in
  well_keyed T = true ∧ plain_keys T = true.
Proof.
  apply (build_well_keyed
    (λ tag, Some {| m_tagName := tag; m_id := None; m_className := None;
                    m_style := None |})
    (λ s, s) (λ _ _, "") (λ _, "") (λ _, "")
    (ETag (Present "ul") Absent
       (Present [EStr "first";
                 ETag (Present "li") (Present [("key", VStr "a")]) Absent]))
    "root").
  reflexivity.
Defined.


End BuildProperties.

(** ** The class names [classnames] joins *)

Module ClassnamesFacts.
Import JsArray JsValue JsObject Classnames.

Lemma concat_nonblank (l : list string) :
  Forall (λ s, s ≠ "") l → String.concat " " l = "" → l = [].
Proof.
  intros Hl. destruct Hl as [|s l Hs Hl]; [done|].
  simpl. destruct l; [done|]. destruct s; [done|]. by simpl.
Qed.

Lemma concat_cons (s : string) (l : list string) :
  Forall (λ s, s ≠ "") l →
  String.concat " " (s :: l) =
    if decide (String.concat " " l = "") then s
    else s +:+ " " +:+ String.concat " " l.
Proof.
  intros Hl. case_decide as H.
  - by rewrite (concat_nonblank l Hl H).
  - destruct l; [done|]. done.
Qed.

Lemma app_empty (x y : string) : x +:+ y = "" → x = "".
Proof. by destruct x. Qed.

Lemma append_assoc (x y z : string) : (x +:+ y) +:+ z = x +:+ y +:+ z.
Proof.
  induction x as [|c x IH]; [done|].
  change (String c ((x +:+ y) +:+ z) = String c (x +:+ y +:+ z)). by f_equal.
Qed.

Lemma concat_app (l1 l2 : list string) :
  Forall (λ s, s ≠ "") l1 → Forall (λ s, s ≠ "") l2 →
  String.concat " " (l1 ++ l2) = glue (String.concat " " l1) (String.concat " " l2).
Proof.
  intros H1 H2. induction H1 as [|s l1 Hs H1 IH].
  - done.
  - rewrite <- app_comm_cons. rewrite !concat_cons by (by try apply Forall_app).
    rewrite IH. unfold glue.
    repeat case_decide; simplify_eq; try done.
    all: try (exfalso; destruct s; done).
    + exfalso. eauto using app_empty.
    + by rewrite append_assoc.
Qed.

(** What [filter(Boolean).join(' ')] makes of joined pieces. *)
Lemma join_truthy_cons (l : list string) (pieces : list (option string)) :
  Forall (λ s, s ≠ "") l →
  join_truthy (Some (String.concat " " l) :: pieces) =
    glue (String.concat " " l) (join_truthy pieces).
Proof.
  intros Hl. unfold join_truthy. cbn [omap list_omap].
  set (rest := omap _ pieces).
  assert (Forall (λ s, s ≠ "") rest) as Hrest.
  { subst rest. apply Forall_forall. intros s [p [Hp Hs]]%list_elem_of_omap.
    destruct p as [s'|]; [|done]. by case_decide; simplify_eq. }
  case_decide as He.
  - rewrite He. done.
  - rewrite concat_cons by done. unfold glue.
    rewrite (decide_False (P := String.concat " " l = "")) by done. done.
Qed.

Lemma depth_cons (a : arg) (args : list arg) :
  args_depth (a :: args) = Nat.max (arg_depth a) (args_depth args).
Proof. done. Qed.

Lemma names_truthy_key (props : object arg) (k : string) :
  names match own props k with
        | Some v => if truthy v then AStr k else v
        | None => AOther VUndefined
        end = if included props k then [k] else [].
Proof.
  unfold included. destruct (own props k) as [v|]; [|by rewrite andb_false_r].
  destruct (truthy v) eqn:Hv.
  - simpl. case_decide; simplify_eq; [done|].
    by rewrite bool_decide_eq_false_2.
  - rewrite andb_false_r. destruct v as [s| | |v]; try done.
    + simpl in Hv. apply negb_false_iff, bool_decide_eq_true in Hv.
      simpl. by rewrite decide_True.
    + destruct v; try done. simpl in Hv.
      apply negb_false_iff, bool_decide_eq_true in Hv.
      simpl. by rewrite decide_True.
Qed.

Lemma names_truthy_keys (props : object arg) :
  flat_map names (truthy_keys props) = filter (λ key, included props key) (keys props).
Proof.
  unfold truthy_keys. generalize (keys props) as ks.
  induction ks as [|k ks IH]; [done|].
  rewrite fmap_cons. cbn [flat_map]. rewrite IH, names_truthy_key, filter_cons.
  by destruct (included props k).
Qed.

Lemma truthy_keys_depth (props : object arg) : args_depth (truthy_keys props) = O.
Proof.
  unfold truthy_keys. generalize (keys props) as ks.
  induction ks as [|k ks IH]; [done|].
  rewrite fmap_cons, depth_cons, IH.
  destruct (own props k) as [v|]; [|done].
  destruct (truthy v) eqn:Hv; [done|].
  destruct v as [s| | |v]; try done. by destruct v.
Qed.

(** One argument: the callback returns [undefined] and the argument names
    no class, or it returns the names of the argument joined by spaces. *)
Lemma piece_names (rec : list arg → option string) (n : nat) (a : arg) :
  (∀ args, (args_depth args < n)%nat →
     rec args = Some (String.concat " " (flat_map names args)) ∧
     Forall (λ s, s ≠ "") (flat_map names args)) →
  (arg_depth a < S n)%nat →
  ∃ p, piece rec a = Some p ∧ Forall (λ s, s ≠ "") (names a) ∧
       (p = None ∧ names a = [] ∨ p = Some (String.concat " " (names a))).
Proof.
  intros IH Hd. destruct a as [s|items|props|v].
  - exists (Some s). simpl. case_decide; simplify_eq.
    + split; [done|]. split; [done|]. by right.
    + split; [done|]. split; [by apply Forall_singleton|]. by right.
  - simpl in Hd. destruct (IH items) as [Hrec Hnb]; [unfold args_depth; lia|].
    exists (Some (String.concat " " (flat_map names items))). simpl. rewrite Hrec.
    split; [done|]. split; [done|]. by right.
  - simpl in Hd. simpl. destruct (isObject props) eqn:Hobj.
    + destruct (IH [AArr (truthy_keys props)]) as [Hrec Hnb].
      { rewrite depth_cons. simpl. fold (args_depth (truthy_keys props)).
        rewrite truthy_keys_depth. simpl. lia. }
      rewrite Hrec. cbn [flat_map names] in Hrec, Hnb |- *.
      rewrite app_nil_r, names_truthy_keys in *.
      eexists. split; [done|]. split; [done|]. by right.
    + exists None. split; [done|]. split; [done|]. by left.
  - destruct v; simpl.
    1-4, 6-7: exists None; split; [done|]; split; [done|]; by left.
    + exists (Some s). case_decide; simplify_eq.
      * split; [done|]. split; [done|]. by right.
      * split; [done|]. split; [by apply Forall_singleton|]. by right.
    + simpl in Hd. destruct (IH [AArr []]) as [Hrec Hnb].
      { rewrite depth_cons. simpl. lia. }
      rewrite Hrec. eexists. split; [done|]. split; [done|]. by right.
Qed.

Lemma classnames_names (fuel : nat) (args : list arg) :
  (args_depth args < fuel)%nat →
  classnames fuel args = Some (String.concat " " (flat_map names args)) ∧
  Forall (λ s, s ≠ "") (flat_map names args).
Proof.
  revert args. induction fuel as [|fuel IH]; intros args Hd; [lia|].
  cbn [classnames].
  assert (∃ pieces, mapM (piece (classnames fuel)) args = Some pieces ∧
            join_truthy pieces = String.concat " " (flat_map names args) ∧
            Forall (λ s, s ≠ "") (flat_map names args)) as (pieces & -> & <- & Hnb).
  2: { done. }
  induction args as [|a args IHargs].
  { exists []. done. }
  rewrite depth_cons in Hd.
  destruct IHargs as (pieces & Hm & Hj & Hnb); [lia|].
  destruct (piece_names (classnames fuel) fuel a IH) as (p & Hp & Hnba & Hcase); [lia|].
  exists (p :: pieces). cbn [mapM flat_map]. rewrite Hp, Hm. split; [done|].
  split; [|by apply Forall_app].
  rewrite concat_app by done. rewrite <- Hj.
  destruct Hcase as [[-> ->]| ->].
  - done.
  - by apply join_truthy_cons.
Qed.

End ClassnamesFacts.

Module ClassnamesProperties.
Import JsArray JsValue JsObject Classnames ClassnamesFacts.

(** X18. [classnames] returns the class names of its arguments, in order,
    separated by single spaces: a string names itself unless it is empty,
    an array the names of its items, a plain object its non-empty keys
    whose value is truthy, anything else nothing; an argument that names
    nothing leaves no space behind. *)
Theorem classnames_joins_names (fuel : nat) (args : list arg) :
  (args_depth args < fuel)%nat →
  classnames fuel args = Some (String.concat " " (flat_map names args)).
Proof. intros Hd. by apply classnames_names. Qed.

Lemma classnames_joins_names_witness :
  let args := [ AStr "a"; AOther VNull;
                AArr [AStr ""; AArr [AStr "b"]; AOther (VNum (Int 0))];
                AObj [("c", AOther (VBool true)); ("d", AOther (VBool false));
                      ("e", AArr [])] ] in
  (args_depth args < 4)%nat ∧ classnames 4 args = Some "a b c e".
Proof.
  intros args. split; [vm_compute; lia|].
  apply (classnames_joins_names 4 args). vm_compute. lia.
Defined.

End ClassnamesProperties.

(** ** What the view module calls, and when *)

Module ViewFacts.
Import JsValue JsResult View.
Local Open Scope view_scope.

Lemma ordered_snoc (l : list call) (c : call) :
  ordered l → (role_of c = RUpdate → Exists drew l) → ordered (l ++ [c]).
Proof.
  intros Hl Hc l1 c' l2 Heq Hr.
  destruct (decide (l2 = [])) as [->|Hne].
  - apply app_inj_tail in Heq as [-> ->]. by apply Hc.
  - destruct (exists_last Hne) as (l2' & c2 & ->).
    rewrite app_comm_cons, app_assoc in Heq.
    apply app_inj_tail in Heq as [-> ->]. by eapply Hl.
Qed.

Section WithApplication.
Variable apply : list call → func → list value → result value value.

(** A supplied function that is no [update] may be called at any time. *)
Lemma invoke_inv (r : role) (f : option func) (args : list value) (s : vars) :
  inv s → (r = RUpdate → hasDrawn s = true) →
  inv (invoke apply r f args s).1 ∧
  hasDrawn (invoke apply r f args s).1 = hasDrawn s ∧
  (∀ v, (invoke apply r f args s).2 = Ok v → r = RDraw →
        Exists drew (calls (invoke apply r f args s).1)).
Proof.
  intros [Ho Hd] Hr. destruct f as [f|]; simpl.
  { destruct (apply (calls s) f args) as [v|e] eqn:Hout; simpl.
    all: split; [split|split; [done|]].
    - apply ordered_snoc; [done|]. simpl. auto.
    - intros H. apply Exists_app. left. auto.
    - intros v' _ ->. apply Exists_app. right. apply Exists_cons_hd.
      split; [done|]. by exists v.
    - apply ordered_snoc; [done|]. simpl. auto.
    - intros H. apply Exists_app. left. auto.
    - done. }
  split; [done|]. split; [done|]. done.
Qed.

Lemma create_inv (state : value) (s : vars) :
  inv s →
  inv (create apply state s).1 ∧ hasDrawn (create apply state s).1 = hasDrawn s.
Proof.
  intros Hs. unfold create, bind, read.
  destruct (invoke_inv RBuilder (builder s) [state] s Hs) as (H1 & Hd1 & _); [done|].
  destruct (invoke apply RBuilder (builder s) [state] s) as [s1 [t1|e1]]; [|done].
  simpl in H1, Hd1.
  assert (∃ s2 r2,
    match prebuild s1 with
    | Some _ => invoke apply RPrebuild (prebuild s1) [t1]
    | None => ret t1
    end s1 = (s2, r2) ∧ inv s2 ∧ hasDrawn s2 = hasDrawn s) as (s2 & r2 & -> & H2 & Hd2).
  { destruct (prebuild s1) as [p|] eqn:Hp.
    - destruct (invoke_inv RPrebuild (Some p) [t1] s1 H1) as (H2 & Hd2 & _); [done|].
      destruct (invoke apply RPrebuild (Some p) [t1] s1) as [s2 r2].
      exists s2, r2. simpl in *. split; [done|]. split; [done|]. congruence.
    - exists s1, (Ok t1). done. }
  destruct r2 as [t2|e2]; [|done].
  destruct (invoke_inv RBuild (build s2) [t2] s2 H2) as (H3 & Hd3 & _); [done|].
  destruct (invoke apply RBuild (build s2) [t2] s2) as [s3 [t3|e3]]; simpl in *;
    [|split; [done|congruence]].
  destruct (postbuild s3) as [p|] eqn:Hp.
  - destruct (invoke_inv RPostbuild (Some p) [t3] s3 H3) as (H4 & Hd4 & _); [done|].
    split; [done|]. congruence.
  - simpl. split; [done|]. congruence.
Qed.

(** After the test of [canDraw]. *)
Lemma render_inv (force : value) (s : vars) :
  inv s →
  inv ((if negb (truthy force) && hasDrawn s then
          let* temp := create apply (state s) in
          let* s' := read in
          let* v := invoke apply RUpdate (update s) [target s; temp; view s'] in
          modify (set_view v)
        else
          let* temp := create apply (state s) in
          let* v := invoke apply RDraw (draw s) [target s; temp] in
          modify (set_view v);;
          modify (set_hasDrawn true)) s).1.
Proof.
  intros Hs. destruct (create_inv (state s) s Hs) as [H1 Hd1].
  destruct (negb (truthy force) && hasDrawn s) eqn:Hforce.
  - apply andb_true_iff in Hforce as [_ Hdrawn].
    unfold bind, read, modify.
    destruct (create apply (state s) s) as [s1 [t1|e1]]; [|done]. simpl in *.
    destruct (invoke_inv RUpdate (update s) [target s; t1; view s1] s1 H1)
      as (H2 & Hd2 & _); [congruence|].
    destruct (invoke apply RUpdate (update s) [target s; t1; view s1] s1)
      as [s2 [v|e]]; [|done].
    simpl in *. done.
  - unfold bind, modify.
    destruct (create apply (state s) s) as [s1 [t1|e1]]; [|done]. simpl in *.
    destruct (invoke_inv RDraw (draw s) [target s; t1] s1 H1)
      as (H2 & Hd2 & Hdrew); [done|].
    destruct (invoke apply RDraw (draw s) [target s; t1] s1)
      as [s2 [v|e]]; [|done].
    simpl in *. split; [apply H2|]. intros _. by eapply Hdrew.
Qed.

Lemma on_update_inv (force : value) (s : vars) :
  inv s → inv (on_update apply force s).1.
Proof.
  intros Hs. unfold on_update. unfold bind at 1. unfold read at 1.
  destruct (canDraw s).
  - unfold bind at 1. unfold ret at 1. unfold bind at 1. unfold read at 1.
    by apply render_inv.
  - destruct (isDefined (target s) && bool_decide (is_Some (builder s))
              && isDefined (state s) && bool_decide (is_Some (build s))).
    + unfold bind at 1. unfold bind at 1. unfold modify at 1. unfold ret at 1.
      unfold bind at 1. unfold read at 1.
      by apply (render_inv force (set_canDraw true s)).
    + done.
Qed.

Lemma assert_function_inv (message : string) (v : value)
    (set : func → vars → vars) (force : bool) (s : vars) :
  (∀ f s, inv s → inv (set f s)) →
  inv s →
  inv ((let* f := assert_function message v in
        modify (set f);; emit_update apply force) s).1.
Proof.
  intros Hset Hs. destruct v; try done.
  unfold bind, assert_function, ret, modify, emit_update.
  by apply on_update_inv, Hset.
Qed.

Lemma listen_inv (e : event) (s : vars) : inv s → inv (listen apply e s).1.
Proof.
  intros Hs. destruct e as [v|v|v|v|v|v|v|v|force]; simpl.
  - unfold use_target, bind, modify, emit_update. by apply on_update_inv.
  - by apply assert_function_inv.
  - by apply assert_function_inv.
  - by apply assert_function_inv.
  - by apply assert_function_inv.
  - by apply assert_function_inv.
  - by apply assert_function_inv.
  - unfold emit_state. destruct (isDefined v); [|done].
    unfold bind, modify, emit_update. by apply on_update_inv.
  - by apply on_update_inv.
Qed.

Lemma run_inv (events : list event) (s : vars) : inv s → inv (run apply events s).
Proof.
  revert s. induction events as [|e events IH]; intros s Hs; [done|].
  apply IH. by apply listen_inv.
Qed.

Lemma initial_inv : inv initial.
Proof.
  split; [|done]. intros l1 c l2 Heq. by destruct l1.
Qed.

Lemma on_update_idle (p : piece) (force : value) (s : vars) :
  idle p s → on_update apply force s = (s, Ok tt).
Proof.
  intros (Hc & _ & Hp). unfold on_update. unfold bind at 1. unfold read at 1.
  rewrite Hc.
  assert (isDefined (target s) && bool_decide (is_Some (builder s))
          && isDefined (state s) && bool_decide (is_Some (build s)) = false) as ->.
  { by destruct p; rewrite Hp; simpl; rewrite ?andb_false_r. }
  done.
Qed.

Lemma listen_idle (p : piece) (e : event) (s : vars) :
  gives p e = false → idle p s → idle p (listen apply e s).1.
Proof.
  intros Hg Hs.
  assert (∀ (set : vars → vars) force,
            idle p (set s) →
            idle p ((modify set;; emit_update apply force) s).1) as Hstep.
  { intros set force Hset. unfold bind, modify, emit_update.
    by rewrite (on_update_idle p _ _ Hset). }
  assert (∀ message v (set : func → vars → vars) force,
            (∀ f, v = VFun f → idle p (set f s)) →
            idle p ((let* f := assert_function message v in
                     modify (set f);; emit_update apply force) s).1) as Hfun.
  { intros message v set force Hset. destruct v; try done.
    unfold bind at 1. unfold assert_function, ret. by apply Hstep, Hset. }
  destruct Hs as (Hc & Hl & Hp).
  destruct e as [v|v|v|v|v|v|v|v|force]; simpl.
  - apply Hstep. split; [done|]. split; [done|].
    destruct p; try done. simpl in Hg. by destruct v.
  - apply Hfun. intros f ->. split; [done|]. split; [done|]. by destruct p.
  - apply Hfun. intros f ->. split; [done|]. split; [done|]. by destruct p.
  - apply Hfun. intros f ->. split; [done|]. split; [done|]. by destruct p.
  - apply Hfun. intros f ->. split; [done|]. split; [done|]. by destruct p.
  - apply Hfun. intros f ->. split; [done|]. split; [done|]. by destruct p.
  - apply Hfun. intros f ->. split; [done|]. split; [done|]. by destruct p.
  - unfold emit_state. destruct (isDefined v) eqn:Hv; [|done].
    apply Hstep. split; [done|]. split; [done|]. destruct p; try done.
    simpl in Hg. congruence.
  - by rewrite (on_update_idle p force s).
Qed.

Lemma run_idle (p : piece) (events : list event) (s : vars) :
  Forall (λ e, gives p e = false) events → idle p s → idle p (run apply events s).
Proof.
  intros Hev. revert s. induction Hev as [|e events He Hev IH]; intros s Hs; [done|].
  apply IH. by apply listen_idle.
Qed.

Lemma initial_idle (p : piece) : idle p initial.
Proof. by destruct p. Qed.

End WithApplication.

End ViewFacts.

Module ViewProperties.
Import JsValue JsResult View ViewFacts.

Section WithApplication.
Variable apply : list call → func → list value → result value value.

(** X19. Whatever events reach the view module, it never calls the
    [update] function before a call of the [draw] function has returned:
    in the record of the calls, every [update] comes after such a [draw]. *)
Theorem view_update_after_draw (events : list event) (l1 l2 : list call) (c : call) :
  calls (run apply events initial) = l1 ++ c :: l2 →
  role_of c = RUpdate →
  Exists drew l1.
Proof.
  intros Heq Hr. destruct (run_inv apply events initial initial_inv) as [Ho _].
  by eapply Ho.
Qed.

(** X20. As long as one of the target, the builder, the build function
    and the state has not been supplied, the view module calls none of the
    application's functions, whatever else it is sent. *)
Theorem view_waits_for_pipeline (p : piece) (events : list event) :
  Forall (λ e, gives p e = false) events →
  calls (run apply events initial) = [].
Proof.
  intros Hev. by destruct (run_idle apply p events initial Hev (initial_idle p))
    as (_ & ? & _).
Qed.

End WithApplication.

Lemma view_update_after_draw_witness :
  let apply := λ (_ : list call) (f : func) (_ : list value),
                 Ok (E := value) (VFun f) in
  let events := [ UseTarget (VStr "body"); UseBuilder (VFun (Closure 1));
                  UseBuild (VFun (Closure 2)); UseDraw (VFun (Closure 3));
                  UseUpdate (VFun (Closure 4));
                  EmitState (VNum (Int 0)); EmitState (VNum (Int 1)) ] in
  ∃ l1 c l2, calls (run apply events initial) = l1 ++ c :: l2 ∧
             role_of c = RUpdate ∧ Exists drew l1.
Proof.
  intros apply events.
  eexists _, _, _.
  assert (calls (run apply events initial)
          = firstn 5 (calls (run apply events initial))
            ++ {| role_of := RUpdate; callee := Closure 4;
                  arguments := [VStr "body"; VFun (Closure 2); VFun (Closure 3)];
                  returned := Ok (VFun (Closure 4)) |} :: []) as Heq
    by (vm_compute; reflexivity).
  split; [exact Heq|]. split; [reflexivity|].
  exact (view_update_after_draw apply events _ _ _ Heq eq_refl).
Defined.

Lemma view_waits_for_pipeline_witness :
  let apply := λ (_ : list call) (f : func) (_ : list value),
                 Ok (E := value) (VFun f) in
  let events := [ UseBuilder (VFun (Closure 1)); UseBuild (VFun (Closure 2));
                  UseDraw (VFun (Closure 3)); EmitState (VNum (Int 0));
                  UseTarget VUndefined; EmitUpdate (VBool true) ] in
  Forall (λ e, gives PTarget e = false) events ∧
  calls (run apply events initial) = [].
Proof.
  intros apply events.
  assert (Forall (λ e, gives PTarget e = false) events) as Hev
    by (repeat constructor).
  split; [exact Hev|]. exact (view_waits_for_pipeline apply PTarget events Hev).
Defined.

End ViewProperties.
